(** * Filter composition of the CRM Leads page, checked against its specification

    The development embeds the filter/query layer of [frontend/src/pages/Leads.vue]
    and of the quick filter bar component (QuickFiltersBar) as Rocq functions and
    proves, or refutes on concrete inputs, the properties the specification
    states about them.

    Layout: module [JS] holds the fragment of the JavaScript runtime the code
    relies on (UTF-16 strings, [toLowerCase] over the case tables of Unicode,
    numbers, dynamic values, exceptions, JSON.parse);
    module [Leads] embeds the page script; module [QuickFiltersBar] embeds the
    filter bar; module [Spec] restates sentences of the specification, [Aux]
    holds normal forms for the proofs and [Sample] the states of the worked
    examples. Further modules embed what lies around the filter functions:
    [JSText] (searching and splitting strings), [Events] (the callbacks and
    watchers of the page), [Shaping] (picker lists, the delayed cell, grouped
    rows), [App] (the bar as the page instantiates it), [LeadDoc], [Comments],
    [BarLabels] and [AssignTo] (helpers of the lead page, the comment dialog,
    the bar and the assignment dialog), with [Forms] for the normal forms of
    their proofs. The theorems follow the definitions.

    Inputs are typed as the code base builds them: field names, operators and
    catalog values are strings, [ui] properties are strings or null, filter
    values are dynamic. *)

From Stdlib Require Import ZArith NArith QArith List String Ascii Bool Lia.
From stdpp Require Import base option list gmap.
Import ListNotations.

#[local] Open Scope N_scope.

(** ** The JavaScript fragment *)
Module JS.

(** A JavaScript string is a sequence of UTF-16 code units. *)
Abbreviation jsstring := (list N).

(** String literals of this file are UTF-8; [js] turns one into code units
    (code points above the Basic Multilingual Plane become surrogate pairs). *)
Fixpoint utf16_of_utf8 (bs : list N) : jsstring :=
  match bs with
  | [] => []
  | b :: r =>
    if b <? 0x80 then b :: utf16_of_utf8 r
    else if b <? 0xE0 then
      match r with
      | b1 :: r1 => ((b - 0xC0) * 64 + (b1 - 0x80)) :: utf16_of_utf8 r1
      | _ => []
      end
    else if b <? 0xF0 then
      match r with
      | b1 :: b2 :: r2 =>
        ((b - 0xE0) * 4096 + (b1 - 0x80) * 64 + (b2 - 0x80)) :: utf16_of_utf8 r2
      | _ => []
      end
    else
      match r with
      | b1 :: b2 :: b3 :: r3 =>
        let cp := (b - 0xF0) * 262144 + (b1 - 0x80) * 4096 + (b2 - 0x80) * 64 + (b3 - 0x80) in
        (0xD800 + (cp - 0x10000) / 1024) :: (0xDC00 + (cp - 0x10000) mod 1024)
          :: utf16_of_utf8 r3
      | _ => []
      end
  end.

Definition js (s : string) : jsstring :=
  utf16_of_utf8 (List.map N_of_ascii (list_ascii_of_string s)).
Arguments js s%_string.

(** [s === t] on strings. *)
Definition str_eqb (s t : jsstring) : bool := bool_decide (s = t).

(** *** Character classes of the regular expressions in the source *)

(** [\s], which is also what [String.prototype.trim] strips: WhiteSpace and
    LineTerminator of ECMA-262. *)
Definition isWhiteSpace (c : N) : bool :=
  ((9 <=? c) && (c <=? 13)) || (c =? 32) || (c =? 0xA0) || (c =? 0x1680)
  || ((0x2000 <=? c) && (c <=? 0x200A)) || (c =? 0x2028) || (c =? 0x2029)
  || (c =? 0x202F) || (c =? 0x205F) || (c =? 0x3000) || (c =? 0xFEFF).

(** [\d]: the ten ASCII digits only. *)
Definition isDigit (c : N) : bool := (0x30 <=? c) && (c <=? 0x39).

(** The class written with the Arabic-Indic digits zero to nine, U+0660..U+0669. *)
Definition isArabicDigit (c : N) : bool := (0x660 <=? c) && (c <=? 0x669).

(** *** String methods *)

Fixpoint trimStart (s : jsstring) : jsstring :=
  match s with
  | c :: r => if isWhiteSpace c then trimStart r else s
  | [] => []
  end.

Definition trimEnd (s : jsstring) : jsstring := rev (trimStart (rev s)).

Definition trim (s : jsstring) : jsstring := trimEnd (trimStart s).

(** *** [toLowerCase]

    String.prototype.toLowerCase of ECMA-262: the string is read as code
    points (a lead surrogate followed by a trail surrogate is one code point,
    any other unit stands for itself), every code point is replaced by its
    lower-case mapping, and the result is written back as code units. The
    mapping is that of the Unicode Character Database: the simple mappings of
    UnicodeData.txt and the two entries of SpecialCasing.txt that depend on no
    language, U+0130, which becomes U+0069 U+0307, and the capital sigma
    U+03A3, which becomes the final sigma U+03C2 where the condition
    Final_Sigma holds and U+03C3 elsewhere. The sources name no engine; the
    tables below are those of version 14.0 of the database. *)

(** The mapping on the Basic Latin block, where the operators, suffixes and
    field types the code compares against live. A regular expression with
    the flag [i] and without the flag [u] matches a letter of this block
    against the same letter in either case and against no other unit. *)
Definition lowerUnit (c : N) : N := if (0x41 <=? c) && (c <=? 0x5A) then c + 32 else c.

Definition isLeadSurrogate (c : N) : bool := (0xD800 <=? c) && (c <=? 0xDBFF).

Definition isTrailSurrogate (c : N) : bool := (0xDC00 <=? c) && (c <=? 0xDFFF).

(** StringToCodePoints. *)
Fixpoint codePoints (s : jsstring) : list N :=
  match s with
  | [] => []
  | c :: r =>
    match r with
    | d :: r' =>
      if isLeadSurrogate c && isTrailSurrogate d
      then (0x10000 + (c - 0xD800) * 1024 + (d - 0xDC00)) :: codePoints r'
      else c :: codePoints r
    | [] => [c]
    end
  end.

(** The UTF-16 encoding of a code point. *)
Definition codeUnits (cp : N) : jsstring :=
  if (0x10000 <=? cp) && (cp <=? 0x10FFFF)
  then [0xD800 + (cp - 0x10000) / 1024; 0xDC00 + (cp - 0x10000) mod 1024]
  else [cp].

(** The simple lower-case mappings of UnicodeData.txt, as runs: the run
    [(first, last, step, target)] sends [first], [first + step], ... up to
    [last] to [target], [target + step], ... *)
Definition lowerRuns : list (N * N * N * N) :=
  [(0x41, 0x5A, 1, 0x61); (0xC0, 0xD6, 1, 0xE0); (0xD8, 0xDE, 1, 0xF8); (0x100, 0x12E, 2, 0x101);
    (0x132, 0x136, 2, 0x133); (0x139, 0x147, 2, 0x13A); (0x14A, 0x176, 2, 0x14B);
    (0x178, 0x178, 1, 0xFF); (0x179, 0x17D, 2, 0x17A); (0x181, 0x181, 1, 0x253);
    (0x182, 0x184, 2, 0x183); (0x186, 0x186, 1, 0x254); (0x187, 0x187, 1, 0x188);
    (0x189, 0x18A, 1, 0x256); (0x18B, 0x18B, 1, 0x18C); (0x18E, 0x18E, 1, 0x1DD);
    (0x18F, 0x18F, 1, 0x259); (0x190, 0x190, 1, 0x25B); (0x191, 0x191, 1, 0x192);
    (0x193, 0x193, 1, 0x260); (0x194, 0x194, 1, 0x263); (0x196, 0x196, 1, 0x269);
    (0x197, 0x197, 1, 0x268); (0x198, 0x198, 1, 0x199); (0x19C, 0x19C, 1, 0x26F);
    (0x19D, 0x19D, 1, 0x272); (0x19F, 0x19F, 1, 0x275); (0x1A0, 0x1A4, 2, 0x1A1);
    (0x1A6, 0x1A6, 1, 0x280); (0x1A7, 0x1A7, 1, 0x1A8); (0x1A9, 0x1A9, 1, 0x283);
    (0x1AC, 0x1AC, 1, 0x1AD); (0x1AE, 0x1AE, 1, 0x288); (0x1AF, 0x1AF, 1, 0x1B0);
    (0x1B1, 0x1B2, 1, 0x28A); (0x1B3, 0x1B5, 2, 0x1B4); (0x1B7, 0x1B7, 1, 0x292);
    (0x1B8, 0x1B8, 1, 0x1B9); (0x1BC, 0x1BC, 1, 0x1BD); (0x1C4, 0x1C4, 1, 0x1C6);
    (0x1C5, 0x1C5, 1, 0x1C6); (0x1C7, 0x1C7, 1, 0x1C9); (0x1C8, 0x1C8, 1, 0x1C9);
    (0x1CA, 0x1CA, 1, 0x1CC); (0x1CB, 0x1DB, 2, 0x1CC); (0x1DE, 0x1EE, 2, 0x1DF);
    (0x1F1, 0x1F1, 1, 0x1F3); (0x1F2, 0x1F4, 2, 0x1F3); (0x1F6, 0x1F6, 1, 0x195);
    (0x1F7, 0x1F7, 1, 0x1BF); (0x1F8, 0x21E, 2, 0x1F9); (0x220, 0x220, 1, 0x19E);
    (0x222, 0x232, 2, 0x223); (0x23A, 0x23A, 1, 0x2C65); (0x23B, 0x23B, 1, 0x23C);
    (0x23D, 0x23D, 1, 0x19A); (0x23E, 0x23E, 1, 0x2C66); (0x241, 0x241, 1, 0x242);
    (0x243, 0x243, 1, 0x180); (0x244, 0x244, 1, 0x289); (0x245, 0x245, 1, 0x28C);
    (0x246, 0x24E, 2, 0x247); (0x370, 0x372, 2, 0x371); (0x376, 0x376, 1, 0x377);
    (0x37F, 0x37F, 1, 0x3F3); (0x386, 0x386, 1, 0x3AC); (0x388, 0x38A, 1, 0x3AD);
    (0x38C, 0x38C, 1, 0x3CC); (0x38E, 0x38F, 1, 0x3CD); (0x391, 0x3A1, 1, 0x3B1);
    (0x3A3, 0x3AB, 1, 0x3C3); (0x3CF, 0x3CF, 1, 0x3D7); (0x3D8, 0x3EE, 2, 0x3D9);
    (0x3F4, 0x3F4, 1, 0x3B8); (0x3F7, 0x3F7, 1, 0x3F8); (0x3F9, 0x3F9, 1, 0x3F2);
    (0x3FA, 0x3FA, 1, 0x3FB); (0x3FD, 0x3FF, 1, 0x37B); (0x400, 0x40F, 1, 0x450);
    (0x410, 0x42F, 1, 0x430); (0x460, 0x480, 2, 0x461); (0x48A, 0x4BE, 2, 0x48B);
    (0x4C0, 0x4C0, 1, 0x4CF); (0x4C1, 0x4CD, 2, 0x4C2); (0x4D0, 0x52E, 2, 0x4D1);
    (0x531, 0x556, 1, 0x561); (0x10A0, 0x10C5, 1, 0x2D00); (0x10C7, 0x10C7, 1, 0x2D27);
    (0x10CD, 0x10CD, 1, 0x2D2D); (0x13A0, 0x13EF, 1, 0xAB70); (0x13F0, 0x13F5, 1, 0x13F8);
    (0x1C90, 0x1CBA, 1, 0x10D0); (0x1CBD, 0x1CBF, 1, 0x10FD); (0x1E00, 0x1E94, 2, 0x1E01);
    (0x1E9E, 0x1E9E, 1, 0xDF); (0x1EA0, 0x1EFE, 2, 0x1EA1); (0x1F08, 0x1F0F, 1, 0x1F00);
    (0x1F18, 0x1F1D, 1, 0x1F10); (0x1F28, 0x1F2F, 1, 0x1F20); (0x1F38, 0x1F3F, 1, 0x1F30);
    (0x1F48, 0x1F4D, 1, 0x1F40); (0x1F59, 0x1F5F, 2, 0x1F51); (0x1F68, 0x1F6F, 1, 0x1F60);
    (0x1F88, 0x1F8F, 1, 0x1F80); (0x1F98, 0x1F9F, 1, 0x1F90); (0x1FA8, 0x1FAF, 1, 0x1FA0);
    (0x1FB8, 0x1FB9, 1, 0x1FB0); (0x1FBA, 0x1FBB, 1, 0x1F70); (0x1FBC, 0x1FBC, 1, 0x1FB3);
    (0x1FC8, 0x1FCB, 1, 0x1F72); (0x1FCC, 0x1FCC, 1, 0x1FC3); (0x1FD8, 0x1FD9, 1, 0x1FD0);
    (0x1FDA, 0x1FDB, 1, 0x1F76); (0x1FE8, 0x1FE9, 1, 0x1FE0); (0x1FEA, 0x1FEB, 1, 0x1F7A);
    (0x1FEC, 0x1FEC, 1, 0x1FE5); (0x1FF8, 0x1FF9, 1, 0x1F78); (0x1FFA, 0x1FFB, 1, 0x1F7C);
    (0x1FFC, 0x1FFC, 1, 0x1FF3); (0x2126, 0x2126, 1, 0x3C9); (0x212A, 0x212A, 1, 0x6B);
    (0x212B, 0x212B, 1, 0xE5); (0x2132, 0x2132, 1, 0x214E); (0x2160, 0x216F, 1, 0x2170);
    (0x2183, 0x2183, 1, 0x2184); (0x24B6, 0x24CF, 1, 0x24D0); (0x2C00, 0x2C2F, 1, 0x2C30);
    (0x2C60, 0x2C60, 1, 0x2C61); (0x2C62, 0x2C62, 1, 0x26B); (0x2C63, 0x2C63, 1, 0x1D7D);
    (0x2C64, 0x2C64, 1, 0x27D); (0x2C67, 0x2C6B, 2, 0x2C68); (0x2C6D, 0x2C6D, 1, 0x251);
    (0x2C6E, 0x2C6E, 1, 0x271); (0x2C6F, 0x2C6F, 1, 0x250); (0x2C70, 0x2C70, 1, 0x252);
    (0x2C72, 0x2C72, 1, 0x2C73); (0x2C75, 0x2C75, 1, 0x2C76); (0x2C7E, 0x2C7F, 1, 0x23F);
    (0x2C80, 0x2CE2, 2, 0x2C81); (0x2CEB, 0x2CED, 2, 0x2CEC); (0x2CF2, 0x2CF2, 1, 0x2CF3);
    (0xA640, 0xA66C, 2, 0xA641); (0xA680, 0xA69A, 2, 0xA681); (0xA722, 0xA72E, 2, 0xA723);
    (0xA732, 0xA76E, 2, 0xA733); (0xA779, 0xA77B, 2, 0xA77A); (0xA77D, 0xA77D, 1, 0x1D79);
    (0xA77E, 0xA786, 2, 0xA77F); (0xA78B, 0xA78B, 1, 0xA78C); (0xA78D, 0xA78D, 1, 0x265);
    (0xA790, 0xA792, 2, 0xA791); (0xA796, 0xA7A8, 2, 0xA797); (0xA7AA, 0xA7AA, 1, 0x266);
    (0xA7AB, 0xA7AB, 1, 0x25C); (0xA7AC, 0xA7AC, 1, 0x261); (0xA7AD, 0xA7AD, 1, 0x26C);
    (0xA7AE, 0xA7AE, 1, 0x26A); (0xA7B0, 0xA7B0, 1, 0x29E); (0xA7B1, 0xA7B1, 1, 0x287);
    (0xA7B2, 0xA7B2, 1, 0x29D); (0xA7B3, 0xA7B3, 1, 0xAB53); (0xA7B4, 0xA7C2, 2, 0xA7B5);
    (0xA7C4, 0xA7C4, 1, 0xA794); (0xA7C5, 0xA7C5, 1, 0x282); (0xA7C6, 0xA7C6, 1, 0x1D8E);
    (0xA7C7, 0xA7C9, 2, 0xA7C8); (0xA7D0, 0xA7D0, 1, 0xA7D1); (0xA7D6, 0xA7D8, 2, 0xA7D7);
    (0xA7F5, 0xA7F5, 1, 0xA7F6); (0xFF21, 0xFF3A, 1, 0xFF41); (0x10400, 0x10427, 1, 0x10428);
    (0x104B0, 0x104D3, 1, 0x104D8); (0x10570, 0x1057A, 1, 0x10597);
    (0x1057C, 0x1058A, 1, 0x105A3); (0x1058C, 0x10592, 1, 0x105B3);
    (0x10594, 0x10595, 1, 0x105BB); (0x10C80, 0x10CB2, 1, 0x10CC0);
    (0x118A0, 0x118BF, 1, 0x118C0); (0x16E40, 0x16E5F, 1, 0x16E60);
    (0x1E900, 0x1E921, 1, 0x1E922)].

(** The code points with the property Cased (DerivedCoreProperties.txt), as
    closed ranges. *)
Definition casedRanges : list (N * N) :=
  [(0x41, 0x5A); (0x61, 0x7A); (0xAA, 0xAA); (0xB5, 0xB5); (0xBA, 0xBA); (0xC0, 0xD6);
    (0xD8, 0xF6); (0xF8, 0x1BA); (0x1BC, 0x1BF); (0x1C4, 0x293); (0x295, 0x2B8); (0x2C0, 0x2C1);
    (0x2E0, 0x2E4); (0x345, 0x345); (0x370, 0x373); (0x376, 0x377); (0x37A, 0x37D);
    (0x37F, 0x37F); (0x386, 0x386); (0x388, 0x38A); (0x38C, 0x38C); (0x38E, 0x3A1);
    (0x3A3, 0x3F5); (0x3F7, 0x481); (0x48A, 0x52F); (0x531, 0x556); (0x560, 0x588);
    (0x10A0, 0x10C5); (0x10C7, 0x10C7); (0x10CD, 0x10CD); (0x10D0, 0x10FA); (0x10FD, 0x10FF);
    (0x13A0, 0x13F5); (0x13F8, 0x13FD); (0x1C80, 0x1C88); (0x1C90, 0x1CBA); (0x1CBD, 0x1CBF);
    (0x1D00, 0x1DBF); (0x1E00, 0x1F15); (0x1F18, 0x1F1D); (0x1F20, 0x1F45); (0x1F48, 0x1F4D);
    (0x1F50, 0x1F57); (0x1F59, 0x1F59); (0x1F5B, 0x1F5B); (0x1F5D, 0x1F5D); (0x1F5F, 0x1F7D);
    (0x1F80, 0x1FB4); (0x1FB6, 0x1FBC); (0x1FBE, 0x1FBE); (0x1FC2, 0x1FC4); (0x1FC6, 0x1FCC);
    (0x1FD0, 0x1FD3); (0x1FD6, 0x1FDB); (0x1FE0, 0x1FEC); (0x1FF2, 0x1FF4); (0x1FF6, 0x1FFC);
    (0x2071, 0x2071); (0x207F, 0x207F); (0x2090, 0x209C); (0x2102, 0x2102); (0x2107, 0x2107);
    (0x210A, 0x2113); (0x2115, 0x2115); (0x2119, 0x211D); (0x2124, 0x2124); (0x2126, 0x2126);
    (0x2128, 0x2128); (0x212A, 0x212D); (0x212F, 0x2134); (0x2139, 0x2139); (0x213C, 0x213F);
    (0x2145, 0x2149); (0x214E, 0x214E); (0x2160, 0x217F); (0x2183, 0x2184); (0x24B6, 0x24E9);
    (0x2C00, 0x2CE4); (0x2CEB, 0x2CEE); (0x2CF2, 0x2CF3); (0x2D00, 0x2D25); (0x2D27, 0x2D27);
    (0x2D2D, 0x2D2D); (0xA640, 0xA66D); (0xA680, 0xA69D); (0xA722, 0xA787); (0xA78B, 0xA78E);
    (0xA790, 0xA7CA); (0xA7D0, 0xA7D1); (0xA7D3, 0xA7D3); (0xA7D5, 0xA7D9); (0xA7F5, 0xA7F6);
    (0xA7F8, 0xA7FA); (0xAB30, 0xAB5A); (0xAB5C, 0xAB68); (0xAB70, 0xABBF); (0xFB00, 0xFB06);
    (0xFB13, 0xFB17); (0xFF21, 0xFF3A); (0xFF41, 0xFF5A); (0x10400, 0x1044F); (0x104B0, 0x104D3);
    (0x104D8, 0x104FB); (0x10570, 0x1057A); (0x1057C, 0x1058A); (0x1058C, 0x10592);
    (0x10594, 0x10595); (0x10597, 0x105A1); (0x105A3, 0x105B1); (0x105B3, 0x105B9);
    (0x105BB, 0x105BC); (0x10780, 0x10780); (0x10783, 0x10785); (0x10787, 0x107B0);
    (0x107B2, 0x107BA); (0x10C80, 0x10CB2); (0x10CC0, 0x10CF2); (0x118A0, 0x118DF);
    (0x16E40, 0x16E7F); (0x1D400, 0x1D454); (0x1D456, 0x1D49C); (0x1D49E, 0x1D49F);
    (0x1D4A2, 0x1D4A2); (0x1D4A5, 0x1D4A6); (0x1D4A9, 0x1D4AC); (0x1D4AE, 0x1D4B9);
    (0x1D4BB, 0x1D4BB); (0x1D4BD, 0x1D4C3); (0x1D4C5, 0x1D505); (0x1D507, 0x1D50A);
    (0x1D50D, 0x1D514); (0x1D516, 0x1D51C); (0x1D51E, 0x1D539); (0x1D53B, 0x1D53E);
    (0x1D540, 0x1D544); (0x1D546, 0x1D546); (0x1D54A, 0x1D550); (0x1D552, 0x1D6A5);
    (0x1D6A8, 0x1D6C0); (0x1D6C2, 0x1D6DA); (0x1D6DC, 0x1D6FA); (0x1D6FC, 0x1D714);
    (0x1D716, 0x1D734); (0x1D736, 0x1D74E); (0x1D750, 0x1D76E); (0x1D770, 0x1D788);
    (0x1D78A, 0x1D7A8); (0x1D7AA, 0x1D7C2); (0x1D7C4, 0x1D7CB); (0x1DF00, 0x1DF09);
    (0x1DF0B, 0x1DF1E); (0x1E900, 0x1E943); (0x1F130, 0x1F149); (0x1F150, 0x1F169);
    (0x1F170, 0x1F189)].

(** The code points with the property Case_Ignorable, as closed ranges. *)
Definition caseIgnorableRanges : list (N * N) :=
  [(0x27, 0x27); (0x2E, 0x2E); (0x3A, 0x3A); (0x5E, 0x5E); (0x60, 0x60); (0xA8, 0xA8);
    (0xAD, 0xAD); (0xAF, 0xAF); (0xB4, 0xB4); (0xB7, 0xB8); (0x2B0, 0x36F); (0x374, 0x375);
    (0x37A, 0x37A); (0x384, 0x385); (0x387, 0x387); (0x483, 0x489); (0x559, 0x559);
    (0x55F, 0x55F); (0x591, 0x5BD); (0x5BF, 0x5BF); (0x5C1, 0x5C2); (0x5C4, 0x5C5);
    (0x5C7, 0x5C7); (0x5F4, 0x5F4); (0x600, 0x605); (0x610, 0x61A); (0x61C, 0x61C);
    (0x640, 0x640); (0x64B, 0x65F); (0x670, 0x670); (0x6D6, 0x6DD); (0x6DF, 0x6E8);
    (0x6EA, 0x6ED); (0x70F, 0x70F); (0x711, 0x711); (0x730, 0x74A); (0x7A6, 0x7B0);
    (0x7EB, 0x7F5); (0x7FA, 0x7FA); (0x7FD, 0x7FD); (0x816, 0x82D); (0x859, 0x85B);
    (0x888, 0x888); (0x890, 0x891); (0x898, 0x89F); (0x8C9, 0x902); (0x93A, 0x93A);
    (0x93C, 0x93C); (0x941, 0x948); (0x94D, 0x94D); (0x951, 0x957); (0x962, 0x963);
    (0x971, 0x971); (0x981, 0x981); (0x9BC, 0x9BC); (0x9C1, 0x9C4); (0x9CD, 0x9CD);
    (0x9E2, 0x9E3); (0x9FE, 0x9FE); (0xA01, 0xA02); (0xA3C, 0xA3C); (0xA41, 0xA42);
    (0xA47, 0xA48); (0xA4B, 0xA4D); (0xA51, 0xA51); (0xA70, 0xA71); (0xA75, 0xA75);
    (0xA81, 0xA82); (0xABC, 0xABC); (0xAC1, 0xAC5); (0xAC7, 0xAC8); (0xACD, 0xACD);
    (0xAE2, 0xAE3); (0xAFA, 0xAFF); (0xB01, 0xB01); (0xB3C, 0xB3C); (0xB3F, 0xB3F);
    (0xB41, 0xB44); (0xB4D, 0xB4D); (0xB55, 0xB56); (0xB62, 0xB63); (0xB82, 0xB82);
    (0xBC0, 0xBC0); (0xBCD, 0xBCD); (0xC00, 0xC00); (0xC04, 0xC04); (0xC3C, 0xC3C);
    (0xC3E, 0xC40); (0xC46, 0xC48); (0xC4A, 0xC4D); (0xC55, 0xC56); (0xC62, 0xC63);
    (0xC81, 0xC81); (0xCBC, 0xCBC); (0xCBF, 0xCBF); (0xCC6, 0xCC6); (0xCCC, 0xCCD);
    (0xCE2, 0xCE3); (0xD00, 0xD01); (0xD3B, 0xD3C); (0xD41, 0xD44); (0xD4D, 0xD4D);
    (0xD62, 0xD63); (0xD81, 0xD81); (0xDCA, 0xDCA); (0xDD2, 0xDD4); (0xDD6, 0xDD6);
    (0xE31, 0xE31); (0xE34, 0xE3A); (0xE46, 0xE4E); (0xEB1, 0xEB1); (0xEB4, 0xEBC);
    (0xEC6, 0xEC6); (0xEC8, 0xECD); (0xF18, 0xF19); (0xF35, 0xF35); (0xF37, 0xF37);
    (0xF39, 0xF39); (0xF71, 0xF7E); (0xF80, 0xF84); (0xF86, 0xF87); (0xF8D, 0xF97);
    (0xF99, 0xFBC); (0xFC6, 0xFC6); (0x102D, 0x1030); (0x1032, 0x1037); (0x1039, 0x103A);
    (0x103D, 0x103E); (0x1058, 0x1059); (0x105E, 0x1060); (0x1071, 0x1074); (0x1082, 0x1082);
    (0x1085, 0x1086); (0x108D, 0x108D); (0x109D, 0x109D); (0x10FC, 0x10FC); (0x135D, 0x135F);
    (0x1712, 0x1714); (0x1732, 0x1733); (0x1752, 0x1753); (0x1772, 0x1773); (0x17B4, 0x17B5);
    (0x17B7, 0x17BD); (0x17C6, 0x17C6); (0x17C9, 0x17D3); (0x17D7, 0x17D7); (0x17DD, 0x17DD);
    (0x180B, 0x180F); (0x1843, 0x1843); (0x1885, 0x1886); (0x18A9, 0x18A9); (0x1920, 0x1922);
    (0x1927, 0x1928); (0x1932, 0x1932); (0x1939, 0x193B); (0x1A17, 0x1A18); (0x1A1B, 0x1A1B);
    (0x1A56, 0x1A56); (0x1A58, 0x1A5E); (0x1A60, 0x1A60); (0x1A62, 0x1A62); (0x1A65, 0x1A6C);
    (0x1A73, 0x1A7C); (0x1A7F, 0x1A7F); (0x1AA7, 0x1AA7); (0x1AB0, 0x1ACE); (0x1B00, 0x1B03);
    (0x1B34, 0x1B34); (0x1B36, 0x1B3A); (0x1B3C, 0x1B3C); (0x1B42, 0x1B42); (0x1B6B, 0x1B73);
    (0x1B80, 0x1B81); (0x1BA2, 0x1BA5); (0x1BA8, 0x1BA9); (0x1BAB, 0x1BAD); (0x1BE6, 0x1BE6);
    (0x1BE8, 0x1BE9); (0x1BED, 0x1BED); (0x1BEF, 0x1BF1); (0x1C2C, 0x1C33); (0x1C36, 0x1C37);
    (0x1C78, 0x1C7D); (0x1CD0, 0x1CD2); (0x1CD4, 0x1CE0); (0x1CE2, 0x1CE8); (0x1CED, 0x1CED);
    (0x1CF4, 0x1CF4); (0x1CF8, 0x1CF9); (0x1D2C, 0x1D6A); (0x1D78, 0x1D78); (0x1D9B, 0x1DFF);
    (0x1FBD, 0x1FBD); (0x1FBF, 0x1FC1); (0x1FCD, 0x1FCF); (0x1FDD, 0x1FDF); (0x1FED, 0x1FEF);
    (0x1FFD, 0x1FFE); (0x200B, 0x200F); (0x2018, 0x2019); (0x2024, 0x2024); (0x2027, 0x2027);
    (0x202A, 0x202E); (0x2060, 0x2064); (0x2066, 0x206F); (0x2071, 0x2071); (0x207F, 0x207F);
    (0x2090, 0x209C); (0x20D0, 0x20F0); (0x2C7C, 0x2C7D); (0x2CEF, 0x2CF1); (0x2D6F, 0x2D6F);
    (0x2D7F, 0x2D7F); (0x2DE0, 0x2DFF); (0x2E2F, 0x2E2F); (0x3005, 0x3005); (0x302A, 0x302D);
    (0x3031, 0x3035); (0x303B, 0x303B); (0x3099, 0x309E); (0x30FC, 0x30FE); (0xA015, 0xA015);
    (0xA4F8, 0xA4FD); (0xA60C, 0xA60C); (0xA66F, 0xA672); (0xA674, 0xA67D); (0xA67F, 0xA67F);
    (0xA69C, 0xA69F); (0xA6F0, 0xA6F1); (0xA700, 0xA721); (0xA770, 0xA770); (0xA788, 0xA78A);
    (0xA7F2, 0xA7F4); (0xA7F8, 0xA7F9); (0xA802, 0xA802); (0xA806, 0xA806); (0xA80B, 0xA80B);
    (0xA825, 0xA826); (0xA82C, 0xA82C); (0xA8C4, 0xA8C5); (0xA8E0, 0xA8F1); (0xA8FF, 0xA8FF);
    (0xA926, 0xA92D); (0xA947, 0xA951); (0xA980, 0xA982); (0xA9B3, 0xA9B3); (0xA9B6, 0xA9B9);
    (0xA9BC, 0xA9BD); (0xA9CF, 0xA9CF); (0xA9E5, 0xA9E6); (0xAA29, 0xAA2E); (0xAA31, 0xAA32);
    (0xAA35, 0xAA36); (0xAA43, 0xAA43); (0xAA4C, 0xAA4C); (0xAA70, 0xAA70); (0xAA7C, 0xAA7C);
    (0xAAB0, 0xAAB0); (0xAAB2, 0xAAB4); (0xAAB7, 0xAAB8); (0xAABE, 0xAABF); (0xAAC1, 0xAAC1);
    (0xAADD, 0xAADD); (0xAAEC, 0xAAED); (0xAAF3, 0xAAF4); (0xAAF6, 0xAAF6); (0xAB5B, 0xAB5F);
    (0xAB69, 0xAB6B); (0xABE5, 0xABE5); (0xABE8, 0xABE8); (0xABED, 0xABED); (0xFB1E, 0xFB1E);
    (0xFBB2, 0xFBC2); (0xFE00, 0xFE0F); (0xFE13, 0xFE13); (0xFE20, 0xFE2F); (0xFE52, 0xFE52);
    (0xFE55, 0xFE55); (0xFEFF, 0xFEFF); (0xFF07, 0xFF07); (0xFF0E, 0xFF0E); (0xFF1A, 0xFF1A);
    (0xFF3E, 0xFF3E); (0xFF40, 0xFF40); (0xFF70, 0xFF70); (0xFF9E, 0xFF9F); (0xFFE3, 0xFFE3);
    (0xFFF9, 0xFFFB); (0x101FD, 0x101FD); (0x102E0, 0x102E0); (0x10376, 0x1037A);
    (0x10780, 0x10785); (0x10787, 0x107B0); (0x107B2, 0x107BA); (0x10A01, 0x10A03);
    (0x10A05, 0x10A06); (0x10A0C, 0x10A0F); (0x10A38, 0x10A3A); (0x10A3F, 0x10A3F);
    (0x10AE5, 0x10AE6); (0x10D24, 0x10D27); (0x10EAB, 0x10EAC); (0x10F46, 0x10F50);
    (0x10F82, 0x10F85); (0x11001, 0x11001); (0x11038, 0x11046); (0x11070, 0x11070);
    (0x11073, 0x11074); (0x1107F, 0x11081); (0x110B3, 0x110B6); (0x110B9, 0x110BA);
    (0x110BD, 0x110BD); (0x110C2, 0x110C2); (0x110CD, 0x110CD); (0x11100, 0x11102);
    (0x11127, 0x1112B); (0x1112D, 0x11134); (0x11173, 0x11173); (0x11180, 0x11181);
    (0x111B6, 0x111BE); (0x111C9, 0x111CC); (0x111CF, 0x111CF); (0x1122F, 0x11231);
    (0x11234, 0x11234); (0x11236, 0x11237); (0x1123E, 0x1123E); (0x112DF, 0x112DF);
    (0x112E3, 0x112EA); (0x11300, 0x11301); (0x1133B, 0x1133C); (0x11340, 0x11340);
    (0x11366, 0x1136C); (0x11370, 0x11374); (0x11438, 0x1143F); (0x11442, 0x11444);
    (0x11446, 0x11446); (0x1145E, 0x1145E); (0x114B3, 0x114B8); (0x114BA, 0x114BA);
    (0x114BF, 0x114C0); (0x114C2, 0x114C3); (0x115B2, 0x115B5); (0x115BC, 0x115BD);
    (0x115BF, 0x115C0); (0x115DC, 0x115DD); (0x11633, 0x1163A); (0x1163D, 0x1163D);
    (0x1163F, 0x11640); (0x116AB, 0x116AB); (0x116AD, 0x116AD); (0x116B0, 0x116B5);
    (0x116B7, 0x116B7); (0x1171D, 0x1171F); (0x11722, 0x11725); (0x11727, 0x1172B);
    (0x1182F, 0x11837); (0x11839, 0x1183A); (0x1193B, 0x1193C); (0x1193E, 0x1193E);
    (0x11943, 0x11943); (0x119D4, 0x119D7); (0x119DA, 0x119DB); (0x119E0, 0x119E0);
    (0x11A01, 0x11A0A); (0x11A33, 0x11A38); (0x11A3B, 0x11A3E); (0x11A47, 0x11A47);
    (0x11A51, 0x11A56); (0x11A59, 0x11A5B); (0x11A8A, 0x11A96); (0x11A98, 0x11A99);
    (0x11C30, 0x11C36); (0x11C38, 0x11C3D); (0x11C3F, 0x11C3F); (0x11C92, 0x11CA7);
    (0x11CAA, 0x11CB0); (0x11CB2, 0x11CB3); (0x11CB5, 0x11CB6); (0x11D31, 0x11D36);
    (0x11D3A, 0x11D3A); (0x11D3C, 0x11D3D); (0x11D3F, 0x11D45); (0x11D47, 0x11D47);
    (0x11D90, 0x11D91); (0x11D95, 0x11D95); (0x11D97, 0x11D97); (0x11EF3, 0x11EF4);
    (0x13430, 0x13438); (0x16AF0, 0x16AF4); (0x16B30, 0x16B36); (0x16B40, 0x16B43);
    (0x16F4F, 0x16F4F); (0x16F8F, 0x16F9F); (0x16FE0, 0x16FE1); (0x16FE3, 0x16FE4);
    (0x1AFF0, 0x1AFF3); (0x1AFF5, 0x1AFFB); (0x1AFFD, 0x1AFFE); (0x1BC9D, 0x1BC9E);
    (0x1BCA0, 0x1BCA3); (0x1CF00, 0x1CF2D); (0x1CF30, 0x1CF46); (0x1D167, 0x1D169);
    (0x1D173, 0x1D182); (0x1D185, 0x1D18B); (0x1D1AA, 0x1D1AD); (0x1D242, 0x1D244);
    (0x1DA00, 0x1DA36); (0x1DA3B, 0x1DA6C); (0x1DA75, 0x1DA75); (0x1DA84, 0x1DA84);
    (0x1DA9B, 0x1DA9F); (0x1DAA1, 0x1DAAF); (0x1E000, 0x1E006); (0x1E008, 0x1E018);
    (0x1E01B, 0x1E021); (0x1E023, 0x1E024); (0x1E026, 0x1E02A); (0x1E130, 0x1E13D);
    (0x1E2AE, 0x1E2AE); (0x1E2EC, 0x1E2EF); (0x1E8D0, 0x1E8D6); (0x1E944, 0x1E94B);
    (0x1F3FB, 0x1F3FF); (0xE0001, 0xE0001); (0xE0020, 0xE007F); (0xE0100, 0xE01EF)].

Definition inRanges (ranges : list (N * N)) (cp : N) : bool :=
  existsb (fun '(first, last) => (first <=? cp) && (cp <=? last)) ranges.

Definition cased (cp : N) : bool := inRanges casedRanges cp.

Definition caseIgnorable (cp : N) : bool := inRanges caseIgnorableRanges cp.

Definition inRun (cp : N) (run : N * N * N * N) : bool :=
  let '(first, last, step, _) := run in
  (first <=? cp) && (cp <=? last) && ((cp - first) mod step =? 0).

Definition simpleLower (cp : N) : N :=
  match List.find (inRun cp) lowerRuns with
  | Some (first, _, _, target) => target + (cp - first)
  | None => cp
  end.

(** The second half of Final_Sigma: what follows the sigma is a cased letter,
    after any number of case-ignorable code points. A code point that is both
    cased and case-ignorable is passed over, as the engines do. *)
Fixpoint casedAhead (rest : list N) : bool :=
  match rest with
  | [] => false
  | cp :: rest' => if caseIgnorable cp then casedAhead rest' else cased cp
  end.

(** The mapping of one code point, with [rest] after it; [casedBehind] is the
    first half of Final_Sigma: the last code point before it that is not
    case-ignorable is a cased letter. *)
Definition lowerPoint (casedBehind : bool) (cp : N) (rest : list N) : list N :=
  if cp =? 0x3A3 then [if casedBehind && negb (casedAhead rest) then 0x3C2 else 0x3C3]
  else if cp =? 0x130 then [0x69; 0x307]
  else [simpleLower cp].

Fixpoint lowerPoints (casedBehind : bool) (cps : list N) : list N :=
  match cps with
  | [] => []
  | cp :: rest =>
    lowerPoint casedBehind cp rest
    ++ lowerPoints (if caseIgnorable cp then casedBehind else cased cp) rest
  end.

Definition toLowerCase (s : jsstring) : jsstring :=
  flat_map codeUnits (lowerPoints false (codePoints s)).
Arguments toLowerCase : simpl never.

(** [s.endsWith(c)] for a one-unit [c], and [s.slice(0, -1)]. *)
Definition endsWith (s : jsstring) (c : N) : bool :=
  match last s with Some d => d =? c | None => false end.

Definition dropLast (s : jsstring) : jsstring := removelast s.

(** [s.split(sep)] for a one-unit separator. *)
Fixpoint split (sep : N) (s : jsstring) : list jsstring :=
  match s with
  | [] => [[]]
  | c :: r =>
    if c =? sep then [] :: split sep r
    else match split sep r with
         | piece :: pieces => (c :: piece) :: pieces
         | [] => [[c]]
         end
  end.

(** [arr.join(sep)]. *)
Fixpoint join (sep : jsstring) (parts : list jsstring) : jsstring :=
  match parts with
  | [] => []
  | [p] => p
  | p :: rest => p ++ sep ++ join sep rest
  end.

(** *** Numbers

    A Number is an IEEE 754 binary64 value; the finite ones are kept as the
    rational they denote, in lowest terms (the sign of zero is not kept). *)
Inductive number :=
| NaN
| PosInfinity
| NegInfinity
| Finite (q : Q).

(** Nearest integer to [n / d], ties to even, for [0 <= n] and [0 < d]. *)
Definition roundHalfEven (n d : Z) : Z :=
  let q := (n / d)%Z in
  match (2 * (n mod d) ?= d)%Z with
  | Lt => q
  | Gt => (q + 1)%Z
  | Eq => if Z.even q then q else (q + 1)%Z
  end.

(** Rounding of a positive rational [n / d] to binary64, round-to-nearest-even:
    [e] is the exponent of the leading bit, [p] the exponent of the last place
    (53 significant bits, least exponent -1074), [m] the integral significand. *)
Definition roundPositive (n d : Z) : number :=
  let e0 := (Z.log2 n - Z.log2 d)%Z in
  let reaches := if (0 <=? e0)%Z then (d * 2 ^ e0 <=? n)%Z else (d <=? n * 2 ^ (- e0))%Z in
  let e := if reaches then e0 else (e0 - 1)%Z in
  let p := Z.max (e - 52) (-1074) in
  let m := if (0 <=? p)%Z then roundHalfEven n (d * 2 ^ p) else roundHalfEven (n * 2 ^ (- p)) d in
  if (0 <=? p)%Z then
    if (2 ^ 1024 <=? m * 2 ^ p)%Z then PosInfinity else Finite (inject_Z (m * 2 ^ p))
  else Finite (Qred (m # Z.to_pos (2 ^ (- p)))).

Definition negate (x : number) : number :=
  match x with
  | NaN => NaN
  | PosInfinity => NegInfinity
  | NegInfinity => PosInfinity
  | Finite q => Finite (Qred (- q))
  end.

Definition toDouble (q : Q) : number :=
  match Qnum q with
  | Z0 => Finite 0
  | Zpos n => roundPositive (Zpos n) (Zpos (Qden q))
  | Zneg n => negate (roundPositive (Zpos n) (Zpos (Qden q)))
  end.

Definition isZero (x : number) : bool :=
  match x with Finite q => (Qnum q =? 0)%Z | _ => false end.

Definition isNegative (x : number) : bool :=
  match x with Finite q => (Qnum q <? 0)%Z | NegInfinity => true | _ => false end.

(** [x * y]. *)
Definition mul (x y : number) : number :=
  match x, y with
  | NaN, _ | _, NaN => NaN
  | Finite a, Finite b => toDouble (a * b)
  | _, _ =>
    if isZero x || isZero y then NaN
    else if xorb (isNegative x) (isNegative y) then NegInfinity else PosInfinity
  end.

(** [Number.isFinite]. *)
Definition isFinite (x : number) : bool :=
  match x with Finite _ => true | _ => false end.

Definition ofZ (z : Z) : number := toDouble (inject_Z z).

(** The value of an ASCII digit, and of a run of digits read in base ten. *)
Definition digitValue (c : N) : Z := (Z.of_N c - 48)%Z.

Definition digitsValue (s : jsstring) : Z :=
  fold_left (fun acc c => (10 * acc + digitValue c)%Z) s 0%Z.

Fixpoint spanDigits (s : jsstring) : jsstring * jsstring :=
  match s with
  | c :: r => if isDigit c then let (ds, rest) := spanDigits r in (c :: ds, rest) else ([], s)
  | [] => ([], [])
  end.

(** [Number(s)], that is StringToNumber, on a string made of ASCII digits and
    full stops, which is all that [toNum] hands to it: digits with an optional
    fraction, or a fraction alone; anything else (two full stops, a lone full
    stop) is NaN and the empty string is 0. *)
Definition StringToNumber (s : jsstring) : number :=
  let (ip, rest) := spanDigits s in
  match rest with
  | [] => ofZ (digitsValue ip)
  | 0x2E :: fp =>
    if forallb isDigit fp && negb (bool_decide (ip = []) && bool_decide (fp = [])) then
      toDouble (digitsValue (ip ++ fp) # Z.to_pos (10 ^ Z.of_nat (length fp)))
    else NaN
  | _ => NaN
  end.

(** *** Dynamic values

    The values a filter can carry: [undefined], [null], booleans, numbers,
    strings and arrays. *)
#[warnings="-register-all"]
Inductive jsvalue :=
| VUndefined
| VNull
| VBool (b : bool)
| VNumber (n : number)
| VString (s : jsstring)
| VArray (items : list jsvalue).

(** ToBoolean: what [if (v)], [!v] and [v ? a : b] test. *)
Definition truthy (v : jsvalue) : bool :=
  match v with
  | VUndefined | VNull => false
  | VBool b => b
  | VNumber NaN => false
  | VNumber n => negb (isZero n)
  | VString s => negb (bool_decide (s = []))
  | VArray _ => true
  end.

(** [v == null]: true of [null] and of [undefined]. *)
Definition isNullish (v : jsvalue) : bool :=
  match v with VUndefined | VNull => true | _ => false end.

(** [v === null || v === undefined || v === '']. *)
Definition isBlank (v : jsvalue) : bool :=
  match v with
  | VUndefined | VNull => true
  | VString s => bool_decide (s = [])
  | _ => false
  end.

(** *** Exceptions *)
Inductive error := SyntaxError | TypeError.

Inductive result (A : Type) :=
| Return (a : A)
| Throw (e : error).
Arguments Return {A} a.
Arguments Throw {A} e.

Definition bind {A B} (r : result A) (k : A -> result B) : result B :=
  match r with
  | Return a => k a
  | Throw e => Throw e
  end.

(** [arr.map(f)] for an [f] that may throw: the first exception ends the loop. *)
Fixpoint mapM {A B} (f : A -> result B) (l : list A) : result (list B) :=
  match l with
  | [] => Return []
  | a :: r => bind (f a) (fun b => bind (mapM f r) (fun bs => Return (b :: bs)))
  end.

(** *** [JSON.parse]

    The JSON grammar of ECMA-404, read in two passes that both run over their
    input once: a lexer from code units to tokens and a stack machine from
    tokens to a value. A number keeps its lexeme. A text outside the grammar
    makes [JSON.parse] throw a SyntaxError. *)
#[warnings="-register-all"]
Inductive json :=
| JNull
| JBool (b : bool)
| JNumber (lexeme : jsstring)
| JString (s : jsstring)
| JArray (items : list json)
| JObject (members : list (jsstring * json)).

Inductive token :=
| TLBracket | TRBracket | TLBrace | TRBrace | TComma | TColon
| TScalar (j : json).

(** The lexer state: between tokens, inside a string (after a backslash,
    inside a [\u] escape), inside a number, inside a literal name. *)
Inductive lexState :=
| LIdle
| LString (acc : jsstring)
| LEscape (acc : jsstring)
| LUnicode (acc : jsstring) (hex : list N)
| LNumber (acc : jsstring)
| LName (rest : jsstring) (j : json)
| LFail.

Definition hexValue (c : N) : option N :=
  if isDigit c then Some (c - 0x30)
  else if (0x41 <=? c) && (c <=? 0x46) then Some (c - 0x41 + 10)
  else if (0x61 <=? c) && (c <=? 0x66) then Some (c - 0x61 + 10)
  else None.

(** The units a number lexeme is made of: digits, sign, point, exponent mark. *)
Definition isNumberUnit (c : N) : bool :=
  isDigit c || (c =? 0x2D) || (c =? 0x2B) || (c =? 0x2E) || (c =? 0x65) || (c =? 0x45).

(** The number grammar: an optional minus sign; a zero, or a digit other than
    zero followed by any digits; optionally a point and one or more digits;
    optionally an exponent mark, an optional sign and one or more digits. *)
Definition allDigits1 (s : jsstring) : bool :=
  negb (bool_decide (s = [])) && forallb isDigit s.

Definition validExponent (s : jsstring) : bool :=
  match s with
  | [] => true
  | e :: r =>
    ((e =? 0x65) || (e =? 0x45)) &&
    match r with
    | sgn :: r' => if (sgn =? 0x2B) || (sgn =? 0x2D) then allDigits1 r' else allDigits1 r
    | [] => false
    end
  end.

Definition validFraction (s : jsstring) : bool :=
  match s with
  | 0x2E :: r => let (ds, rest) := spanDigits r in
                 negb (bool_decide (ds = [])) && validExponent rest
  | _ => validExponent s
  end.

Definition validNumber (s : jsstring) : bool :=
  let s := match s with 0x2D :: r => r | _ => s end in
  match s with
  | 0x30 :: r => validFraction r
  | c :: r => isDigit c && (let (_, rest) := spanDigits r in validFraction rest)
  | [] => false
  end.

(** The JSON white space: space, tab, line feed, carriage return. *)
Definition isJsonSpace (c : N) : bool :=
  (c =? 0x20) || (c =? 0x09) || (c =? 0x0A) || (c =? 0x0D).

Definition lexIdle (toks : list token) (c : N) : list token * lexState :=
  if isJsonSpace c then (toks, LIdle)
  else if c =? 0x5B then (toks ++ [TLBracket], LIdle)
  else if c =? 0x5D then (toks ++ [TRBracket], LIdle)
  else if c =? 0x7B then (toks ++ [TLBrace], LIdle)
  else if c =? 0x7D then (toks ++ [TRBrace], LIdle)
  else if c =? 0x2C then (toks ++ [TComma], LIdle)
  else if c =? 0x3A then (toks ++ [TColon], LIdle)
  else if c =? 0x22 then (toks, LString [])
  else if isDigit c || (c =? 0x2D) then (toks, LNumber [c])
  else if c =? 0x74 then (toks, LName (js "rue") (JBool true))
  else if c =? 0x66 then (toks, LName (js "alse") (JBool false))
  else if c =? 0x6E then (toks, LName (js "ull") JNull)
  else (toks, LFail).

Definition lexEscape (acc : jsstring) (c : N) : lexState :=
  if (c =? 0x22) || (c =? 0x5C) || (c =? 0x2F) then LString (acc ++ [c])
  else if c =? 0x62 then LString (acc ++ [0x08])
  else if c =? 0x66 then LString (acc ++ [0x0C])
  else if c =? 0x6E then LString (acc ++ [0x0A])
  else if c =? 0x72 then LString (acc ++ [0x0D])
  else if c =? 0x74 then LString (acc ++ [0x09])
  else if c =? 0x75 then LUnicode acc []
  else LFail.

Definition lexStep (st : list token * lexState) (c : N) : list token * lexState :=
  let (toks, l) := st in
  match l with
  | LIdle => lexIdle toks c
  | LString acc =>
    if c =? 0x22 then (toks ++ [TScalar (JString acc)], LIdle)
    else if c =? 0x5C then (toks, LEscape acc)
    else if c <? 0x20 then (toks, LFail)
    else (toks, LString (acc ++ [c]))
  | LEscape acc => (toks, lexEscape acc c)
  | LUnicode acc hex =>
    match hexValue c with
    | None => (toks, LFail)
    | Some h =>
      match hex with
      | [h1; h2; h3] => (toks, LString (acc ++ [((h1 * 16 + h2) * 16 + h3) * 16 + h]))
      | _ => (toks, LUnicode acc (hex ++ [h]))
      end
    end
  | LNumber acc =>
    if isNumberUnit c then (toks, LNumber (acc ++ [c]))
    else if validNumber acc then lexIdle (toks ++ [TScalar (JNumber acc)]) c
    else (toks, LFail)
  | LName rest j =>
    match rest with
    | [d] => if c =? d then (toks ++ [TScalar j], LIdle) else (toks, LFail)
    | d :: rest' => if c =? d then (toks, LName rest' j) else (toks, LFail)
    | [] => (toks, LFail)
    end
  | LFail => (toks, LFail)
  end.

(** The tokens of a text, or [None] when it has a lexical error. *)
Definition lex (s : jsstring) : option (list token) :=
  match fold_left lexStep s ([], LIdle) with
  | (toks, LIdle) => Some toks
  | (toks, LNumber acc) => if validNumber acc then Some (toks ++ [TScalar (JNumber acc)]) else None
  | _ => None
  end.

(** A frame of the parser stack: an array or an object under construction,
    with what may come next. *)
Inductive frame :=
| ArrOpen                                            (* after [: a value or ] *)
| ArrNext (items : list json)                        (* after a comma: a value *)
| ArrItem (items : list json)                        (* after a value: a comma or ] *)
| ObjOpen                                            (* after {: a key or } *)
| ObjNext (members : list (jsstring * json))         (* after a comma: a key *)
| ObjKey (members : list (jsstring * json)) (k : jsstring)      (* after a key: a colon *)
| ObjColon (members : list (jsstring * json)) (k : jsstring)    (* after the colon: a value *)
| ObjItem (members : list (jsstring * json)).        (* after a value: a comma or } *)

Inductive parseState :=
| PStart
| PStack (top : frame) (below : list frame)
| PDone (j : json)
| PError.

(** A finished value meets the frame that waits for it. *)
Definition feed (v : json) (stack : list frame) : parseState :=
  match stack with
  | [] => PDone v
  | ArrOpen :: below => PStack (ArrItem [v]) below
  | ArrNext items :: below => PStack (ArrItem (items ++ [v])) below
  | ObjColon members k :: below => PStack (ObjItem (members ++ [(k, v)])) below
  | _ => PError
  end.

Definition expectsValue (f : frame) : bool :=
  match f with ArrOpen | ArrNext _ | ObjColon _ _ => true | _ => false end.

Definition parseStep (p : parseState) (t : token) : parseState :=
  match p, t with
  | PStart, TScalar v => PDone v
  | PStart, TLBracket => PStack ArrOpen []
  | PStart, TLBrace => PStack ObjOpen []
  | PStack ObjOpen below, TScalar (JString k) => PStack (ObjKey [] k) below
  | PStack (ObjNext members) below, TScalar (JString k) => PStack (ObjKey members k) below
  | PStack top below, TScalar v => feed v (top :: below)
  | PStack top below, TLBracket =>
    if expectsValue top then PStack ArrOpen (top :: below) else PError
  | PStack top below, TLBrace =>
    if expectsValue top then PStack ObjOpen (top :: below) else PError
  | PStack ArrOpen below, TRBracket => feed (JArray []) below
  | PStack (ArrItem items) below, TRBracket => feed (JArray items) below
  | PStack ObjOpen below, TRBrace => feed (JObject []) below
  | PStack (ObjItem members) below, TRBrace => feed (JObject members) below
  | PStack (ArrItem items) below, TComma => PStack (ArrNext items) below
  | PStack (ObjItem members) below, TComma => PStack (ObjNext members) below
  | PStack (ObjKey members k) below, TColon => PStack (ObjColon members k) below
  | _, _ => PError
  end.

Definition JSON_parse (text : jsstring) : result json :=
  match lex text with
  | None => Throw SyntaxError
  | Some toks =>
    match fold_left parseStep toks PStart with
    | PDone j => Return j
    | _ => Throw SyntaxError
    end
  end.

End JS.

(** ** The Leads page: [frontend/src/pages/Leads.vue] *)
Module Leads.
Import JS.

(** *** Data *)

(** A filter condition as the page builds it: [{ fieldname, operator, value }]. *)
Record filter := {
  fieldname : jsstring;
  operator : jsstring;
  value : jsvalue
}.

(** An element of a filter array as the page receives it: [null]/[undefined],
    an object whose [fieldname] and [operator] are strings when present
    ([None]: the property is missing), or a wire tuple given as an array
    [[doctype, fieldname, operator, value]] ([None]: the array stops before
    index 3). *)
Inductive entry :=
| ENull
| EObject (fieldname operator : option jsstring) (value : option jsvalue)
| ETuple (doctype fieldname operator : jsstring) (value : option jsvalue).

Definition entryOf (f : filter) : entry :=
  EObject (Some (fieldname f)) (Some (operator f)) (Some (value f)).

(** A tuple of the remote query grammar: [[doctype, fieldname, operator, value]]. *)
Definition wire : Type := jsstring * jsstring * jsstring * jsvalue.

Definition DOC : jsstring := js "CRM Lead".

(** A field of the CRM Lead doctype, as [getLeadFields()] lists them; a missing
    [fieldtype] or [options] reads as the empty string, as under [|| '']. *)
Record DocField := {
  df_fieldname : jsstring;
  df_fieldtype : jsstring;
  df_options : jsstring
}.

(** An entry of a picker catalog, an option of a select: [{ label, value, color? }]. *)
Record CatalogEntry := {
  opt_label : jsstring;
  opt_value : jsstring;
  opt_color : option jsstring
}.

(** The reactive [ui] record shared by the quick filter bar and the drawer.
    Each property holds a string; [None] stands for [null] and for a property
    not set yet, which the code does not tell apart: it reads them through
    [|| ''], [?? ''] or a truth test. *)
Record Ui := {
  ui_search : option jsstring;
  ui_status : option jsstring;
  ui_stage : option jsstring;
  ui_project : option jsstring;
  ui_owner : option jsstring;
  ui_priority : option jsstring;
  ui_follow_up : option jsstring;
  ui_last_contacted_from : option jsstring;
  ui_last_contacted_to : option jsstring;
  ui_location : option jsstring;
  ui_space_min : option jsstring;
  ui_space_max : option jsstring;
  ui_budget_min : option jsstring;
  ui_budget_max : option jsstring;
  ui_lead_source : option jsstring;
  ui_lead_origin : option jsstring;
  ui_lead_type : option jsstring
}.

(** [if (x)] on a string-or-null property. *)
Definition present (x : option jsstring) : bool :=
  match x with Some (_ :: _) => true | _ => false end.

(** [x || ''] on a string-or-null property. *)
Definition orEmpty (x : option jsstring) : jsstring := from_option id [] x.

(** *** The list controller

    Modelled from the spec: [ViewControls.vue], whose exposed handle the page
    keeps in [viewControls], is not among the sources. The page tests each
    method with [typeof ... === 'function'] before calling it, so the handle
    records which methods exist. Every call is logged in [vc_calls], with its
    arguments. [vc_filters] is the filter set installed by the last replacing
    push: [setFilters], [applyFilter] with [replace: true] and [clearFilters]
    replace the active set (spec section 4.3, "always replaces the full active
    filter set", and the comments at the call sites, "setFilters always
    replaces filters", "Empty array with replace will clear all filters").
    What [applyLikeFilter], [clearLikeFilters] and a push with [replace: false]
    do to the parameters of the list is stated neither by the spec, which
    leaves the combination of like filters open (section 9), nor by the
    sources: these calls are logged and leave [vc_filters] as it is. The
    methods are taken not to throw. *)
Inductive vcCall :=
| SetFilters (tuples : list wire)
| ApplyFilter (tuples : list wire) (replace : bool)
| ApplyLikeFilter (payload : filter)
| ClearFilters
| ClearLikeFilters
| Reload.

Record ViewControls := {
  has_setFilters : bool;
  has_applyFilter : bool;
  has_applyLikeFilter : bool;
  has_clearFilters : bool;
  has_clearLikeFilters : bool;
  has_reload : bool;
  vc_filters : list wire;
  vc_calls : list vcCall
}.

Definition vcWith (vc : ViewControls) (filters : list wire) (call : vcCall) : ViewControls :=
  {| has_setFilters := has_setFilters vc;
     has_applyFilter := has_applyFilter vc;
     has_applyLikeFilter := has_applyLikeFilter vc;
     has_clearFilters := has_clearFilters vc;
     has_clearLikeFilters := has_clearLikeFilters vc;
     has_reload := has_reload vc;
     vc_filters := filters;
     vc_calls := vc_calls vc ++ [call] |}.

Definition vc_setFilters (tuples : list wire) (vc : ViewControls) : ViewControls :=
  vcWith vc tuples (SetFilters tuples).

Definition vc_applyFilter (tuples : list wire) (replace : bool) (vc : ViewControls) : ViewControls :=
  vcWith vc (if replace then tuples else vc_filters vc) (ApplyFilter tuples replace).

Definition vc_applyLikeFilter (payload : filter) (vc : ViewControls) : ViewControls :=
  vcWith vc (vc_filters vc) (ApplyLikeFilter payload).

Definition vc_clearFilters (vc : ViewControls) : ViewControls :=
  vcWith vc [] ClearFilters.

Definition vc_clearLikeFilters (vc : ViewControls) : ViewControls :=
  vcWith vc (vc_filters vc) ClearLikeFilters.

Definition vc_reload (vc : ViewControls) : ViewControls :=
  vcWith vc (vc_filters vc) Reload.

(** [vc.reload?.()]. *)
Definition vc_reload_opt (vc : ViewControls) : ViewControls :=
  if has_reload vc then vc_reload vc else vc.

(** *** Page state: the refs the filter functions read and write *)
Record Page := {
  viewControls : option ViewControls;
  loadMore : Z;
  updatedPageCount : Z;
  ui : Ui;
  showLeadModal : bool;
  showFilters : bool
}.

Definition withViewControls (st : Page) (vc : ViewControls) : Page :=
  {| viewControls := Some vc; loadMore := loadMore st;
     updatedPageCount := updatedPageCount st; ui := ui st;
     showLeadModal := showLeadModal st; showFilters := showFilters st |}.

Definition withPagination (st : Page) (more count : Z) : Page :=
  {| viewControls := viewControls st; loadMore := more;
     updatedPageCount := count; ui := ui st;
     showLeadModal := showLeadModal st; showFilters := showFilters st |}.

Definition withUi (st : Page) (u : Ui) : Page :=
  {| viewControls := viewControls st; loadMore := loadMore st;
     updatedPageCount := updatedPageCount st; ui := u;
     showLeadModal := showLeadModal st; showFilters := showFilters st |}.

Definition withLeadModal (st : Page) (b : bool) : Page :=
  {| viewControls := viewControls st; loadMore := loadMore st;
     updatedPageCount := updatedPageCount st; ui := ui st;
     showLeadModal := b; showFilters := showFilters st |}.

Definition withShowFilters (st : Page) (b : bool) : Page :=
  {| viewControls := viewControls st; loadMore := loadMore st;
     updatedPageCount := updatedPageCount st; ui := ui st;
     showLeadModal := showLeadModal st; showFilters := b |}.

(** [if (c) F.push(f)]. *)
Definition pushIf {A} (c : bool) (f : A) (F : list A) : list A :=
  if c then F ++ [f] else F.

(** *** Meta helpers *)
Section Meta.

(** [getLeadFields() || []]: the field list of the CRM Lead doctype, from the
    meta store. *)
Variable getLeadFields : list DocField.

Definition getLeadFieldMeta (name : jsstring) : option DocField :=
  List.find (fun f => str_eqb (df_fieldname f) name) getLeadFields.

Definition hasField (name : jsstring) : bool :=
  match getLeadFieldMeta name with Some _ => true | None => false end.

(** [for (const f of candidates) if (getLeadFieldMeta(f)) return f; return fallback]. *)
Definition firstField (candidates : list jsstring) (fallback : jsstring) : jsstring :=
  from_option id fallback (List.find hasField candidates).

Definition PROJECT_FIELD : jsstring :=
  if hasField (js "real_estate_project") then js "real_estate_project"
  else if hasField (js "project") then js "project"
  else js "real_estate_project".

Definition SOURCE_FIELD : jsstring :=
  if hasField (js "lead_source") then js "lead_source"
  else if hasField (js "source") then js "source"
  else js "lead_source".

Definition LOCATION_FIELD : jsstring :=
  firstField [js "territory"; js "location"; js "crm_location"; js "lead_territory"]
             (js "territory").

Definition SPACE_FIELD : jsstring :=
  firstField [js "space"; js "area"; js "unit_area"; js "property_space"; js "required_space"]
             (js "space").

Definition BUDGET_FIELD : jsstring :=
  firstField [js "budget"; js "expected_budget"; js "max_budget"; js "price"; js "estimated_budget"]
             (js "budget").

Definition LAST_CONTACT_FIELD : DocField :=
  let candidates :=
    [js "last_contacted_on"; js "last_contacted"; js "last_contact_date"; js "last_contact"] in
  from_option id
    {| df_fieldname := js "last_contacted_on"; df_fieldtype := js "Datetime"; df_options := [] |}
    (List.find (fun f => bool_decide (df_fieldname f ∈ candidates)) getLeadFields).

End Meta.

(** *** [sanitizeFilters] *)

(** [Array.isArray(f) ? f[1] : f.fieldname || ''], and likewise for the operator. *)
Definition entryFieldname (f : entry) : jsstring :=
  match f with
  | ETuple _ fn _ _ => fn
  | EObject fn _ _ => orEmpty fn
  | ENull => []
  end.

Definition entryOperator (f : entry) : jsstring :=
  match f with
  | ETuple _ _ op _ => op
  | EObject _ op _ => orEmpty op
  | ENull => []
  end.

(** [Array.isArray(f) ? f[3] : (hasOwnProperty(f, 'value') ? f.value : undefined)]. *)
Definition entryValue (f : entry) : jsvalue :=
  match f with
  | ETuple _ _ _ v => from_option id VUndefined v
  | EObject _ _ v => from_option id VUndefined v
  | ENull => VUndefined
  end.

(** The negation of the [between] guard:
    [Array.isArray(value) && value.length === 2 && value[0] != null && value[1] != null]. *)
Definition isRange (v : jsvalue) : bool :=
  match v with
  | VArray [a; b] => negb (isNullish a) && negb (isNullish b)
  | _ => false
  end.

(** One turn of the [for (const f of arr)] loop; [out] is the array built so far. *)
Definition sanitizeStep (out : list filter) (f : entry) : list filter :=
  match f with
  | ENull => out
  | _ =>
    let fieldname := entryFieldname f in
    let operator := entryOperator f in
    let value := entryValue f in
    if bool_decide (fieldname = []) || bool_decide (operator = []) then out
    else if isBlank value then out
    else if str_eqb (toLowerCase operator) (js "between") && negb (isRange value) then out
    else out ++ [{| fieldname := fieldname; operator := operator; value := value |}]
  end.

Definition sanitizeFilters (arr : list entry) : list filter :=
  fold_left sanitizeStep arr [].

(** *** [applyFilters] *)

(** One turn of the loop that builds [tuples]. A [null] entry and an array have
    no [fieldname] property, so [!f?.fieldname] skips them. *)
Definition tupleStep (tuples : list wire) (f : entry) : list wire :=
  match f with
  | EObject fn op v =>
    let v := from_option id VUndefined v in
    if negb (present fn) || isBlank v then tuples
    else
      let value :=
        if str_eqb (orEmpty fn) (js "delayed")
        then VNumber (Finite (if truthy v then 1 else 0))
        else v in
      tuples ++ [(DOC, orEmpty fn, toLowerCase (if present op then orEmpty op else js "="), value)]
  | _ => tuples
  end.

Definition wireTuples (filters : list entry) : list wire :=
  fold_left tupleStep filters [].

Definition applyFilters (filters : list entry) (replace : bool) (st : Page) : Page :=
  match viewControls st with
  | None => st
  | Some vc =>
    let tuples := wireTuples filters in
    let st := withPagination st 1 20 in
    match tuples with
    | [] =>
      if has_clearFilters vc
      then withViewControls st (vc_reload_opt (vc_clearFilters vc))
      else st
    | _ :: _ =>
      if has_setFilters vc then withViewControls st (vc_setFilters tuples vc)
      else if has_applyFilter vc then withViewControls st (vc_applyFilter tuples replace vc)
      else st
    end
  end.

(** *** [applyQueryFilters] *)

(** The route query: each parameter is a string or missing, except [delayed],
    which the code also compares with the number 1 and with [true]. *)
Record Query := {
  q_status : option jsstring;
  q_type : option jsstring;
  q_priority : option jsstring;
  q_follow_up : option jsstring;
  q_delayed : jsvalue;
  q_project : option jsstring;
  q_user : option jsstring;
  q_create : option jsstring
}.

(** [query.delayed === '1' || query.delayed === 1 || query.delayed === true
     || query.delayed === 'true']. *)
Definition delayedValue (v : jsvalue) : bool :=
  match v with
  | VString s => str_eqb s (js "1") || str_eqb s (js "true")
  | VNumber (Finite q) => Qeq_bool q 1
  | VBool b => b
  | _ => false
  end.

Definition mkFilter (fn op : jsstring) (v : jsvalue) : filter :=
  {| fieldname := fn; operator := op; value := v |}.

Section Query.
Variable getLeadFields : list DocField.

(** The assignments to [ui] at the head of [applyQueryFilters]. *)
Definition queryUi (query : Query) (u : Ui) : Ui :=
  {| ui_search := ui_search u;
     ui_status := Some (orEmpty (q_status query));
     ui_stage := ui_stage u;
     ui_project := if present (q_project query) then q_project query else ui_project u;
     ui_owner := if present (q_user query) then q_user query else ui_owner u;
     ui_priority := Some (orEmpty (q_priority query));
     ui_follow_up := Some (orEmpty (q_follow_up query));
     ui_last_contacted_from := ui_last_contacted_from u;
     ui_last_contacted_to := ui_last_contacted_to u;
     ui_location := ui_location u;
     ui_space_min := ui_space_min u;
     ui_space_max := ui_space_max u;
     ui_budget_min := ui_budget_min u;
     ui_budget_max := ui_budget_max u;
     ui_lead_source := ui_lead_source u;
     ui_lead_origin := ui_lead_origin u;
     ui_lead_type := Some (orEmpty (q_type query)) |}.

(** The array [F] that [applyQueryFilters] builds. *)
Definition queryFilters (query : Query) : list filter :=
  let F := [] in
  let F := pushIf (present (q_status query))
             (mkFilter (js "status") (js "=") (VString (orEmpty (q_status query)))) F in
  let F := pushIf (present (q_type query))
             (mkFilter (js "lead_type") (js "=") (VString (orEmpty (q_type query)))) F in
  let F := pushIf (present (q_priority query))
             (mkFilter (js "priority") (js "=") (VString (orEmpty (q_priority query)))) F in
  let F := pushIf (negb (isBlank (q_delayed query)))
             (mkFilter (js "delayed") (js "=")
                (VNumber (Finite (if delayedValue (q_delayed query) then 1 else 0)))) F in
  let F := pushIf (present (q_project query))
             (mkFilter (PROJECT_FIELD getLeadFields) (js "=") (VString (orEmpty (q_project query)))) F in
  let F := pushIf (present (q_user query))
             (mkFilter (js "lead_owner") (js "=") (VString (orEmpty (q_user query)))) F in
  F.

Definition applyQueryFilters (query : Query) (st : Page) : Page :=
  let st := withUi st (queryUi query (ui st)) in
  let F := queryFilters query in
  let st := if present (q_create query) then withLeadModal st true else st in
  match F with
  | _ :: _ => applyFilters (List.map entryOf F) true st
  | [] => applyFilters [] true st
  end.

End Query.

(** *** The drawer: [toNum], [firstKey], [applyFiltersFromPanel] *)

(** [s.replace(/[٠-٩]/g, d => map[d])]. *)
Definition arabicToAscii (c : N) : N := if isArabicDigit c then c - 0x660 + 0x30 else c.

Definition replaceArabicDigits (s : jsstring) : jsstring := List.map arabicToAscii s.

(** The class [[,،]]: the comma and the Arabic comma U+060C. *)
Definition isComma (c : N) : bool := (c =? 0x2C) || (c =? 0x60C).

(** [s.replace(re, '')] for a global regular expression over one character
    class: the units of the class go. *)
Definition remove (cls : N -> bool) (s : jsstring) : jsstring :=
  List.filter (fun c => negb (cls c)) s.

(** The three suffix branches: the multiplier and the string without its suffix. *)
Definition splitSuffix (s : jsstring) : number * jsstring :=
  if endsWith s 0x6B then (Finite 1000, dropLast s)
  else if endsWith s 0x6D then (Finite 1000000, dropLast s)
  else if endsWith s 0x62 then (Finite 1000000000, dropLast s)
  else (Finite 1, s).

(** [toNum(v)], for [v] a string or [null]/[undefined] ([None]); the result
    [None] is [null]. Strings have no [lowerCase] method, so the first operand
    of [??] is [undefined] and [s] is [String(v).trim().toLowerCase()]. *)
Definition toNum (v : option jsstring) : option number :=
  match v with
  | None | Some [] => None
  | Some v =>
    let s := toLowerCase (trim v) in
    let s := replaceArabicDigits s in
    let s := remove isComma (remove isWhiteSpace s) in
    let (mult, s) := splitSuffix s in
    let s := remove (fun c => negb (isDigit c || (c =? 0x2E))) s in
    match s with
    | [] => None
    | _ :: _ =>
      let n := StringToNumber s in
      if isFinite n then Some (mul n mult) else None
    end
  end.

(** The draft the drawer emits: an object whose properties hold a string or
    [null]; a key outside the map reads [undefined]. *)
Abbreviation Draft := (gmap jsstring (option jsstring)).

(** [firstKey(obj, keys, fallback)]: the first [obj[k]] that is neither
    [undefined] nor the empty string. *)
Fixpoint firstKey (obj : Draft) (keys : list jsstring) (fallback : option jsstring)
  : option jsstring :=
  match keys with
  | [] => fallback
  | k :: rest =>
    match obj !! k with
    | Some v => if bool_decide (v = Some []) then firstKey obj rest fallback else v
    | None => firstKey obj rest fallback
    end
  end.

(** The [Object.assign(ui, { ... })] at the head of [applyFiltersFromPanel]. *)
Definition panelUi (draft : Draft) (u : Ui) : Ui :=
  let e : option jsstring := Some [] in
  {| ui_search := ui_search u;
     ui_status := firstKey draft [js "status"] e;
     ui_stage := ui_stage u;
     ui_project := firstKey draft [js "project"] e;
     ui_owner := ui_owner u;
     ui_priority := ui_priority u;
     ui_follow_up := ui_follow_up u;
     ui_last_contacted_from :=
       firstKey draft [js "last_contacted_from"; js "lastFrom"; js "from_date"] e;
     ui_last_contacted_to :=
       firstKey draft [js "last_contacted_to"; js "lastTo"; js "to_date"] e;
     ui_location :=
       firstKey draft [js "territory"; js "location"; js "crm_location"; js "lead_territory"] e;
     ui_space_min :=
       firstKey draft [js "space_min"; js "spaceFrom"; js "min_space"; js "minSpace";
                       js "area_min"; js "min_area"] (ui_space_min u);
     ui_space_max :=
       firstKey draft [js "space_max"; js "spaceTo"; js "max_space"; js "maxSpace";
                       js "area_max"; js "max_area"] (ui_space_max u);
     ui_budget_min :=
       firstKey draft [js "budget_min"; js "budgetFrom"; js "min_budget"; js "minBudget";
                       js "price_min"; js "min_price"; js "expected_budget_min"] (ui_budget_min u);
     ui_budget_max :=
       firstKey draft [js "budget_max"; js "budgetTo"; js "max_budget"; js "maxBudget";
                       js "price_max"; js "max_price"; js "expected_budget_max"] (ui_budget_max u);
     ui_lead_source := firstKey draft [js "lead_source"; js "source"] e;
     ui_lead_origin := firstKey draft [js "lead_origin"; js "origin"] e;
     ui_lead_type := firstKey draft [js "lead_type"; js "type"] e |}.

Section Panel.
Variable getLeadFields : list DocField.

(** The upper bound of the last-contact range:
    [isDT ? `${ui.last_contacted_to} 23:59:59` : ui.last_contacted_to]. *)
Definition panelEnd (to : jsstring) : jsstring :=
  let isDT :=
    str_eqb (toLowerCase (df_fieldtype (LAST_CONTACT_FIELD getLeadFields))) (js "datetime") in
  if isDT then to ++ js " 23:59:59" else to.

(** [if (n !== null) F.push({ fieldname, operator, value: n })]. *)
Definition pushNum (n : option number) (fn op : jsstring) (F : list filter) : list filter :=
  match n with
  | Some x => F ++ [mkFilter fn op (VNumber x)]
  | None => F
  end.

(** The array [F] that [applyFiltersFromPanel] builds from the updated [ui]. *)
Definition panelFilters (u : Ui) : list filter :=
  let bMin := toNum (ui_budget_min u) in
  let bMax := toNum (ui_budget_max u) in
  let sMin := toNum (ui_space_min u) in
  let sMax := toNum (ui_space_max u) in
  let lastContact := df_fieldname (LAST_CONTACT_FIELD getLeadFields) in
  let eq (x : option jsstring) (fn : jsstring) (F : list filter) :=
    pushIf (present x) (mkFilter fn (js "=") (VString (orEmpty x))) F in
  let F := [] in
  let F := eq (ui_status u) (js "status") F in
  let F := eq (ui_project u) (PROJECT_FIELD getLeadFields) F in
  let F := eq (ui_location u) (LOCATION_FIELD getLeadFields) F in
  let F := eq (ui_lead_source u) (SOURCE_FIELD getLeadFields) F in
  let F := eq (ui_lead_origin u) (js "lead_origin") F in
  let F := eq (ui_lead_type u) (js "lead_type") F in
  let F := pushIf (present (ui_last_contacted_from u))
             (mkFilter lastContact (js ">=") (VString (orEmpty (ui_last_contacted_from u)))) F in
  let F := pushIf (present (ui_last_contacted_to u))
             (mkFilter lastContact (js "<=")
                (VString (panelEnd (orEmpty (ui_last_contacted_to u))))) F in
  let F := pushNum bMin (BUDGET_FIELD getLeadFields) (js ">=") F in
  let F := pushNum bMax (BUDGET_FIELD getLeadFields) (js "<=") F in
  let F := pushNum sMin (SPACE_FIELD getLeadFields) (js ">=") F in
  let F := pushNum sMax (SPACE_FIELD getLeadFields) (js "<=") F in
  F.

Definition applyFiltersFromPanel (draft : Draft) (st : Page) : Page :=
  let st := withUi st (panelUi draft (ui st)) in
  let F := panelFilters (ui st) in
  let st := applyFilters (List.map entryOf F) false st in
  withShowFilters st false.

End Panel.

(** *** Catalogs *)

(** A JavaScript [Map] keyed by strings: the entries in insertion order.
    [set] on a key the map has replaces the value where the key stands. *)
Section JsMap.
Context {V : Type}.

Definition mapHas (k : jsstring) (m : list (jsstring * V)) : bool :=
  bool_decide (k ∈ m.*1).

Fixpoint mapSet (k : jsstring) (v : V) (m : list (jsstring * V)) : list (jsstring * V) :=
  match m with
  | [] => [(k, v)]
  | (k', v') :: rest =>
    if bool_decide (k = k') then (k, v) :: rest else (k', v') :: mapSet k v rest
  end.

(** [Array.from(m.values())]. *)
Definition mapValues (m : list (jsstring * V)) : list V := m.*2.

End JsMap.

(** A JavaScript [Set] of strings, as the list of its members in insertion
    order: [s.add(x)], and [new Set(xs)] (whose members [Array.from] and the
    spread syntax list in that order). *)
Definition setAdd (s : list jsstring) (x : jsstring) : list jsstring :=
  if bool_decide (x ∈ s) then s else s ++ [x].

Definition setOf (xs : list jsstring) : list jsstring := fold_left setAdd xs [].

(** [norm(strs)]: an element is a string or [null]/[undefined] ([None]). *)
Definition norm (strs : list (option jsstring)) : list CatalogEntry :=
  fst (fold_left
    (fun '(out, seen) s =>
       let val := trim (orEmpty s) in
       if bool_decide (val = []) || bool_decide (val ∈ seen) then (out, seen)
       else (out ++ [{| opt_label := val; opt_value := val; opt_color := None |}],
             seen ++ [val]))
    strs ([], [])).

(** A cell of a shaped row: missing, a primitive string, or an object with an
    optional [value] and [label]. *)
Inductive cell :=
| CellMissing
| CellText (s : jsstring)
| CellObject (value label : option jsstring).

(** [cell?.value ?? cell?.label ?? cell], as the string that [norm] reads from
    it; [None] when the result is [undefined] or [null]. An object with
    neither property stands for itself and reads "[object Object]". *)
Definition cellValue (c : cell) : option jsstring :=
  match c with
  | CellMissing => None
  | CellText s => Some s
  | CellObject (Some v) _ => Some v
  | CellObject None (Some l) => Some l
  | CellObject None None => Some (js "[object Object]")
  end.

Section Catalogs.
Variable getLeadFields : list DocField.

(** [rows.value]: the shaped rows on screen, each a map from column to cell. *)
Variable rows : list (gmap jsstring cell).

(** [optionsFromSelect(fieldname)]. *)
Definition optionsFromSelect (name : jsstring) : list CatalogEntry :=
  match getLeadFieldMeta getLeadFields name with
  | None => []
  | Some f =>
    if negb (str_eqb (toLowerCase (df_fieldtype f)) (js "select")) then []
    else
      let raw := List.filter (fun s => negb (bool_decide (s = [])))
                   (List.map trim (split 0x0A (df_options f))) in
      norm (List.map Some raw)
  end.

(** [seenFromRows(fieldname)]. *)
Definition seenFromRows (name : jsstring) : list CatalogEntry :=
  let vals :=
    fold_left
      (fun vals r =>
         match cellValue (from_option id CellMissing (r !! name)) with
         | Some (c :: v) => setAdd vals (c :: v)
         | _ => vals
         end)
      rows [] in
  norm (List.map Some vals).

(** [loadSimpleCatalog(fieldname, targetRef)]: the list stored in [targetRef]. *)
Definition loadSimpleCatalog (name : jsstring) : list CatalogEntry :=
  let fromMeta := optionsFromSelect name in
  let merged := fold_left (fun merged o => mapSet (opt_value o) o merged) fromMeta [] in
  let merged :=
    fold_left
      (fun merged o => if mapHas (opt_value o) merged then merged
                       else mapSet (opt_value o) o merged)
      (seenFromRows name) merged in
  mapValues merged.

End Catalogs.

(** One [forEach] of [projectList]:
    [if (p.value && !merged.has(p.value)) merged.set(p.value, p)]. *)
Definition addNew (merged : list (jsstring * CatalogEntry)) (p : CatalogEntry)
  : list (jsstring * CatalogEntry) :=
  if negb (bool_decide (opt_value p = [])) && negb (mapHas (opt_value p) merged)
  then mapSet (opt_value p) p merged
  else merged.

(** The computed [projectList], from [fullProjectCatalog] and [seenProjects]. *)
Definition projectList (fullProjectCatalog seenProjects : list CatalogEntry) : list CatalogEntry :=
  let merged := fold_left addNew fullProjectCatalog [] in
  let merged := fold_left addNew seenProjects merged in
  mapValues merged.

(** *** The delayed-flag map *)

(** A raw lead row of the list payload, with the two properties used below:
    [name], kept when it is a string, and the stored [_assign] string ([None]:
    missing or [null]). *)
Record Lead := {
  l_name : option jsstring;
  l_assign : option jsstring
}.

(** [leads.value?.data]: nothing yet, the rows of the list view, or the groups
    (columns) of the group-by (kanban) view, each with its rows. *)
Inductive LeadsData :=
| NoData
| Flat (rows : list Lead)
| Grouped (groups : list (list Lead)).

(** [arr.map(row => row?.name).filter(name => typeof name === 'string' && name.length)]. *)
Definition pluckNames (arr : list Lead) : list jsstring :=
  omap (fun row => match l_name row with Some (c :: n) => Some (c :: n) | _ => None end) arr.

Definition getVisibleLeadNames (payload : LeadsData) : list jsstring :=
  match payload with
  | NoData => []
  | Flat rows => pluckNames rows
  | Grouped groups => flat_map pluckNames groups
  end.

Definition MAX_DELAYED_BATCH : nat := 200.

(** The two variables the refresh reads and writes. *)
Record DelayedState := {
  delayedMap : gmap jsstring bool;
  lastDelayedNamesKey : jsstring
}.

(** What one run of the refresh does: the map on screen while the remote
    calls are awaited, the [lead_names] of each call in order, and the state
    it leaves. *)
Record Refresh := {
  interimMap : gmap jsstring bool;
  remoteCalls : list (list jsstring);
  final : DelayedState
}.

Section Delayed.

(** The remote method [crm.api.reminders.get_delayed_map]: the [message] of
    its answer to [lead_names], or [None] when the call is rejected. *)
Variable get_delayed_map : list jsstring -> option (gmap jsstring bool).

(** The [for (let i = 0; i < unique.length; i += MAX_DELAYED_BATCH)] loop, with
    the calls made so far; the map is [None] once a call has been rejected.
    [fuel] bounds the number of turns; [length unique] turns are enough. *)
Fixpoint fetchLoop (fuel i : nat) (unique : list jsstring)
    (freshMap : gmap jsstring bool) (calls : list (list jsstring))
  : list (list jsstring) * option (gmap jsstring bool) :=
  if bool_decide (i < length unique)%nat then
    match fuel with
    | O => (calls, None)
    | S fuel =>
      let chunk := take MAX_DELAYED_BATCH (drop i unique) in
      match get_delayed_map chunk with
      | None => (calls ++ [chunk], None)
      | Some message =>
        fetchLoop fuel (i + MAX_DELAYED_BATCH) unique (message ∪ freshMap) (calls ++ [chunk])
      end
    end
  else (calls, Some freshMap).

(** The body of [scheduleDelayedMapRefresh] (the debounce only delays it). *)
Definition scheduleDelayedMapRefresh (payload : LeadsData) (st : DelayedState) : Refresh :=
  let names := getVisibleLeadNames payload in
  match names with
  | [] =>
    {| interimMap := ∅; remoteCalls := [];
       final := {| delayedMap := ∅; lastDelayedNamesKey := [] |} |}
  | _ :: _ =>
    let unique := setOf names in
    let newKey := join (js "|") unique in
    let namesChanged := negb (str_eqb newKey (lastDelayedNamesKey st)) in
    let interim := if namesChanged then ∅ else delayedMap st in
    match fetchLoop (length unique) 0 unique ∅ [] with
    | (calls, Some freshMap) =>
      {| interimMap := interim; remoteCalls := calls;
         final := {| delayedMap := freshMap; lastDelayedNamesKey := newKey |} |}
    | (calls, None) =>
      {| interimMap := interim; remoteCalls := calls;
         final := {| delayedMap := ∅; lastDelayedNamesKey := lastDelayedNamesKey st |} |}
    end
  end.

End Delayed.

(** *** Row shaping: the [_assign] cell of [parseRows] *)

(** What the users store returns for a user id. *)
Record User := {
  user_image : option jsstring;
  full_name : option jsstring
}.

(** [{ name, image, label }], the avatar of one assignee. *)
Record Avatar := {
  av_name : json;
  av_image : option jsstring;
  av_label : option jsstring
}.

Section Rows.

(** [getUser] of the users store, which is outside the sources; it is taken
    to return a user object for every argument. *)
Variable getUser : json -> User.

(** The [row === '_assign'] branch:
    [JSON.parse(lead._assign || '[]')], then [assignees.map(...)], which is a
    TypeError when the parsed value is not an array. *)
Definition assignCell (lead : Lead) : result (list Avatar) :=
  bind (JSON_parse (if present (l_assign lead) then orEmpty (l_assign lead) else js "[]"))
    (fun assignees =>
       match assignees with
       | JArray users =>
         Return (List.map (fun user =>
                   {| av_name := user;
                      av_image := user_image (getUser user);
                      av_label := full_name (getUser user) |}) users)
       | _ => Throw TypeError
       end).

(** [parseRows(rowsIn, columns)], as far as the [_assign] column goes:
    [rows] is [leads.value.data.rows], the columns to shape; each lead yields
    its [_assign] cell when that column is listed. An exception in one row
    ends the whole [rowsIn.map]. *)
Definition parseRows (rows : list jsstring) (rowsIn : list Lead)
  : result (list (option (list Avatar))) :=
  mapM (fun lead =>
          if bool_decide (js "_assign" ∈ rows)
          then bind (assignCell lead) (fun cell => Return (Some cell))
          else Return None)
       rowsIn.

End Rows.

End Leads.

(** ** The quick filter bar: QuickFiltersBar *)
Module QuickFiltersBar.
Import JS Leads.

(** [normalizeDigits(s)]. *)
Definition normalizeDigits (s : jsstring) : jsstring := trim (replaceArabicDigits s).

(** The class of [isDigits]: white space, ASCII and Arabic-Indic digits, and
    the four signs plus, minus and the two parentheses. *)
Definition isPhoneUnit (c : N) : bool :=
  isWhiteSpace c || isDigit c || isArabicDigit c
  || (c =? 0x2B) || (c =? 0x2D) || (c =? 0x28) || (c =? 0x29).

(** [isDigits(s)]: the regular expression matches one or more units of the
    class from the start to the end of [s]. *)
Definition isDigits (s : jsstring) : bool :=
  negb (bool_decide (s = [])) && forallb isPhoneUnit s.

(** An element of the option arrays handed to the bar: a string, or an object
    with optional [label], [value], [name] and [color]. *)
Inductive rawOption :=
| RawText (s : jsstring)
| RawObject (label value name color : option jsstring).

(** [a ?? b] on optional strings. *)
Definition orElse (a b : option jsstring) : option jsstring :=
  match a with Some _ => a | None => b end.

(** [normalizeOptions(arr)]. *)
Definition normalizeOptions (arr : list rawOption) : list CatalogEntry :=
  fst (fold_left
    (fun '(out, seen) it =>
       let '(label, value, color) :=
         match it with
         | RawText s => (s, s, None)
         | RawObject l v n c =>
           (orEmpty (orElse l (orElse v n)), orEmpty (orElse v (orElse n l)), c)
         end in
       if bool_decide (value = []) || bool_decide (value ∈ seen) then (out, seen)
       else (out ++ [{| opt_label := label; opt_value := value; opt_color := color |}],
             setAdd seen value))
    arr ([], [])).

Definition asRaw (o : CatalogEntry) : rawOption :=
  RawObject (Some (opt_label o)) (Some (opt_value o)) None (opt_color o).

(** The props of the component and what it reads from [window]. *)
Record Props := {
  statusField : jsstring;
  projectField : jsstring;
  ownerField : jsstring;
  lastContactField : jsstring
}.

Record Bar := {
  props : Props;
  model : Ui;                        (* the [ui] object shared with the page *)
  lists_project : list CatalogEntry;      (* [lists.project] *)
  session_user : option jsstring;    (* [window?.frappe?.session?.user] *)
  LEADS_VIEWCONTROLS : option ViewControls   (* [window.__LEADS_VIEWCONTROLS__] *)
}.

(** The computed proxies into [ui]. *)
Definition search (b : Bar) : jsstring := orEmpty (ui_search (model b)).
Definition status (b : Bar) : jsstring := orEmpty (ui_status (model b)).
Definition projectValue (b : Bar) : jsstring := orEmpty (ui_project (model b)).
Definition owner (b : Bar) : jsstring :=
  if present (ui_owner (model b)) then orEmpty (ui_owner (model b)) else js "all".
Definition lastFrom (b : Bar) : jsstring := orEmpty (ui_last_contacted_from (model b)).
Definition lastTo (b : Bar) : jsstring := orEmpty (ui_last_contacted_to (model b)).

Definition normalizedProjectList (b : Bar) : list CatalogEntry :=
  normalizeOptions (List.map asRaw (lists_project b)).

Definition nonEmpty (s : jsstring) : bool := negb (bool_decide (s = [])).

(** [props.lastContactField || 'last_contacted_on']. *)
Definition lastContact (b : Bar) : jsstring :=
  if nonEmpty (lastContactField (props b)) then lastContactField (props b)
  else js "last_contacted_on".

(** [buildFiltersPayload()]. *)
Definition buildFiltersPayload (b : Bar) : list filter :=
  let filters := [] in
  let me := session_user b in
  let filters :=
    if str_eqb (owner b) (js "me") && present me
    then filters ++ [mkFilter (ownerField (props b)) (js "=") (VString (orEmpty me))]
    else if str_eqb (owner b) (js "unassigned")
    then filters ++ [mkFilter (js "_assign") (js "is") (VString (js "not set"))]
    else filters in
  let filters :=
    pushIf (nonEmpty (status b))
      (mkFilter (statusField (props b)) (js "=") (VString (status b))) filters in
  let filters :=
    if nonEmpty (projectValue b) then
      let pv := trim (projectValue b) in
      let MAX_LEN := 300%nat in
      let allowed := List.find (fun p => str_eqb (opt_value p) pv) (normalizedProjectList b) in
      if nonEmpty pv && bool_decide (length pv <= MAX_LEN)%nat && bool_decide (is_Some allowed)
      then filters ++ [mkFilter (projectField (props b)) (js "=") (VString pv)]
      else filters
    else filters in
  let f := lastFrom b in
  let t := lastTo b in
  let filters := pushIf (nonEmpty f) (mkFilter (lastContact b) (js ">=") (VString f)) filters in
  let filters :=
    if nonEmpty t then
      let end_ := t ++ js " 23:59:59" in
      filters ++ [mkFilter (lastContact b) (js "<=") (VString end_)]
    else filters in
  filters.

(** An entry of the [like-change] payload: [{ fieldname, value }]. *)
Record Like := {
  like_fieldname : jsstring;
  like_value : jsstring
}.

(** The direct fallback on the controller, for one payload entry:
    [applyLikeFilter] when the handle has it, else [applyFilter] with one
    [like] tuple and [replace: false]. *)
Definition directLike (vc : ViewControls) (f : Like) : ViewControls :=
  let v := VString (js "%" ++ like_value f ++ js "%") in
  if has_applyLikeFilter vc
  then vc_applyLikeFilter (mkFilter (like_fieldname f) (js "like") v) vc
  else if has_applyFilter vc
  then vc_applyFilter [(js "CRM Lead", like_fieldname f, js "like", v)] false vc
  else vc.

(** [for (const f of payload) { ... } ; if (typeof vc.reload === 'function') vc.reload()]. *)
Definition directApply (payload : list Like) (vc : ViewControls) : ViewControls :=
  vc_reload_opt (fold_left directLike payload vc).

(** [runSearchLike()]: the payload emitted with [like-change], and the
    controller after the direct fallback. The free-text branch runs the
    fallback twice, as the source does. *)
Definition runSearchLike (b : Bar) : list Like * option ViewControls :=
  let raw0 := search b in
  let raw := trim raw0 in
  match raw with
  | [] =>
    ([], option_map
           (fun vc =>
              let vc := if has_clearLikeFilters vc then vc_clearLikeFilters vc
                        else if has_clearFilters vc then vc_clearFilters vc
                        else vc in
              vc_reload_opt vc)
           (LEADS_VIEWCONTROLS b))
  | _ :: _ =>
    let digitsNorm := normalizeDigits raw in
    if isDigits raw then
      let q := digitsNorm in
      let payload :=
        [ {| like_fieldname := js "mobile_no"; like_value := q |};
          {| like_fieldname := js "phone"; like_value := q |};
          {| like_fieldname := js "other_phone"; like_value := q |} ] in
      (payload, option_map (directApply payload) (LEADS_VIEWCONTROLS b))
    else
      let payload := [ {| like_fieldname := js "first_name"; like_value := raw |} ] in
      (payload,
       option_map (fun vc => directApply payload (directApply payload vc))
                  (LEADS_VIEWCONTROLS b))
  end.

End QuickFiltersBar.

(** ** What the specification says, in its own words

    Each definition of this module restates a sentence of the specification;
    the theorems compare it with the code. *)
Module Spec.
Import JS Leads.

(** "drops entries missing fieldname/operator; drops entries whose value is
    empty/null/undefined [...]; for a declared between semantic, requires the
    value to be a 2-element array with both bounds present". *)
Definition hasBothBounds (v : jsvalue) : bool :=
  match v with
  | VArray items =>
    bool_decide (length items = 2%nat) && forallb (fun b => negb (isNullish b)) items
  | _ => false
  end.

Definition isBetween (op : jsstring) : bool := str_eqb (toLowerCase op) (js "between").

Definition retained (f : entry) : bool :=
  negb (bool_decide (entryFieldname f = []))
  && negb (bool_decide (entryOperator f = []))
  && negb (isBlank (entryValue f))
  && (if isBetween (entryOperator f) then hasBothBounds (entryValue f) else true).

(** The same with the exemption the specification adds: "unless operator is a
    presence-check". *)
Definition isPresenceCheck (op : jsstring) : bool := str_eqb op (js "is").

Definition retainedAsClaimed (f : entry) : bool :=
  negb (bool_decide (entryFieldname f = []))
  && negb (bool_decide (entryOperator f = []))
  && (negb (isBlank (entryValue f)) || isPresenceCheck (entryOperator f))
  && (if isBetween (entryOperator f) then hasBothBounds (entryValue f) else true).

(** The tuple an entry is normalised to. *)
Definition normalised (f : entry) : filter :=
  {| fieldname := entryFieldname f; operator := entryOperator f; value := entryValue f |}.

(** What every tuple that leaves [sanitizeFilters] satisfies. *)
Definition wellFormed (f : filter) : Prop :=
  fieldname f <> [] /\ operator f <> [] /\ isBlank (value f) = false /\
  (toLowerCase (operator f) = js "between" ->
   exists a b, value f = VArray [a; b] /\ isNullish a = false /\ isNullish b = false).

(** "toWireTuple(FilterTuple, docTypeName) -> [docTypeName, fieldname,
    operator, value]": the operator lower-cased, [=] when absent, and for the
    field [delayed] the value coerced to the integer 1 or 0. *)
Definition wireFor (fn : jsstring) (op : option jsstring) (v : jsvalue) : wire :=
  (js "CRM Lead", fn,
   toLowerCase (match op with Some (c :: o) => c :: o | _ => js "=" end),
   if bool_decide (fn = js "delayed") then VNumber (Finite (if truthy v then 1 else 0)) else v).

(** The controller log of a page, and the calls a step has added to it. *)
Definition callLog (st : Page) : list vcCall :=
  match viewControls st with Some vc => vc_calls vc | None => [] end.

Definition issued (before after : Page) : list vcCall :=
  drop (length (callLog before)) (callLog after).

(** The active filter set of the controller of a page. *)
Definition activeFilters (st : Page) : list wire :=
  match viewControls st with Some vc => vc_filters vc | None => [] end.

(** "Status/project/owner/date-range: each maps to exactly one tuple when
    non-empty": the tuple of each selection of the quick filter bar, as a list
    with one element or none. The project counts once trimmed, when it is at
    most 300 units long and is a value of the normalised project list; the
    upper bound of the range carries the end of the day. *)
Definition statusPart (b : QuickFiltersBar.Bar) : list filter :=
  if bool_decide (QuickFiltersBar.status b = []) then []
  else [ {| fieldname := QuickFiltersBar.statusField (QuickFiltersBar.props b);
            operator := js "="; value := VString (QuickFiltersBar.status b) |} ].

Definition projectAllowed (b : QuickFiltersBar.Bar) : Prop :=
  let pv := trim (QuickFiltersBar.projectValue b) in
  pv <> [] /\ (length pv <= 300)%nat
  /\ pv ∈ List.map opt_value (QuickFiltersBar.normalizedProjectList b).

#[global] Instance projectAllowed_dec b : Decision (projectAllowed b).
Proof. unfold projectAllowed. apply _. Defined.

Definition projectPart (b : QuickFiltersBar.Bar) : list filter :=
  if bool_decide (projectAllowed b)
  then [ {| fieldname := QuickFiltersBar.projectField (QuickFiltersBar.props b);
            operator := js "=";
            value := VString (trim (QuickFiltersBar.projectValue b)) |} ]
  else [].

Definition fromPart (b : QuickFiltersBar.Bar) : list filter :=
  if bool_decide (QuickFiltersBar.lastFrom b = []) then []
  else [ {| fieldname := QuickFiltersBar.lastContact b; operator := js ">=";
            value := VString (QuickFiltersBar.lastFrom b) |} ].

Definition toPart (b : QuickFiltersBar.Bar) : list filter :=
  if bool_decide (QuickFiltersBar.lastTo b = []) then []
  else [ {| fieldname := QuickFiltersBar.lastContact b; operator := js "<=";
            value := VString (QuickFiltersBar.lastTo b ++ js " 23:59:59") |} ].

(** "iterate sources in priority order [...]; insert into an ordered map keyed
    by value; first writer for a key wins [...], subsequent sources may only
    add new keys": one insertion, and the merge of the sources in order. *)
Definition firstWins (acc : list CatalogEntry) (p : CatalogEntry) : list CatalogEntry :=
  if bool_decide (opt_value p = []) || bool_decide (opt_value p ∈ List.map opt_value acc)
  then acc else acc ++ [p].

Definition mergeCatalog (sources : list (list CatalogEntry)) : list CatalogEntry :=
  fold_left firstWins (concat sources) [].

(** "call a batch lookup endpoint per chunk, merging results into one map":
    the answers to the calls, each laid over the ones before it. *)
Definition mergedAnswers (get_delayed_map : list jsstring -> option (gmap jsstring bool))
    (calls : list (list jsstring)) (start : gmap jsstring bool) : gmap jsstring bool :=
  fold_left (fun m chunk => from_option id ∅ (get_delayed_map chunk) ∪ m) calls start.

(** "accepts input with Eastern Arabic-Indic digits, thousands separators
    (comma or Arabic comma), and shorthand suffixes k/m/b; returns null for
    unparseable input": the input the sentence describes is a numeral, that
    is digits of either script with separators among them and at most one
    full stop, followed by at most one suffix, in either case; white space
    around it does not count. Any other text is unparseable. *)
Definition isSuffix (c : N) : bool :=
  existsb (N.eqb c) [0x6B; 0x6D; 0x62; 0x4B; 0x4D; 0x42].

Definition parseable (s : jsstring) : bool :=
  let t := trim s in
  let body := match last t with
              | Some c => if isSuffix c then removelast t else t
              | None => t
              end in
  existsb (fun c => isDigit c || isArabicDigit c) body
  && forallb (fun c => isDigit c || isArabicDigit c || isComma c || (c =? 0x2E)) body
  && (length (List.filter (N.eqb 0x2E) body) <=? 1)%nat.

(** "a stable [...] cache key": the key the code computes for the visible
    names, the distinct names in order of first appearance joined by a bar. *)
Definition namesKey (payload : LeadsData) : jsstring :=
  join (js "|") (setOf (getVisibleLeadNames payload)).

End Spec.

(** ** Normal forms used by the proofs *)
Module Aux.
Import JS Leads.

(** The units that survive the last [replace] of [toNum]: digits and the full stop. *)
Definition isNumeral (c : N) : bool := isDigit c || (c =? 0x2E).

(** What [toLowerCase] makes of the units that [toNum] goes on to read: the
    letters of the Basic Latin block, and the Kelvin sign U+212A, whose lower
    case is [k]. Whatever it makes of another unit is dropped by [toNum]. *)
Definition lowerRead (c : N) : N := if c =? 0x212A then 0x6B else lowerUnit c.

(** [toNum] up to the suffix test, unit by unit: lower-cased as far as [toNum]
    reads it, digits normalised, white space and separators removed. Trimming
    first changes nothing, since all white space goes anyway. *)
Definition residue (s : jsstring) : jsstring :=
  remove isComma (remove isWhiteSpace (replaceArabicDigits (List.map lowerRead s))).

(** The units that [toNum] tells apart once the text is lower-cased: white
    space and separators, which it removes, digits of either script and the
    full stop, which it reads, and the three suffixes. Every other unit is
    dropped unread. *)
Definition isRead (c : N) : bool :=
  isWhiteSpace c || isComma c || isArabicDigit c || isNumeral c
  || (c =? 0x6B) || (c =? 0x6D) || (c =? 0x62).

(** Two texts that [toNum] reads alike: they agree unit by unit, except that
    where one has a run of unread units the other may have another such run. *)
Inductive sameReading : jsstring -> jsstring -> Prop :=
| sameReading_nil : sameReading [] []
| sameReading_unit c s t : sameReading s t -> sameReading (c :: s) (c :: t)
| sameReading_run b b' s t :
    b <> [] -> b' <> [] ->
    Forall (fun c => isRead c = false) b -> Forall (fun c => isRead c = false) b' ->
    sameReading s t -> sameReading (b ++ s) (b' ++ t).

(** The ranges of [isRead], and what is asked of a run of lower-case mappings
    other than the Basic Latin run and the Kelvin sign: no target is a unit
    that [toNum] reads. *)
Definition readRanges : list (N * N) :=
  [(0x9, 0xD); (0x20, 0x20); (0x2C, 0x2C); (0x2E, 0x2E); (0x30, 0x39); (0x62, 0x62);
   (0x6B, 0x6B); (0x6D, 0x6D); (0xA0, 0xA0); (0x60C, 0x60C); (0x660, 0x669);
   (0x1680, 0x1680); (0x2000, 0x200A); (0x2028, 0x2029); (0x202F, 0x202F);
   (0x205F, 0x205F); (0x3000, 0x3000); (0xFEFF, 0xFEFF)].

Definition runUnread (run : N * N * N * N) : bool :=
  let '(first, last, _, target) := run in
  ((first =? 0x41) && (last =? 0x5A) && (target =? 0x61))
  || ((first =? 0x212A) && (last =? 0x212A))
  || ((0x80 <=? first)
      && forallb (fun '(a, b) => (target + (last - first) <? a) || (b <? target)) readRanges).

(** The units of the residue that reach [Number], and the multiplier that the
    last unit of the residue selects. *)
Definition numerals (s : jsstring) : jsstring := List.filter isNumeral (residue s).

Definition multiplier (s : jsstring) : number := (splitSuffix (residue s)).1.

(** [toNum] from the suffix test on. *)
Definition readResidue (r : jsstring) : option number :=
  let (mult, s) := splitSuffix r in
  match remove (fun c => negb (isNumeral c)) s with
  | [] => None
  | c :: s' =>
    if isFinite (StringToNumber (c :: s')) then Some (mul (StringToNumber (c :: s')) mult)
    else None
  end.

(** [Number(s) * mult] when [Number(s)] is finite, else [null]. *)
Definition scaled (s : jsstring) (mult : number) : option number :=
  if isFinite (StringToNumber s) then Some (mul (StringToNumber s) mult) else None.

(** A unit that is a digit in neither script. *)
Definition notDigit (c : N) : bool := negb (isDigit c) && negb (isArabicDigit c).

(** The [Map] that holds the entries [l], each under its own value. *)
Definition keyed (l : list CatalogEntry) : list (jsstring * CatalogEntry) :=
  List.map (fun o => (opt_value o, o)) l.

(** What [norm] and the merges maintain: distinct, non-empty values. *)
Definition distinctValues (l : list CatalogEntry) : Prop :=
  NoDup (List.map opt_value l) /\ Forall (fun e => opt_value e <> []) l.

End Aux.

(** ** Sample states for the worked examples *)
Module Sample.
Import JS Leads.

Definition blankUi : Ui :=
  {| ui_search := None; ui_status := None; ui_stage := None; ui_project := None;
     ui_owner := None; ui_priority := None; ui_follow_up := None;
     ui_last_contacted_from := None; ui_last_contacted_to := None;
     ui_location := None; ui_space_min := None; ui_space_max := None;
     ui_budget_min := None; ui_budget_max := None; ui_lead_source := None;
     ui_lead_origin := None; ui_lead_type := None |}.

(** The props the page passes to the bar, for a last-contact field [name]. *)
Definition pageProps (project lastContact : jsstring) : QuickFiltersBar.Props :=
  {| QuickFiltersBar.statusField := js "status";
     QuickFiltersBar.projectField := project;
     QuickFiltersBar.ownerField := js "lead_owner";
     QuickFiltersBar.lastContactField := lastContact |}.

(** A bar over a given [ui], with no project list, session or controller. *)
Definition bar (u : Ui) : QuickFiltersBar.Bar :=
  {| QuickFiltersBar.props := pageProps (js "project") [];
     QuickFiltersBar.model := u;
     QuickFiltersBar.lists_project := [];
     QuickFiltersBar.session_user := None;
     QuickFiltersBar.LEADS_VIEWCONTROLS := None |}.

Definition withSearch (s : jsstring) : Ui :=
  {| ui_search := Some s; ui_status := None; ui_stage := None; ui_project := None;
     ui_owner := None; ui_priority := None; ui_follow_up := None;
     ui_last_contacted_from := None; ui_last_contacted_to := None;
     ui_location := None; ui_space_min := None; ui_space_max := None;
     ui_budget_min := None; ui_budget_max := None; ui_lead_source := None;
     ui_lead_origin := None; ui_lead_type := None |}.

Definition withLastTo (t : jsstring) : Ui :=
  {| ui_search := None; ui_status := None; ui_stage := None; ui_project := None;
     ui_owner := None; ui_priority := None; ui_follow_up := None;
     ui_last_contacted_from := None; ui_last_contacted_to := Some t;
     ui_location := None; ui_space_min := None; ui_space_max := None;
     ui_budget_min := None; ui_budget_max := None; ui_lead_source := None;
     ui_lead_origin := None; ui_lead_type := None |}.

(** A JSON string literal: the text between quotation marks. *)
Definition quoted (s : jsstring) : jsstring := [0x22] ++ s ++ [0x22].

(** A doctype whose last-contact field is a plain Date. *)
Definition dateFields : list DocField :=
  [ {| df_fieldname := js "status"; df_fieldtype := js "Select"; df_options := [] |};
    {| df_fieldname := js "last_contact_date"; df_fieldtype := js "Date"; df_options := [] |} ].

End Sample.

(** ** More of the JavaScript fragment: searching and splitting strings *)
Module JSText.
Import JS.

(** [s.startsWith(p)], the test behind [indexOf], [includes] and [split]. *)
Fixpoint startsWith (p s : jsstring) : bool :=
  match p, s with
  | [], _ => true
  | a :: p', b :: s' => (a =? b) && startsWith p' s'
  | _ :: _, [] => false
  end.

(** [s.includes(p)]. *)
Fixpoint includes (p s : jsstring) : bool :=
  startsWith p s || match s with [] => false | _ :: s' => includes p s' end.

(** [s.indexOf(c)] for a one-unit [c]; [None] is -1. *)
Fixpoint indexOf (c : N) (s : jsstring) : option nat :=
  match s with
  | [] => None
  | d :: s' => if d =? c then Some 0%nat else S <$> indexOf c s'
  end.

(** [s.split(sep)] for a separator of one unit or more: the pieces between
    the occurrences of [sep], found from the left without overlap. [skip]
    counts the units of a separator still to pass, [cur] is the piece being
    read. *)
Fixpoint splitFrom (sep : jsstring) (skip : nat) (cur : jsstring) (s : jsstring)
  : list jsstring :=
  match s with
  | [] => [cur]
  | c :: s' =>
    match skip with
    | S k => splitFrom sep k cur s'
    | O =>
      if startsWith sep s then cur :: splitFrom sep (length sep - 1) [] s'
      else splitFrom sep 0 (cur ++ [c]) s'
    end
  end.

Definition splitOn (sep s : jsstring) : list jsstring := splitFrom sep 0 [] s.

End JSText.

(** ** The Leads page: callbacks, watchers and the drawer reset *)
Module Events.
Import JS Leads.

(** *** [toTuples] *)

(** [f && (Array.isArray(f) || (f.fieldname && f.operator !== undefined))]. *)
Definition isTupleable (f : entry) : bool :=
  match f with
  | ENull => false
  | ETuple _ _ _ _ => true
  | EObject fn op _ => present fn && bool_decide (is_Some op)
  end.

(** [Array.isArray(f) ? f : [DOC, f.fieldname, f.operator, f.value]]. *)
Definition tupleOf (f : entry) : entry :=
  match f with
  | EObject fn op v => ETuple DOC (orEmpty fn) (orEmpty op) (Some (from_option id VUndefined v))
  | _ => f
  end.

Definition toTuples (filters : list entry) : list entry :=
  List.map tupleOf (List.filter isTupleable filters).

(** The tuple an array of length four hands to the controller. *)
Definition wireOf (f : entry) : option wire :=
  match f with
  | ETuple d fn op (Some v) => Some (d, fn, op, v)
  | _ => None
  end.

(** *** [applyLike] and [scheduleApply] *)

(** One turn of the loop of [applyLike]. *)
Definition likeStep (vc : ViewControls) (f : QuickFiltersBar.Like) : ViewControls :=
  if bool_decide (QuickFiltersBar.like_fieldname f = [])
     || bool_decide (QuickFiltersBar.like_value f = [])
  then vc
  else
    let payload :=
      mkFilter (QuickFiltersBar.like_fieldname f) (js "like")
               (VString (js "%" ++ QuickFiltersBar.like_value f ++ js "%")) in
    if has_applyLikeFilter vc then vc_applyLikeFilter payload vc
    else if has_applyFilter vc
    then vc_applyFilter (omap wireOf (toTuples [entryOf payload])) false vc
    else vc.

(** The callback that [applyLike(list)] hands to [scheduleApply]. *)
Definition applyLikeNow (list : list QuickFiltersBar.Like) (st : Page) : Page :=
  match viewControls st with
  | None => st
  | Some vc =>
    let st := withPagination st 1 20 in
    let vc := if has_clearLikeFilters vc then vc_clearLikeFilters vc else vc in
    match list with
    | [] => withViewControls st (vc_reload_opt vc)
    | _ :: _ => withViewControls st (vc_reload_opt (fold_left likeStep list vc))
    end
  end.

(** The page together with what waits to run: the callback of the animation
    frame requested by [scheduleApply] ([_raf]), the query kept in
    [pendingQueryFilters], the callbacks handed to [setTimeout], oldest first
    (all with the same delay, so they fire in that order), and whether
    [onMounted] has stored the controller ref in
    [window.__LEADS_VIEWCONTROLS__]. *)
Record State := {
  page : Page;
  raf : option (Page -> Page);
  pendingQueryFilters : option Query;
  timeouts : list (Page -> Page);
  exposed : bool
}.

Definition withPage (s : State) (p : Page) : State :=
  {| page := p; raf := raf s; pendingQueryFilters := pendingQueryFilters s;
     timeouts := timeouts s; exposed := exposed s |}.

(** [scheduleApply(fn)]: the callback that waits is cancelled, [fn] waits. *)
Definition scheduleApply (fn : Page -> Page) (s : State) : State :=
  {| page := page s; raf := Some fn; pendingQueryFilters := pendingQueryFilters s;
     timeouts := timeouts s; exposed := exposed s |}.

Definition applyLike (list : list QuickFiltersBar.Like) (s : State) : State :=
  scheduleApply (applyLikeNow list) s.

(** The animation frame comes: [_raf = 0; fn()]. *)
Definition animationFrame (s : State) : State :=
  match raf s with
  | Some fn =>
    {| page := fn (page s); raf := None; pendingQueryFilters := pendingQueryFilters s;
       timeouts := timeouts s; exposed := exposed s |}
  | None => s
  end.

(** *** The route query and the controller watcher *)

(** [viewControls.value = vc], by the template ref. *)
Definition setViewControls (vc : option ViewControls) (s : State) : State :=
  withPage s {| viewControls := vc; loadMore := loadMore (page s);
                updatedPageCount := updatedPageCount (page s); ui := ui (page s);
                showLeadModal := showLeadModal (page s);
                showFilters := showFilters (page s) |}.

Section Watchers.
Variable getLeadFields : list DocField.

(** The callback of [watch(() => route.query, ...)], run with the query [q]. *)
Definition routeQueryWatcher (query : Query) (s : State) : State :=
  match viewControls (page s) with
  | Some _ => withPage s (applyQueryFilters getLeadFields query (page s))
  | None =>
    {| page := page s; raf := raf s; pendingQueryFilters := Some query;
       timeouts := timeouts s; exposed := exposed s |}
  end.

(** The callback of [watch(() => viewControls.value, ...)], run with the new
    value [vc]. *)
Definition viewControlsWatcher (vc : option ViewControls) (s : State) : State :=
  match vc, pendingQueryFilters s with
  | Some _, Some query =>
    {| page := page s; raf := raf s; pendingQueryFilters := None;
       timeouts := timeouts s ++ [applyQueryFilters getLeadFields query];
       exposed := exposed s |}
  | _, _ => s
  end.

End Watchers.

(** The oldest [setTimeout] callback fires. *)
Definition timeoutFires (s : State) : State :=
  match timeouts s with
  | fn :: rest =>
    {| page := fn (page s); raf := raf s; pendingQueryFilters := pendingQueryFilters s;
       timeouts := rest; exposed := exposed s |}
  | [] => s
  end.

(** *** [clearDrawer] *)

(** The four properties [clearDrawer] writes that no filter function reads. *)
Record DrawerFlags := {
  owner_mode : jsstring;
  converted : jsstring;
  has_phone : bool;
  has_email : bool
}.

(** [Object.assign(ui, { ... })]: the numeric bounds become [null]. *)
Definition clearDrawer (u : Ui) : Ui * DrawerFlags :=
  ({| ui_search := ui_search u;
      ui_status := Some [];
      ui_stage := Some [];
      ui_project := Some [];
      ui_owner := ui_owner u;
      ui_priority := ui_priority u;
      ui_follow_up := ui_follow_up u;
      ui_last_contacted_from := Some [];
      ui_last_contacted_to := Some [];
      ui_location := Some [];
      ui_space_min := None;
      ui_space_max := None;
      ui_budget_min := None;
      ui_budget_max := None;
      ui_lead_source := Some [];
      ui_lead_origin := Some [];
      ui_lead_type := Some [] |},
   {| owner_mode := js "all"; converted := js "no"; has_phone := false; has_email := false |}).

End Events.

(** ** The Leads page: the other picker lists and row shaping *)
Module Shaping.
Import JS Leads.

(** [locationList]: [new Map(full.map(o => [o.value, o]))], then each seen
    entry whose value the map does not have. *)
Definition locationList (fullLocationCatalog seenLocations : list CatalogEntry)
  : list CatalogEntry :=
  let m := fold_left (fun m o => mapSet (opt_value o) o m) fullLocationCatalog [] in
  let m := fold_left (fun m o => if mapHas (opt_value o) m then m
                                 else mapSet (opt_value o) o m)
             seenLocations m in
  mapValues m.

(** [sourceList], [originList] and [typeList] have the body of
    [locationList], each over its own catalog and seen values. *)
Definition sourceList := locationList.
Definition originList := locationList.
Definition typeList := locationList.

(** The [delayed] cell of [parseRows]: [leadName] is [lead?.name], [stored]
    is [lead?.delayed], [delayedLookup] is [delayedMap.value]. *)
Definition delayedCell (delayedLookup : gmap jsstring bool)
    (leadName : option jsstring) (stored : jsvalue) : bool :=
  let docDelayed := truthy stored in
  let hasMapValue :=
    if present leadName then bool_decide (is_Some (delayedLookup !! orEmpty leadName))
    else false in
  if hasMapValue then from_option id false (delayedLookup !! orEmpty leadName)
  else docDelayed.

Section Grouping.

(** A raw row and what it holds under [groupByField.fieldname], a string or
    nothing; [parseRows] with the columns given; the translation [__]. *)
Context {Row Shaped : Type}.
Variable groupValue : Row -> option jsstring.
Variable parseRows : list Row -> result Shaped.
Variable translate : jsstring -> jsstring.

(** [filteredRows] for one option ([None]: a null option). On strings [==]
    is [===]. *)
Definition filteredRows (option : option jsstring) (listRows : list Row) : list Row :=
  if present option
  then List.filter (fun row => bool_decide (groupValue row = Some (orEmpty option))) listRows
  else List.filter (fun row => negb (present (groupValue row))) listRows.

(** [{ label, group, collapsed, rows }]; the [icon] added for the status
    field is left out. *)
Record Group := {
  g_label : jsstring;
  g_group : jsstring;
  g_collapsed : bool;
  g_rows : Shaped
}.

(** [groupDetail] for one option, for a field with the given [label]. *)
Definition groupDetail (listRows : list Row) (label : jsstring) (option : option jsstring)
  : result Group :=
  bind (parseRows (filteredRows option listRows)) (fun rows =>
    Return {| g_label := label;
              g_group := if present option then orEmpty option else translate (js " ");
              g_collapsed := false;
              g_rows := rows |}).

(** [getGroupedByRows(listRows, groupByField, columns)], for a field with the
    given [label] and [options]; an exception of [parseRows] ends the loop. *)
Definition getGroupedByRows (listRows : list Row) (label : jsstring)
    (options : list (option jsstring)) : result (list Group) :=
  fold_left
    (fun acc option =>
       bind acc (fun groupedRows =>
       bind (groupDetail listRows label option) (fun groupDetail =>
       Return (groupedRows ++ [groupDetail]))))
    options (Return []).

End Grouping.

End Shaping.

(** ** The bar inside the page *)
Module App.
Import JS Leads.

Section Wiring.
Variable getLeadFields : list DocField.

(** What the bar holds that the page does not set: [lists.project] and the
    session user. *)
Variable lists_project : list CatalogEntry.
Variable session_user : option jsstring.

(** The bar as the page template instantiates it: [v-model="ui"], the field
    props, and [window.__LEADS_VIEWCONTROLS__], which reads as the controller
    once [onMounted] has stored the ref there ([vcRef.value ?? vcRef]; the
    ref itself has none of the methods). *)
Definition barOf (s : Events.State) : QuickFiltersBar.Bar :=
  {| QuickFiltersBar.props :=
       {| QuickFiltersBar.statusField := js "status";
          QuickFiltersBar.projectField := PROJECT_FIELD getLeadFields;
          QuickFiltersBar.ownerField := js "lead_owner";
          QuickFiltersBar.lastContactField := df_fieldname (LAST_CONTACT_FIELD getLeadFields) |};
     QuickFiltersBar.model := ui (Events.page s);
     QuickFiltersBar.lists_project := lists_project;
     QuickFiltersBar.session_user := session_user;
     QuickFiltersBar.LEADS_VIEWCONTROLS :=
       if Events.exposed s then viewControls (Events.page s) else None |}.

(** [runSearchLike()] of the bar: [like-change] reaches [applyLike] of the
    page, and the direct fallback acts on the controller. *)
Definition runSearchLike (s : Events.State) : Events.State :=
  let '(payload, vc) := QuickFiltersBar.runSearchLike (barOf s) in
  let s := Events.applyLike payload s in
  match vc with
  | Some vc => Events.withPage s (withViewControls (Events.page s) vc)
  | None => s
  end.

(** [pushFilters()] of the bar: [filters-change] reaches [applyFilters] of
    the page, with its default [replace = false]; then [runSearchLike()]. *)
Definition pushFilters (s : Events.State) : Events.State :=
  let payload := QuickFiltersBar.buildFiltersPayload (barOf s) in
  runSearchLike
    (Events.withPage s (applyFilters (List.map entryOf payload) false (Events.page s))).

(** [clearAll()] of the bar: the six setters; the page has no handler for
    [clear-all]. *)
Definition clearAll (s : Events.State) : Events.State :=
  let u := ui (Events.page s) in
  Events.withPage s (withUi (Events.page s)
    {| ui_search := Some [];
       ui_status := Some [];
       ui_stage := ui_stage u;
       ui_project := Some [];
       ui_owner := Some [];
       ui_priority := ui_priority u;
       ui_follow_up := ui_follow_up u;
       ui_last_contacted_from := Some [];
       ui_last_contacted_to := Some [];
       ui_location := ui_location u;
       ui_space_min := ui_space_min u;
       ui_space_max := ui_space_max u;
       ui_budget_min := ui_budget_min u;
       ui_budget_max := ui_budget_max u;
       ui_lead_source := ui_lead_source u;
       ui_lead_origin := ui_lead_origin u;
       ui_lead_type := ui_lead_type u |}).

End Wiring.

End App.

(** ** The lead page: labels of the Payment Plans tab *)
Module LeadDoc.
Import JS Leads JSText.

(** [ownerShort(email)], for a string or nothing. *)
Definition ownerShort (email : option jsstring) : jsstring :=
  if present email then
    match indexOf 0x40 (orEmpty email) with
    | Some (S at_) => take (S at_) (orEmpty email)
    | _ => orEmpty email
    end
  else [].

(** The loop of [derivePlanLabel]; [doc f] is [doc[f]], a string or nothing. *)
Fixpoint firstLabel (doc : jsstring -> option jsstring) (fields : list jsstring) : jsstring :=
  match fields with
  | [] => []
  | f :: rest =>
    let v := trim (orEmpty (doc f)) in
    if negb (bool_decide (v = []))
    then (if str_eqb f (js "name") then [] else v)
    else firstLabel doc rest
  end.

Definition derivePlanLabel (doc : jsstring -> option jsstring) : jsstring :=
  firstLabel doc [js "plan_name"; js "title"; js "unit_name"; js "project_name"; js "name"].

End LeadDoc.

(** ** The subject of a comment: written by the dialog, read by the list view *)
Module Comments.
Import JS Leads JSText.

(** [typeOptions] of the dialog, as pairs of label and value. *)
Definition typeOptions : list (jsstring * jsstring) :=
  [ (js "Feedback", js "Comment"); (js "Task", js "Task"); (js "Call", js "Call");
    (js "WhatsApp", js "WhatsApp"); (js "Property Showing", js "Property Showing");
    (js "Office Visit", js "Office Visit"); (js "Meeting", js "Meeting") ].

(** The subject that [addComment] stores:
    [`${newType.value}:::${newTitle.value.trim()}`]. *)
Definition subjectOf (newType newTitle : jsstring) : jsstring :=
  newType ++ js ":::" ++ trim newTitle.

(** An activity, with the two properties [getParsedFeedback] reads. *)
Record Activity := {
  subject : option jsstring;
  comment_type : option jsstring
}.

(** [getParsedFeedback(activity)]: [{ type, title }]. The destructuring
    [[type, title] = subject.split(':::')] takes the first two pieces. *)
Definition getParsedFeedback (activity : Activity) : jsstring * jsstring :=
  let subject := orEmpty (subject activity) in
  if includes (js ":::") subject then
    let pieces := splitOn (js ":::") subject in
    let type := from_option id [] (pieces !! 0%nat) in
    let title := pieces !! 1%nat in
    (if str_eqb type (js "Comment") then js "Feedback" else type, orEmpty title)
  else
    (if bool_decide (comment_type activity = Some (js "Comment")) then js "Feedback"
     else if present (comment_type activity) then orEmpty (comment_type activity)
     else js "Feedback",
     subject).

(** The type filter of [filteredActivities], for one activity:
    [subject.split(':::')[0] === selectedType] when the subject has the
    separator, else [selectedType === 'Comment']. *)
Definition matchesType (selectedType : jsstring) (a : Activity) : bool :=
  let subject := orEmpty (subject a) in
  if includes (js ":::") subject
  then str_eqb (from_option id [] (splitOn (js ":::") subject !! 0%nat)) selectedType
  else str_eqb selectedType (js "Comment").

(** [filteredActivities], as far as the type filter goes. *)
Definition byType (selectedType : jsstring) (activities : list Activity) : list Activity :=
  if negb (str_eqb selectedType (js "All"))
  then List.filter (matchesType selectedType) activities
  else activities.

End Comments.

(** ** The status dot of the quick filter bar *)
Module BarLabels.
Import JS Leads JSText.

(** [/p/i.test(s)] for a pattern [p] of lower-case Basic Latin letters: the
    pattern occurs in [s], letter case apart. Without the flag [u] no unit
    outside the Basic Latin block matches a letter of the pattern. *)
Definition test (p s : jsstring) : bool := includes p (List.map lowerUnit s).

(** [statusDotClass], from the status selected in the bar. *)
Definition statusDotClass (status : jsstring) : jsstring :=
  if bool_decide (status = []) then js "bg-gray-300"
  else if test (js "qualif") status then js "bg-green-500"
  else if test (js "new") status then js "bg-blue-500"
  else if test (js "disqual") status || test (js "junk") status || test (js "not") status
  then js "bg-yellow-500"
  else js "bg-gray-400".

End BarLabels.

(** ** The list view: the WhatsApp link *)
Module ListView.
Import JS Leads.

(** [openWhatsApp(number)], for a string or nothing: the address handed to
    [window.open], or [None] when no window is opened. *)
Definition openWhatsApp (number : option jsstring) : option jsstring :=
  let phone := remove (fun c => negb (isDigit c)) (orEmpty number) in
  if negb (bool_decide (phone = [])) then Some (js "https://wa.me/" ++ phone) else None.

End ListView.

(** ** The assignment dialog *)
Module AssignTo.
Import JS Leads.

(** An entry of [assignees]: [{ name, image, label }]. *)
Record Assignee := {
  a_name : jsstring;
  a_image : option jsstring;
  a_label : option jsstring
}.

Section Dialog.

(** [getUser] of the users store. *)
Variable getUser : jsstring -> User.


(** [removeValue(value)] and [addValue(value)], on [assignees.value]. *)
Definition removeValue (value : jsstring) (assignees : list Assignee) : list Assignee :=
  List.filter (fun assignee => negb (str_eqb (a_name assignee) value)) assignees.






End Dialog.

End AssignTo.

(** ** Normal forms used by the proofs about the added functions *)
Module Forms.
Import JS Leads.

(** [m.get(k)] on a map kept in insertion order. *)
Definition assoc {V} (k : jsstring) (m : list (jsstring * V)) : option V :=
  snd <$> List.find (fun p => str_eqb p.1 k) m.

(** The entry that [norm] makes of a value. *)
Definition plain (v : jsstring) : CatalogEntry :=
  {| opt_label := v; opt_value := v; opt_color := None |}.

(** The entry that [normalizeOptions] makes of an element. *)
Definition optionOf (it : QuickFiltersBar.rawOption) : CatalogEntry :=
  match it with
  | QuickFiltersBar.RawText s => {| opt_label := s; opt_value := s; opt_color := None |}
  | QuickFiltersBar.RawObject l v n c =>
    {| opt_label := orEmpty (QuickFiltersBar.orElse l (QuickFiltersBar.orElse v n));
       opt_value := orEmpty (QuickFiltersBar.orElse v (QuickFiltersBar.orElse n l));
       opt_color := c |}
  end.

(** The wire tuple of a filter that needs no coercion. *)
Definition toWire (f : filter) : wire := (DOC, fieldname f, operator f, value f).

(** The wire tuple of a like payload entry. *)
Definition likeWire (f : QuickFiltersBar.Like) : wire :=
  (DOC, QuickFiltersBar.like_fieldname f, js "like",
   VString (js "%" ++ QuickFiltersBar.like_value f ++ js "%")).

(** A numeric bound as a list of one filter or none. *)
Definition numPart (n : option number) (fn op : jsstring) : list filter :=
  match n with
  | Some x => [mkFilter fn op (VNumber x)]
  | None => []
  end.

(** A number that is neither NaN nor below zero. *)
Definition nonNegative (x : number) : Prop :=
  match x with
  | Finite q => (0 <= Qnum q)%Z
  | PosInfinity => True
  | NaN | NegInfinity => False
  end.

(** The group a value falls in: the value itself, or the blank group for
    [null], [undefined] and the empty string. *)
Definition groupKey (x : option jsstring) : option jsstring :=
  if present x then x else None.

(** The object that [applyLikeFilter] receives for a like payload entry. *)
Definition likePayload (f : QuickFiltersBar.Like) : filter :=
  mkFilter (QuickFiltersBar.like_fieldname f) (js "like")
           (VString (js "%" ++ QuickFiltersBar.like_value f ++ js "%")).

(** The call that sends one like payload entry to a handle: [applyLikeFilter]
    when the handle has it, else [applyFilter] with the one tuple and
    [replace: false], else nothing. *)
Definition likeCall (vc : ViewControls) (f : QuickFiltersBar.Like) : list vcCall :=
  if has_applyLikeFilter vc then [ApplyLikeFilter (likePayload f)]
  else if has_applyFilter vc then [ApplyFilter [likeWire f] false]
  else [].

Definition reloadCall (vc : ViewControls) : list vcCall :=
  if has_reload vc then [Reload] else [].

Definition clearLikeCall (vc : ViewControls) : list vcCall :=
  if has_clearLikeFilters vc then [ClearLikeFilters] else [].

(** The call of the bar's fallback on a blank search: [clearLikeFilters], or
    [clearFilters] when the handle has only that. *)
Definition blankCall (vc : ViewControls) : list vcCall :=
  if has_clearLikeFilters vc then [ClearLikeFilters]
  else if has_clearFilters vc then [ClearFilters]
  else [].

(** The calls of the bar's direct fallback for a trimmed search text and its
    payload: the free-text branch sends its payload twice. *)
Definition directCalls (vc : ViewControls) (raw : jsstring)
    (payload : list QuickFiltersBar.Like) : list vcCall :=
  match raw with
  | [] => blankCall vc ++ reloadCall vc
  | _ :: _ =>
    (flat_map (likeCall vc) payload ++ reloadCall vc)
    ++ (if QuickFiltersBar.isDigits raw then []
        else flat_map (likeCall vc) payload ++ reloadCall vc)
  end.

(** The calls of the page's [applyLike] when the animation frame comes. *)
Definition frameCalls (vc : ViewControls) (payload : list QuickFiltersBar.Like) : list vcCall :=
  clearLikeCall vc ++ flat_map (likeCall vc) payload ++ reloadCall vc.

(** The calls of [applyFilters] for the tuples it has built. *)
Definition pushCalls (vc : ViewControls) (tuples : list wire) (replace : bool) : list vcCall :=
  match tuples with
  | [] => if has_clearFilters vc then ClearFilters :: reloadCall vc else []
  | _ :: _ =>
    if has_setFilters vc then [SetFilters tuples]
    else if has_applyFilter vc then [ApplyFilter tuples replace]
    else []
  end.

(** The same handle after some calls: the same methods. *)
Definition sameMethods (vc vc' : ViewControls) : Prop :=
  has_setFilters vc' = has_setFilters vc
  /\ has_applyFilter vc' = has_applyFilter vc
  /\ has_applyLikeFilter vc' = has_applyLikeFilter vc
  /\ has_clearFilters vc' = has_clearFilters vc
  /\ has_clearLikeFilters vc' = has_clearLikeFilters vc
  /\ has_reload vc' = has_reload vc.

(** The filter set that a log of calls installs over [filters], as far as the
    specification states the effect of a call: the tuples of the last
    replacing push ([setFilters], [applyFilter] with [replace: true],
    [clearFilters]), or [filters] when the log has none. The other calls do
    not count. *)
Definition installs (filters : list wire) (calls : list vcCall) : list wire :=
  fold_left (fun fs call =>
               match call with
               | SetFilters tuples | ApplyFilter tuples true => tuples
               | ClearFilters => []
               | _ => fs
               end) calls filters.

(** [vc'] is the handle [vc] after the calls [calls]. *)
Definition ran (vc : ViewControls) (calls : list vcCall) (vc' : ViewControls) : Prop :=
  sameMethods vc vc' /\ vc_calls vc' = vc_calls vc ++ calls.

End Forms.

(** ** Theorems *)
Import JS Leads.

(** *** Loops that push *)

(** A loop whose turn only appends to the array built so far yields the
    concatenation of what each turn appends. *)
Lemma fold_left_push {A B} (step : list B -> A -> list B) (l : list A) (acc : list B) :
  (forall out a, step out a = out ++ step [] a) ->
  fold_left step l acc = acc ++ flat_map (step []) l.
Proof.
  intros Hstep. revert acc.
  induction l as [|a l IH]; intros acc; simpl.
  - by rewrite app_nil_r.
  - rewrite IH, (Hstep acc a). by rewrite <- app_assoc.
Qed.

Lemma pushIf_app {A} (c : bool) (x : A) (F : list A) :
  pushIf c x F = F ++ (if c then [x] else []).
Proof. destruct c; simpl; [done | by rewrite app_nil_r]. Qed.

(** *** sanitizeFilters *)

Lemma sanitizeStep_push out f : sanitizeStep out f = out ++ sanitizeStep [] f.
Proof.
  unfold sanitizeStep. destruct f; simpl;
    repeat (match goal with |- context [if ?b then _ else _] => destruct b end);
    simpl; by rewrite ?app_nil_r.
Qed.

Lemma hasBothBounds_isRange v : Spec.hasBothBounds v = isRange v.
Proof.
  destruct v as [| | | | |items]; try done.
  destruct items as [|a [|b [|c r]]]; simpl; try done.
  by rewrite andb_true_r.
Qed.

Lemma sanitizeStep_retained f :
  sanitizeStep [] f = if Spec.retained f then [Spec.normalised f] else [].
Proof.
  unfold sanitizeStep, Spec.retained, Spec.normalised, Spec.isBetween.
  rewrite hasBothBounds_isRange.
  destruct f as [|fn op v|d fn op v]; [done| |];
    simpl; repeat case_bool_decide; simpl; try done;
    destruct (isBlank _); simpl; try done;
    destruct (str_eqb _ _); simpl; try done;
    destruct (isRange _); done.
Qed.

Lemma sanitizeFilters_filter arr :
  sanitizeFilters arr = List.map Spec.normalised (List.filter Spec.retained arr).
Proof.
  unfold sanitizeFilters.
  rewrite (fold_left_push _ _ _ sanitizeStep_push). simpl.
  induction arr as [|f arr IH]; [done|]. simpl.
  rewrite sanitizeStep_retained, IH. by destruct (Spec.retained f).
Qed.

Lemma retained_wellFormed f : Spec.retained f = true -> Spec.wellFormed (Spec.normalised f).
Proof.
  unfold Spec.retained, Spec.wellFormed, Spec.normalised, Spec.isBetween, str_eqb. simpl.
  rewrite !andb_true_iff, !negb_true_iff, !bool_decide_eq_false.
  intros [[[Hf Ho] Hv] Hb]. repeat split; try done.
  intros Hbetween. rewrite bool_decide_eq_true_2 in Hb by done.
  rewrite hasBothBounds_isRange in Hb.
  destruct (entryValue f) as [| | | | |items]; try done.
  destruct items as [|a [|b [|c r]]]; try done.
  simpl in Hb. apply andb_true_iff in Hb as [Ha Hb'].
  exists a, b. by rewrite !negb_true_iff in *.
Qed.

(** C1, corrected. [sanitizeFilters] returns, in order and normalised to
    [{fieldname, operator, value}], exactly the entries with a non-empty
    fieldname and operator whose value is neither null, undefined nor the
    empty string, whatever the operator (the presence check [is] included),
    and for the operator [between], in any letter case, only those whose value
    is a two-element array with neither element null or undefined; so every
    returned tuple is well formed in that sense. *)
Theorem sanitizeFilters_retains_exactly (arr : list entry) :
  sanitizeFilters arr = List.map Spec.normalised (List.filter Spec.retained arr)
  /\ Forall Spec.wellFormed (sanitizeFilters arr).
Proof.
  split; [apply sanitizeFilters_filter|].
  rewrite sanitizeFilters_filter.
  apply Forall_forall. intros f Hin.
  apply list_elem_of_In, in_map_iff in Hin as (e & <- & He).
  apply filter_In in He as [_ He]. by apply retained_wellFormed.
Qed.

(** C1 as the specification states it fails: an entry with the presence-check
    operator [is] and an empty value is dropped, although the claim exempts it. *)
Lemma sanitizeFilters_drops_blank_presence_check :
  let e := EObject (Some (js "_assign")) (Some (js "is")) (Some (VString [])) in
  List.map Spec.normalised (List.filter Spec.retainedAsClaimed [e]) = [Spec.normalised e]
  /\ sanitizeFilters [e] = [].
Proof. split; reflexivity. Qed.

(** *** applyFilters *)

Lemma tupleStep_push tuples f : tupleStep tuples f = tuples ++ tupleStep [] f.
Proof.
  unfold tupleStep. destruct f; simpl; rewrite ?app_nil_r; try done.
  destruct (negb _ || _); simpl; by rewrite ?app_nil_r.
Qed.

Lemma tupleStep_shape f t :
  t ∈ tupleStep [] f ->
  exists fn op v, f = EObject (Some fn) op (Some v) /\ fn <> [] /\ isBlank v = false
                  /\ t = Spec.wireFor fn op v.
Proof.
  unfold tupleStep. destruct f as [|fn op v|]; try (by intros ?%elem_of_nil).
  destruct fn as [[|c fn]|]; simpl; try (by intros ?%elem_of_nil).
  destruct v as [v|]; simpl; [|by intros ?%elem_of_nil].
  destruct (isBlank v) eqn:Hv; simpl; [by intros ?%elem_of_nil|].
  intros ->%list_elem_of_singleton.
  exists (c :: fn), op, v. repeat split; try done.
  unfold Spec.wireFor, str_eqb, DOC. by destruct op as [[|? ?]|].
Qed.

Lemma wireTuples_flat filters : wireTuples filters = flat_map (tupleStep []) filters.
Proof. unfold wireTuples. by rewrite (fold_left_push _ _ _ tupleStep_push). Qed.

Lemma wireTuples_shape filters :
  Forall (fun t => exists fn op v,
            EObject (Some fn) op (Some v) ∈ filters /\ fn <> [] /\ isBlank v = false
            /\ t = Spec.wireFor fn op v)
         (wireTuples filters).
Proof.
  rewrite wireTuples_flat. apply Forall_forall. intros t Hin.
  apply list_elem_of_In, in_flat_map in Hin as (f & Hf & Ht).
  apply list_elem_of_In, tupleStep_shape in Ht as (fn & op & v & -> & ? & ? & ->).
  exists fn, op, v. by rewrite list_elem_of_In.
Qed.

Lemma Forall_if_singleton {A} (P : A -> Prop) (b : bool) (x : A) :
  (b = true -> P x) -> Forall P (if b then [x] else []).
Proof. destruct b; intros H; [|constructor]. constructor; [by apply H | constructor]. Qed.

(** What [applyFilters] hands to the controller. *)
Lemma applyFilters_issued filters replace st :
  Spec.issued st (applyFilters filters replace st) = [] \/
  Spec.issued st (applyFilters filters replace st) = [SetFilters (wireTuples filters)] \/
  Spec.issued st (applyFilters filters replace st) = [ApplyFilter (wireTuples filters) replace] \/
  (wireTuples filters = [] /\
   Forall (fun c => c = ClearFilters \/ c = Reload) (Spec.issued st (applyFilters filters replace st))).
Proof.
  unfold Spec.issued, Spec.callLog, applyFilters.
  destruct (viewControls st) as [vc|] eqn:Hvc; [|left; by rewrite Hvc].
  destruct (wireTuples filters) as [|t ts] eqn:Ht.
  - right; right; right. split; [done|].
    destruct (has_clearFilters vc); simpl; [|by rewrite Hvc, drop_all].
    unfold vc_reload_opt. simpl.
    destruct (has_reload vc); simpl;
      rewrite <- ?app_assoc, drop_app_length;
      simpl; repeat (constructor; [by auto|]); constructor.
  - destruct (has_setFilters vc); simpl.
    { right; left. by rewrite drop_app_length. }
    destruct (has_applyFilter vc); simpl.
    { right; right; left. by rewrite drop_app_length. }
    left. by rewrite Hvc, drop_all.
Qed.

(** C10. Every tuple that [applyFilters] builds is
    [['CRM Lead', fieldname, operator, value]] for an input object with a
    non-empty fieldname and a value other than null, undefined and the empty
    string: the operator is the input operator lower-cased, [=] when the input
    has none, and for the field [delayed] the value is the number 1 when the
    input value is truthy and the number 0 when it is falsy, never a boolean
    or a string. These tuples are what the controller receives, and the
    [delayed] filter that [applyQueryFilters] builds carries 1 or 0 as well. *)
Theorem applyFilters_wire_shape (filters : list entry) (replace : bool) (st : Page)
    (fields : list DocField) (query : Query) :
  Forall (fun t => exists fn op v,
            EObject (Some fn) op (Some v) ∈ filters /\ fn <> [] /\ isBlank v = false
            /\ t = (js "CRM Lead", fn,
                    toLowerCase (match op with Some (c :: o) => c :: o | _ => js "=" end),
                    if bool_decide (fn = js "delayed")
                    then VNumber (Finite (if truthy v then 1 else 0)) else v))
         (wireTuples filters)
  /\ Forall (fun t => t.1.1.2 = js "delayed" ->
                      t.2 = VNumber (Finite 1) \/ t.2 = VNumber (Finite 0))
            (wireTuples filters)
  /\ Forall (fun c => match c with
                      | SetFilters ts | ApplyFilter ts _ => ts = wireTuples filters
                      | _ => True
                      end)
            (Spec.issued st (applyFilters filters replace st))
  /\ Forall (fun f => fieldname f = js "delayed" ->
                      operator f = js "=" /\
                      (value f = VNumber (Finite 1) \/ value f = VNumber (Finite 0)))
            (queryFilters fields query).
Proof.
  repeat split.
  - apply wireTuples_shape.
  - eapply Forall_impl; [apply wireTuples_shape|].
    intros t (fn & op & v & _ & _ & _ & ->). unfold Spec.wireFor. simpl. intros ->.
    rewrite bool_decide_eq_true_2 by done. destruct (truthy v); auto.
  - destruct (applyFilters_issued filters replace st) as [-> | [-> | [-> | [_ H]]]];
      repeat constructor.
    eapply Forall_impl; [exact H|]. by intros c [-> | ->].
  - unfold queryFilters. rewrite !pushIf_app. simpl.
    rewrite !Forall_app.
    repeat split; apply Forall_if_singleton; simpl; intros _ H;
      try (by vm_compute in H).
    + split; [done|]. destruct (delayedValue _); auto.
    + revert H. unfold PROJECT_FIELD.
      repeat (destruct (hasField _ _)); intros H; by vm_compute in H.
Qed.

(** *** applyQueryFilters *)

Lemma PROJECT_FIELD_cases fields :
  PROJECT_FIELD fields = js "real_estate_project" \/ PROJECT_FIELD fields = js "project".
Proof. unfold PROJECT_FIELD. repeat (destruct (hasField _ _)); auto. Qed.

(** C2. For the route query [{status: 'New', project: 'P1'}],
    [applyQueryFilters] builds the list [status = New], [<project field> = P1]
    in that order and hands it to [applyFilters] with [replace = true]: on a
    live controller that has [setFilters] or [applyFilter], the one call made
    is [setFilters(tuples)] or [applyFilter({filters: tuples, replace: true})]
    with the two wire tuples, and the active filter set afterwards is exactly
    these two tuples, whatever it was before. *)
Theorem applyQueryFilters_status_project
    (fields : list DocField) (st : Page) (vc : ViewControls)
    (Hvc : viewControls st = Some vc)
    (Hcan : has_setFilters vc || has_applyFilter vc = true) :
  let query :=
    {| q_status := Some (js "New"); q_type := None; q_priority := None;
       q_follow_up := None; q_delayed := VUndefined;
       q_project := Some (js "P1"); q_user := None; q_create := None |} in
  let tuples :=
    [ (js "CRM Lead", js "status", js "=", VString (js "New"));
      (js "CRM Lead", PROJECT_FIELD fields, js "=", VString (js "P1")) ] in
  queryFilters fields query =
    [ {| fieldname := js "status"; operator := js "="; value := VString (js "New") |};
      {| fieldname := PROJECT_FIELD fields; operator := js "="; value := VString (js "P1") |} ]
  /\ (Spec.issued st (applyQueryFilters fields query st) = [SetFilters tuples]
      \/ Spec.issued st (applyQueryFilters fields query st) = [ApplyFilter tuples true])
  /\ Spec.activeFilters (applyQueryFilters fields query st) = tuples.
Proof.
  intros query tuples.
  assert (HF : queryFilters fields query =
    [ mkFilter (js "status") (js "=") (VString (js "New"));
      mkFilter (PROJECT_FIELD fields) (js "=") (VString (js "P1")) ]) by reflexivity.
  assert (HT : wireTuples (List.map entryOf (queryFilters fields query)) = tuples).
  { rewrite HF. subst tuples.
    destruct (PROJECT_FIELD_cases fields) as [-> | ->]; reflexivity. }
  split; [exact HF|].
  unfold applyQueryFilters, Spec.issued, Spec.activeFilters, Spec.callLog.
  rewrite HF. cbn [present q_create query]. rewrite <- HF.
  unfold applyFilters. cbn [viewControls withUi].
  rewrite Hvc, HT. subst tuples. cbn [viewControls withPagination withViewControls].
  destruct (has_setFilters vc); simpl in Hcan |- *.
  - rewrite drop_app_length. auto.
  - rewrite Hcan. simpl. rewrite drop_app_length. auto.
Qed.

(** The theorem at work: a controller with [setFilters] and an old [priority]
    filter ends with the two query tuples only. *)
Lemma applyQueryFilters_status_project_witness :
  let old := [(js "CRM Lead", js "priority", js "=", VString (js "High"))] in
  let vc := {| has_setFilters := true; has_applyFilter := true; has_applyLikeFilter := true;
               has_clearFilters := true; has_clearLikeFilters := true; has_reload := true;
               vc_filters := old; vc_calls := [] |} in
  let st := {| viewControls := Some vc; loadMore := 3; updatedPageCount := 60;
               ui := Sample.blankUi; showLeadModal := false; showFilters := false |} in
  let query :=
    {| q_status := Some (js "New"); q_type := None; q_priority := None;
       q_follow_up := None; q_delayed := VUndefined;
       q_project := Some (js "P1"); q_user := None; q_create := None |} in
  Spec.activeFilters (applyQueryFilters [] query st) =
    [ (js "CRM Lead", js "status", js "=", VString (js "New"));
      (js "CRM Lead", js "real_estate_project", js "=", VString (js "P1")) ].
Proof.
  intros old vc st query.
  exact (proj2 (proj2 (applyQueryFilters_status_project [] st vc eq_refl eq_refl))).
Defined.

(** *** Trimming *)

Lemma trimStart_sub s c : c ∈ trimStart s -> c ∈ s.
Proof.
  induction s as [|d s IH]; simpl; [done|].
  destruct (isWhiteSpace d); [|done].
  intros H. apply elem_of_cons. right. by apply IH.
Qed.

Lemma trimStart_keeps s c : c ∈ s -> isWhiteSpace c = false -> c ∈ trimStart s.
Proof.
  induction s as [|d s IH]; simpl; [done|].
  intros [-> | Hin]%elem_of_cons Hc.
  - rewrite Hc. apply elem_of_cons. by left.
  - destruct (isWhiteSpace d); [by apply IH|]. apply elem_of_cons. by right.
Qed.

Lemma elem_of_rev {A} (l : list A) (x : A) : x ∈ rev l <-> x ∈ l.
Proof. rewrite !list_elem_of_In. symmetry. apply in_rev. Qed.

Lemma trim_sub s c : c ∈ trim s -> c ∈ s.
Proof.
  unfold trim, trimEnd. rewrite elem_of_rev.
  intros H%trimStart_sub. rewrite elem_of_rev in H. by apply trimStart_sub.
Qed.

Lemma trim_keeps s c : c ∈ s -> isWhiteSpace c = false -> c ∈ trim s.
Proof.
  intros Hin Hc. unfold trim, trimEnd. rewrite elem_of_rev.
  apply trimStart_keeps; [|done]. rewrite elem_of_rev. by apply trimStart_keeps.
Qed.

Lemma forallb_trim (P : N -> bool) s : forallb P s = true -> forallb P (trim s) = true.
Proof.
  rewrite !forallb_forall. intros H c Hc. apply H.
  by apply list_elem_of_In, trim_sub, list_elem_of_In.
Qed.

(** *** runSearchLike *)

(** C3, corrected. Let [raw] be the search text trimmed. When [raw] is not
    empty and the text is made only of digits (ASCII or Arabic-Indic), white
    space and the signs plus, minus and parentheses, [runSearchLike] emits
    exactly three like payloads, for [mobile_no], [phone] and [other_phone] in
    that order, each carrying the digit-normalised [raw]. When the text has a
    unit outside that class, it emits exactly one payload, [first_name] with
    [raw]. When [raw] is empty, white space only included, it emits the empty
    payload. *)
Theorem runSearchLike_payload (b : QuickFiltersBar.Bar) :
  let s := QuickFiltersBar.search b in
  let emitted := fst (QuickFiltersBar.runSearchLike b) in
  (trim s <> [] -> forallb QuickFiltersBar.isPhoneUnit s = true ->
   emitted =
     [ {| QuickFiltersBar.like_fieldname := js "mobile_no";
          QuickFiltersBar.like_value := QuickFiltersBar.normalizeDigits (trim s) |};
       {| QuickFiltersBar.like_fieldname := js "phone";
          QuickFiltersBar.like_value := QuickFiltersBar.normalizeDigits (trim s) |};
       {| QuickFiltersBar.like_fieldname := js "other_phone";
          QuickFiltersBar.like_value := QuickFiltersBar.normalizeDigits (trim s) |} ])
  /\ (forallb QuickFiltersBar.isPhoneUnit s = false ->
      emitted = [ {| QuickFiltersBar.like_fieldname := js "first_name";
                     QuickFiltersBar.like_value := trim s |} ])
  /\ (trim s = [] -> emitted = []).
Proof.
  intros s emitted. subst emitted. unfold QuickFiltersBar.runSearchLike. fold s.
  repeat split.
  - intros Hne Hall.
    destruct (trim s) as [|c r] eqn:Hraw; [done|].
    assert (Hd : QuickFiltersBar.isDigits (c :: r) = true).
    { unfold QuickFiltersBar.isDigits. rewrite <- Hraw.
      rewrite (forallb_trim _ _ Hall), Hraw. done. }
    by rewrite Hd.
  - intros Hout.
    assert (exists c, c ∈ s /\ QuickFiltersBar.isPhoneUnit c = false) as (c & Hc & Hu).
    { clear -Hout. induction s as [|d s IH]; [done|]. simpl in Hout.
      destruct (QuickFiltersBar.isPhoneUnit d) eqn:Hd.
      - destruct (IH Hout) as (c & ? & ?). exists c. split; [|done].
        apply elem_of_cons. by right.
      - exists d. split; [|done]. apply elem_of_cons. by left. }
    assert (Hws : isWhiteSpace c = false).
    { unfold QuickFiltersBar.isPhoneUnit in Hu. by destruct (isWhiteSpace c). }
    pose proof (trim_keeps s c Hc Hws) as Hin.
    destruct (trim s) as [|c0 r] eqn:Hraw; [by apply elem_of_nil in Hin|].
    assert (Hd : QuickFiltersBar.isDigits (c0 :: r) = false).
    { unfold QuickFiltersBar.isDigits. apply andb_false_iff. right.
      apply not_true_is_false. intros Hall. rewrite forallb_forall in Hall.
      apply list_elem_of_In, Hall in Hin. congruence. }
    by rewrite Hd.
  - by intros ->.
Qed.

(** The theorem at work on the specification's example, a phone number in
    Arabic-Indic digits with spaces. *)
Lemma runSearchLike_payload_witness :
  let b := Sample.bar (Sample.withSearch (js "٠١٠ ١٢٣ ٤٥٦٧")) in
  fst (QuickFiltersBar.runSearchLike b) =
    [ {| QuickFiltersBar.like_fieldname := js "mobile_no";
         QuickFiltersBar.like_value := js "010 123 4567" |};
      {| QuickFiltersBar.like_fieldname := js "phone";
         QuickFiltersBar.like_value := js "010 123 4567" |};
      {| QuickFiltersBar.like_fieldname := js "other_phone";
         QuickFiltersBar.like_value := js "010 123 4567" |} ].
Proof.
  intros b.
  refine (proj1 (runSearchLike_payload b) _ _); [by vm_compute | by vm_compute].
Defined.

(** C3 as the specification states it fails on a search text of spaces: it is
    not empty and made of white space only, yet no payload is emitted. *)
Lemma runSearchLike_blank_search_emits_nothing :
  let b := Sample.bar (Sample.withSearch (js "   ")) in
  QuickFiltersBar.search b <> []
  /\ forallb QuickFiltersBar.isPhoneUnit (QuickFiltersBar.search b) = true
  /\ fst (QuickFiltersBar.runSearchLike b) = [].
Proof. repeat split; by vm_compute. Qed.

(** *** Code units *)

Arguments isWhiteSpace : simpl never.
Arguments isDigit : simpl never.
Arguments isArabicDigit : simpl never.
Arguments isComma : simpl never.
Arguments lowerUnit : simpl never.
Arguments arabicToAscii : simpl never.
Arguments QuickFiltersBar.isPhoneUnit : simpl never.
Arguments Aux.isNumeral : simpl never.

(** Rewrites every comparison of the goal to the truth value that linear
    arithmetic gives it. *)
Ltac settle_units :=
  repeat match goal with
  | |- context [N.eqb ?a ?b] =>
    first [ rewrite (proj2 (N.eqb_eq a b)) by lia | rewrite (proj2 (N.eqb_neq a b)) by lia ]
  | |- context [N.leb ?a ?b] =>
    first [ rewrite (proj2 (N.leb_le a b)) by lia | rewrite (proj2 (N.leb_gt a b)) by lia ]
  | _ => progress cbn [andb orb negb]
  end.

Ltac range_hyps :=
  repeat match goal with
  | H : _ && _ = true |- _ => apply andb_true_iff in H as [? ?]
  | H : (_ <=? _) = true |- _ => apply N.leb_le in H
  | H : (_ =? _) = true |- _ => apply N.eqb_eq in H
  end.

Lemma lowerUnit_preserves (P : N -> bool) c :
  (forall d, 0x41 <= d <= 0x5A -> P d = false /\ P (d + 32) = false) ->
  P (lowerUnit c) = P c.
Proof.
  intros H. unfold lowerUnit.
  destruct ((0x41 <=? c) && (c <=? 0x5A)) eqn:E; [|done].
  range_hyps. destruct (H c) as [-> ->]; [lia | done].
Qed.

Lemma arabicToAscii_preserves (P : N -> bool) c :
  (forall d, 0x660 <= d <= 0x669 -> P d = false /\ P (d - 0x660 + 0x30) = false) ->
  P (arabicToAscii c) = P c.
Proof.
  intros H. unfold arabicToAscii, isArabicDigit.
  destruct ((0x660 <=? c) && (c <=? 0x669)) eqn:E; [|done].
  range_hyps. destruct (H c) as [-> ->]; [lia | done].
Qed.

Lemma arabicToAscii_ws c : isWhiteSpace (arabicToAscii c) = isWhiteSpace c.
Proof.
  apply arabicToAscii_preserves. intros d Hd. unfold isWhiteSpace. split; by settle_units.
Qed.

Lemma arabicToAscii_comma c : isComma (arabicToAscii c) = isComma c.
Proof.
  apply arabicToAscii_preserves. intros d Hd. unfold isComma. split; by settle_units.
Qed.

(** *** Removing a class of units *)

Lemma remove_map (P : N -> bool) (f : N -> N) s :
  (forall c, P (f c) = P c) -> remove P (List.map f s) = List.map f (remove P s).
Proof.
  intros H. unfold remove. induction s as [|c s IH]; [done|]. simpl.
  rewrite H. destruct (P c); simpl; by rewrite IH.
Qed.

Lemma remove_comm (P Q : N -> bool) s : remove P (remove Q s) = remove Q (remove P s).
Proof.
  unfold remove. induction s as [|c s IH]; [done|]. simpl.
  destruct (P c) eqn:HP, (Q c) eqn:HQ; simpl; rewrite ?HP, ?HQ; simpl; by rewrite IH.
Qed.

Lemma remove_idem (P : N -> bool) s : remove P (remove P s) = remove P s.
Proof.
  unfold remove. induction s as [|c s IH]; [done|]. simpl.
  destruct (P c) eqn:HP; simpl; rewrite ?HP; simpl; by rewrite IH.
Qed.

Lemma remove_none (P : N -> bool) s : forallb (fun c => negb (P c)) s = true -> remove P s = s.
Proof.
  unfold remove. induction s as [|c s IH]; [done|]. simpl.
  intros [-> Hs]%andb_true_iff. by rewrite IH.
Qed.

Lemma remove_ws_trimStart s : remove isWhiteSpace (trimStart s) = remove isWhiteSpace s.
Proof.
  unfold remove. induction s as [|c s IH]; [done|]. simpl.
  destruct (isWhiteSpace c) eqn:E; simpl; [exact IH |]. by rewrite E.
Qed.

Lemma remove_ws_trim s : remove isWhiteSpace (trim s) = remove isWhiteSpace s.
Proof.
  unfold trim, trimEnd.
  assert (Hrev : forall t, remove isWhiteSpace (rev t) = rev (remove isWhiteSpace t))
    by (intros t; apply filter_rev).
  by rewrite Hrev, remove_ws_trimStart, <- Hrev, rev_involutive, remove_ws_trimStart.
Qed.

(** *** Lower-casing, as far as toNum reads it *)

Arguments Aux.lowerRead : simpl never.
Arguments Aux.isRead : simpl never.

Lemma lowerRead_preserves (P : N -> bool) c :
  (forall d, 0x41 <= d <= 0x5A -> P d = false /\ P (d + 32) = false) ->
  P 0x212A = false -> P 0x6B = false ->
  P (Aux.lowerRead c) = P c.
Proof.
  intros H HK Hk. unfold Aux.lowerRead.
  destruct (c =? 0x212A) eqn:E; [|by apply lowerUnit_preserves].
  apply N.eqb_eq in E as ->. by rewrite HK, Hk.
Qed.

Lemma lowerRead_ws c : isWhiteSpace (Aux.lowerRead c) = isWhiteSpace c.
Proof.
  apply lowerRead_preserves; [|done|done].
  intros d Hd. unfold isWhiteSpace. split; by settle_units.
Qed.

Lemma lowerRead_comma c : isComma (Aux.lowerRead c) = isComma c.
Proof.
  apply lowerRead_preserves; [|done|done].
  intros d Hd. unfold isComma. split; by settle_units.
Qed.

Lemma arabicToAscii_lower_idem c :
  arabicToAscii (Aux.lowerRead (arabicToAscii c)) = arabicToAscii (Aux.lowerRead c).
Proof.
  destruct (isArabicDigit c) eqn:E.
  - unfold isArabicDigit in E. range_hyps.
    unfold Aux.lowerRead, lowerUnit, arabicToAscii, isArabicDigit. by settle_units.
  - unfold arabicToAscii at 2. by rewrite E.
Qed.

(** Membership in a table of ranges, and a property checked on every unit of
    every range. *)
Lemma inRanges_spec ranges c :
  inRanges ranges c = true <-> exists a b, In (a, b) ranges /\ a <= c <= b.
Proof.
  unfold inRanges. rewrite existsb_exists. split.
  - intros [[a b] [Hin H]]. exists a, b. split; [done|]. range_hyps. lia.
  - intros (a & b & Hin & H). exists (a, b). split; [done|].
    apply andb_true_iff. split; apply N.leb_le; lia.
Qed.

Lemma isRead_ranges c : Aux.isRead c = true <-> inRanges Aux.readRanges c = true.
Proof.
  unfold Aux.isRead, isWhiteSpace, isComma, isArabicDigit, Aux.isNumeral, isDigit,
    inRanges, Aux.readRanges.
  cbn [existsb].
  rewrite !orb_true_iff, !andb_true_iff, !N.leb_le, !N.eqb_eq. lia.
Qed.

(** The units from [a] to [b]. *)
Lemma units_between_spec a b c :
  a <= c <= b -> In c (List.map (fun i => a + N.of_nat i) (List.seq 0 (S (N.to_nat (b - a))))).
Proof.
  intros H. apply in_map_iff. exists (N.to_nat (c - a)). split; [lia|].
  apply in_seq. lia.
Qed.

Lemma ranges_forall (P : N -> bool) ranges :
  forallb (fun '(a, b) =>
             forallb P (List.map (fun i => a + N.of_nat i) (List.seq 0 (S (N.to_nat (b - a))))))
          ranges = true ->
  forall c, inRanges ranges c = true -> P c = true.
Proof.
  intros H c (a & b & Hin & Hc)%inRanges_spec.
  rewrite forallb_forall in H. specialize (H _ Hin). cbn beta iota in H.
  rewrite forallb_forall in H. by apply H, units_between_spec.
Qed.

(** The tables, read through [find]. *)
Lemma simpleLower_cases c :
  simpleLower c = c
  \/ exists first last step target,
       In (first, last, step, target) lowerRuns /\ first <= c <= last
       /\ simpleLower c = target + (c - first).
Proof.
  unfold simpleLower.
  destruct (List.find (inRun c) lowerRuns) as [[[[f l] st] t]|] eqn:E; [|by left].
  right. apply find_some in E as [Hin Hrun]. exists f, l, st, t.
  unfold inRun in Hrun. range_hyps. repeat split; [done | lia | lia].
Qed.

Lemma runs_unread run : In run lowerRuns -> Aux.runUnread run = true.
Proof.
  assert (H : forallb Aux.runUnread lowerRuns = true) by (by vm_compute).
  rewrite forallb_forall in H. apply H.
Qed.

(** A unit that [toNum] reads is lower-cased as [lowerRead] says. *)
Lemma simpleLower_read c :
  Aux.isRead (Aux.lowerRead c) = true -> simpleLower c = Aux.lowerRead c.
Proof.
  intros H.
  assert (Hin : inRanges (Aux.readRanges ++ [(0x42, 0x42); (0x4B, 0x4B); (0x4D, 0x4D);
                                             (0x212A, 0x212A)]) c = true).
  { revert H.
    unfold Aux.lowerRead, lowerUnit, Aux.isRead, isWhiteSpace, isComma, isArabicDigit,
      Aux.isNumeral, isDigit, inRanges, Aux.readRanges.
    cbn [existsb app].
    destruct (c =? 0x212A) eqn:EK; [apply N.eqb_eq in EK | apply N.eqb_neq in EK].
    - intros _. subst c. by vm_compute.
    - destruct ((0x41 <=? c) && (c <=? 0x5A)) eqn:E.
      + range_hyps.
        rewrite !orb_true_iff, !andb_true_iff, !N.leb_le, !N.eqb_eq. lia.
      + rewrite !orb_true_iff, !andb_true_iff, !N.leb_le, !N.eqb_eq. lia. }
  apply N.eqb_eq. clear H. revert c Hin.
  apply (ranges_forall (fun c => simpleLower c =? Aux.lowerRead c)). by vm_compute.
Qed.

(** Whatever else it rewrites, it makes nothing that [toNum] reads. *)
Lemma simpleLower_unread c :
  Aux.isRead (Aux.lowerRead c) = false -> Aux.isRead (simpleLower c) = false.
Proof.
  intros H.
  assert (HK : c <> 0x212A) by (intros ->; by vm_compute in H).
  assert (Hc : (0x41 <= c <= 0x5A -> Aux.lowerRead c = c + 32)
               /\ (~ 0x41 <= c <= 0x5A -> Aux.lowerRead c = c)).
  { unfold Aux.lowerRead, lowerUnit. rewrite (proj2 (N.eqb_neq c 0x212A) HK).
    destruct ((0x41 <=? c) && (c <=? 0x5A)) eqn:E.
    - split; [done|]. intros Hn. range_hyps. lia.
    - split; [|done]. intros Hr. apply andb_false_iff in E as [E | E];
        apply N.leb_gt in E; lia. }
  destruct Hc as [Hup Hsame].
  destruct (simpleLower_cases c) as [-> | (f & l & st & t & Hin & Hr & ->)].
  - destruct (decide (0x41 <= c <= 0x5A)) as [Hr | Hr]; [|by rewrite <- (Hsame Hr)].
    apply not_true_iff_false. intros Hread%isRead_ranges%inRanges_spec.
    destruct Hread as (a & b & Hab & Hcab).
    cbn in Hab. repeat (destruct Hab as [[= <- <-] | Hab]; [lia|]). done.
  - pose proof (runs_unread _ Hin) as Hrun. unfold Aux.runUnread in Hrun.
    apply orb_true_iff in Hrun as [Hrun | Hrun];
      [apply orb_true_iff in Hrun as [Hrun | Hrun] |].
    + range_hyps. subst f l t. rewrite <- H. f_equal. rewrite Hup by lia. lia.
    + range_hyps. lia.
    + apply andb_true_iff in Hrun as [_ Hrun]. rewrite forallb_forall in Hrun.
      apply not_true_iff_false. intros Hread%isRead_ranges%inRanges_spec.
      destruct Hread as (a & b & Hab & Hcab).
      specialize (Hrun _ Hab). cbn beta iota in Hrun.
      apply orb_true_iff in Hrun as [Hlt | Hlt]; apply N.ltb_lt in Hlt; lia.
Qed.

(** The code units of a code point that is not read are not read. *)
Lemma codeUnits_unread cp :
  Aux.isRead cp = false ->
  codeUnits cp <> [] /\ Forall (fun c => Aux.isRead c = false) (codeUnits cp).
Proof.
  intros H. unfold codeUnits.
  destruct ((0x10000 <=? cp) && (cp <=? 0x10FFFF)) eqn:E; [|split; [done | by constructor]].
  range_hyps. split; [done|].
  assert (Hq : (cp - 0x10000) / 1024 <= 0x3FF).
  { change 0x3FF with (0xFFFFF / 1024). apply N.Div0.div_le_mono. lia. }
  assert (Hr : (cp - 0x10000) mod 1024 < 1024) by (apply N.mod_lt; lia).
  assert (Hun : forall u, 0xD800 <= u <= 0xDFFF -> Aux.isRead u = false).
  { intros u Hu. apply not_true_iff_false. intros Hread%isRead_ranges%inRanges_spec.
    destruct Hread as (a & b & Hab & Hcab). cbn in Hab.
    repeat (destruct Hab as [[= <- <-] | Hab]; [lia|]). done. }
  revert Hq Hr. generalize ((cp - 0x10000) / 1024), ((cp - 0x10000) mod 1024).
  intros q r Hq Hr.
  constructor; [apply Hun; lia|]. constructor; [apply Hun; lia|]. constructor.
Qed.

(** One code point: a unit that [toNum] reads becomes what [lowerRead] says,
    any other code point becomes units that [toNum] does not read. *)
Lemma lowerPoint_read behind c rest :
  Aux.isRead (Aux.lowerRead c) = true ->
  flat_map codeUnits (lowerPoint behind c rest) = [Aux.lowerRead c].
Proof.
  intros H. pose proof (simpleLower_read c H) as Hlow.
  assert (Hr : inRanges Aux.readRanges (Aux.lowerRead c) = true) by by apply isRead_ranges.
  apply inRanges_spec in Hr as (a & b & Hab & Hc).
  assert (Hsmall : Aux.lowerRead c <= 0xFEFF).
  { cbn in Hab. repeat (destruct Hab as [[= <- <-] | Hab]; [lia|]). done. }
  assert (Hne : c <> 0x3A3 /\ c <> 0x130).
  { split; intros ->; by vm_compute in H. }
  unfold lowerPoint.
  rewrite (proj2 (N.eqb_neq c 0x3A3)), (proj2 (N.eqb_neq c 0x130)) by tauto.
  cbn [flat_map app]. rewrite Hlow. unfold codeUnits.
  rewrite (proj2 (N.leb_gt 0x10000 (Aux.lowerRead c))) by lia. done.
Qed.

Lemma lowerPoint_unread behind cp rest :
  Aux.isRead (Aux.lowerRead cp) = false ->
  flat_map codeUnits (lowerPoint behind cp rest) <> []
  /\ Forall (fun c => Aux.isRead c = false) (flat_map codeUnits (lowerPoint behind cp rest)).
Proof.
  intros H. unfold lowerPoint.
  destruct (cp =? 0x3A3).
  { destruct (behind && negb (casedAhead rest)); split; try done;
      (constructor; [by vm_compute | constructor]). }
  destruct (cp =? 0x130).
  { split; [done|]. constructor; [by vm_compute|]. constructor; [by vm_compute | constructor]. }
  cbn [flat_map]. rewrite app_nil_r. by apply codeUnits_unread, simpleLower_unread.
Qed.

Lemma lowerPoints_cons behind cp rest :
  flat_map codeUnits (lowerPoints behind (cp :: rest))
  = flat_map codeUnits (lowerPoint behind cp rest)
    ++ flat_map codeUnits (lowerPoints (if caseIgnorable cp then behind else cased cp) rest).
Proof. cbn [lowerPoints]. by rewrite flat_map_app. Qed.

Lemma surrogate_unread c :
  0xD800 <= c <= 0xDFFF -> Aux.lowerRead c = c /\ Aux.isRead c = false.
Proof.
  intros H. split.
  - unfold Aux.lowerRead, lowerUnit. by settle_units.
  - apply not_true_iff_false. intros Hread%isRead_ranges%inRanges_spec.
    destruct Hread as (a & b & Hab & Hcab). cbn in Hab.
    repeat (destruct Hab as [[= <- <-] | Hab]; [lia|]). done.
Qed.

Lemma supplementary_unread cp : 0x10000 <= cp -> Aux.isRead (Aux.lowerRead cp) = false.
Proof.
  intros H.
  assert (Hs : Aux.lowerRead cp = cp) by (unfold Aux.lowerRead, lowerUnit; by settle_units).
  rewrite Hs. apply not_true_iff_false. intros Hread%isRead_ranges%inRanges_spec.
  destruct Hread as (a & b & Hab & Hcab). cbn in Hab.
  repeat (destruct Hab as [[= <- <-] | Hab]; [lia|]). done.
Qed.

(** [toLowerCase] and [lowerRead] give texts that [toNum] reads alike. *)
Lemma lowerPoints_reading n :
  forall s behind, (length s <= n)%nat ->
  Aux.sameReading (List.map Aux.lowerRead s)
                  (flat_map codeUnits (lowerPoints behind (codePoints s))).
Proof.
  induction n as [|n IH]; intros s behind Hlen.
  { destruct s; [constructor | simpl in Hlen; lia]. }
  assert (Hone : forall c r, (length r <= n)%nat ->
            Aux.sameReading (List.map Aux.lowerRead (c :: r))
              (flat_map codeUnits (lowerPoints behind (c :: codePoints r)))).
  { intros c r Hr. rewrite lowerPoints_cons. cbn [List.map].
    destruct (Aux.isRead (Aux.lowerRead c)) eqn:Hread.
    - rewrite (lowerPoint_read _ _ _ Hread). cbn [app]. apply Aux.sameReading_unit, IH, Hr.
    - destruct (lowerPoint_unread behind c (codePoints r) Hread) as [Hne Hun].
      apply (Aux.sameReading_run [Aux.lowerRead c]); [done | done | | done | by apply IH].
      by constructor. }
  destruct s as [|c [|d r]]; [constructor | |].
  - apply (Hone c []). simpl. lia.
  - cbn [codePoints].
    destruct (isLeadSurrogate c && isTrailSurrogate d) eqn:E;
      [|apply (Hone c (d :: r)); simpl in Hlen |- *; lia].
    unfold isLeadSurrogate, isTrailSurrogate in E. range_hyps.
    rewrite lowerPoints_cons. cbn [List.map].
    destruct (surrogate_unread c) as [-> Hc]; [lia|].
    destruct (surrogate_unread d) as [-> Hd]; [lia|].
    set (cp := 0x10000 + (c - 0xD800) * 1024 + (d - 0xDC00)).
    destruct (lowerPoint_unread behind cp (codePoints r)) as [Hne Hun].
    { apply supplementary_unread. unfold cp. lia. }
    apply (Aux.sameReading_run [c; d]); [done | done | | done |].
    + by repeat constructor.
    + apply IH. simpl in Hlen. lia.
Qed.

Lemma toLowerCase_reading s : Aux.sameReading (List.map Aux.lowerRead s) (toLowerCase s).
Proof. unfold toLowerCase. by apply (lowerPoints_reading (length s)). Qed.

(** *** Texts that toNum reads alike *)

Lemma unread_facts c :
  Aux.isRead c = false ->
  isWhiteSpace c = false /\ isComma c = false /\ isArabicDigit c = false
  /\ Aux.isNumeral c = false /\ c <> 0x6B /\ c <> 0x6D /\ c <> 0x62.
Proof.
  unfold Aux.isRead. rewrite !orb_false_iff, !N.eqb_neq. tauto.
Qed.

Lemma sameReading_app l s t : Aux.sameReading s t -> Aux.sameReading (l ++ s) (l ++ t).
Proof. intros H. induction l as [|c l IH]; [done|]. by apply Aux.sameReading_unit. Qed.

(** The steps of [toNum] before the suffix test keep the reading. *)
Lemma pipeline_app s t :
  remove isComma (remove isWhiteSpace (replaceArabicDigits (s ++ t)))
  = remove isComma (remove isWhiteSpace (replaceArabicDigits s))
    ++ remove isComma (remove isWhiteSpace (replaceArabicDigits t)).
Proof. unfold replaceArabicDigits, remove. by rewrite List.map_app, !List.filter_app. Qed.

Lemma pipeline_unread b :
  Forall (fun c => Aux.isRead c = false) b ->
  remove isComma (remove isWhiteSpace (replaceArabicDigits b)) = b.
Proof.
  induction 1 as [|c b Hc _ IH]; [done|].
  apply unread_facts in Hc as (Hw & Hm & Ha & _).
  change (c :: b) with ([c] ++ b). rewrite pipeline_app, IH. f_equal.
  unfold replaceArabicDigits, remove, arabicToAscii. cbn [List.map List.filter].
  rewrite Ha. cbn [List.filter]. rewrite Hw. cbn [negb List.filter]. by rewrite Hm.
Qed.

Lemma sameReading_pipeline s t :
  Aux.sameReading s t ->
  Aux.sameReading (remove isComma (remove isWhiteSpace (replaceArabicDigits s)))
                  (remove isComma (remove isWhiteSpace (replaceArabicDigits t))).
Proof.
  induction 1 as [|c s t _ IH|b b' s t Hb Hb' Hun Hun' _ IH]; [constructor| |].
  - change (c :: s) with ([c] ++ s). change (c :: t) with ([c] ++ t).
    rewrite !pipeline_app. by apply sameReading_app.
  - rewrite !pipeline_app, (pipeline_unread b), (pipeline_unread b') by done.
    by apply Aux.sameReading_run.
Qed.

(** What [toNum] makes of a residue rests on its numerals and on its last unit. *)
Lemma sameReading_numerals r r' :
  Aux.sameReading r r' -> List.filter Aux.isNumeral r = List.filter Aux.isNumeral r'.
Proof.
  assert (Hnone : forall b, Forall (fun c => Aux.isRead c = false) b ->
                            List.filter Aux.isNumeral b = []).
  { induction 1 as [|c b Hc _ IH]; [done|]. cbn [List.filter].
    apply unread_facts in Hc as (_ & _ & _ & -> & _). done. }
  induction 1 as [|c s t _ IH|b b' s t _ _ Hun Hun' _ IH]; [done| |].
  - cbn [List.filter]. by rewrite IH.
  - by rewrite !List.filter_app, (Hnone b), (Hnone b'), IH.
Qed.

Lemma sameReading_last r r' :
  Aux.sameReading r r' ->
  last r = last r'
  \/ exists d d', last r = Some d /\ last r' = Some d'
                  /\ Aux.isRead d = false /\ Aux.isRead d' = false.
Proof.
  assert (Hlast : forall b : jsstring, b <> [] -> Forall (fun c => Aux.isRead c = false) b ->
                    exists d, last b = Some d /\ Aux.isRead d = false).
  { intros b Hb Hun. destruct (last b) as [d|] eqn:E; [|by apply last_None in E].
    exists d. split; [done|]. rewrite Forall_forall in Hun. apply Hun.
    apply last_Some in E as [b0 ->]. apply elem_of_app. right. by apply list_elem_of_here. }
  induction 1 as [|c s t _ IH|b b' s t Hb Hb' Hun Hun' _ IH]; [by left| |].
  - rewrite !last_cons. destruct IH as [-> | (d & d' & -> & -> & Hd)]; [by left|].
    right. by exists d, d'.
  - rewrite !last_app. destruct IH as [E | (d & d' & -> & -> & Hd)].
    + rewrite E. destruct (last t); [by left|].
      destruct (Hlast b Hb Hun) as (d & -> & Hd), (Hlast b' Hb' Hun') as (d' & -> & Hd').
      right. by exists d, d'.
    + right. by exists d, d'.
Qed.

Lemma sameReading_endsWith r r' c :
  Aux.sameReading r r' -> Aux.isRead c = true -> endsWith r c = endsWith r' c.
Proof.
  intros H Hc. unfold endsWith.
  destruct (sameReading_last _ _ H) as [-> | (d & d' & -> & -> & Hd & Hd')]; [done|].
  rewrite (proj2 (N.eqb_neq d c)), (proj2 (N.eqb_neq d' c)); [done | |]; congruence.
Qed.

Lemma filter_removelast_suffix (P : N -> bool) r c :
  endsWith r c = true -> P c = false -> List.filter P (removelast r) = List.filter P r.
Proof.
  unfold endsWith. intros H Hc. destruct (last r) as [d|] eqn:E; [|done].
  apply N.eqb_eq in H as ->. apply last_Some in E as [r0 ->].
  rewrite removelast_last, List.filter_app. cbn [List.filter]. rewrite Hc.
  by rewrite app_nil_r.
Qed.

Lemma readResidue_numerals r :
  Aux.readResidue r =
    match List.filter Aux.isNumeral r with
    | [] => None
    | _ :: _ => Aux.scaled (List.filter Aux.isNumeral r) (splitSuffix r).1
    end.
Proof.
  unfold Aux.readResidue, Aux.scaled.
  assert (Hsame : forall s, remove (fun c => negb (Aux.isNumeral c)) s
                            = List.filter Aux.isNumeral s).
  { intros s. unfold remove. apply List.filter_ext. intros c. apply negb_involutive. }
  assert (Hdrop : (splitSuffix r).2 = r
                  \/ exists c, endsWith r c = true /\ Aux.isNumeral c = false
                               /\ (splitSuffix r).2 = removelast r).
  { unfold splitSuffix, dropLast.
    destruct (endsWith r 0x6B) eqn:Ek; [right; by exists 0x6B|].
    destruct (endsWith r 0x6D) eqn:Em; [right; by exists 0x6D|].
    destruct (endsWith r 0x62) eqn:Eb; [right; by exists 0x62|]. by left. }
  destruct (splitSuffix r) as [mult s]. cbn [fst snd] in *. rewrite Hsame.
  assert (Hf : List.filter Aux.isNumeral s = List.filter Aux.isNumeral r).
  { destruct Hdrop as [-> | (c & Hc & Hn & ->)]; [done|].
    by apply (filter_removelast_suffix _ _ c). }
  rewrite Hf. by destruct (List.filter Aux.isNumeral r).
Qed.

Lemma readResidue_sameReading r r' :
  Aux.sameReading r r' -> Aux.readResidue r = Aux.readResidue r'.
Proof.
  intros H. rewrite !readResidue_numerals, (sameReading_numerals _ _ H).
  assert (Hs : (splitSuffix r).1 = (splitSuffix r').1).
  { unfold splitSuffix.
    rewrite (sameReading_endsWith _ _ 0x6B H), (sameReading_endsWith _ _ 0x6D H),
      (sameReading_endsWith _ _ 0x62 H) by done.
    by repeat destruct (endsWith r' _). }
  by rewrite Hs.
Qed.
(** *** toNum *)

Lemma residue_trim s : Aux.residue (trim s) = Aux.residue s.
Proof.
  unfold Aux.residue, replaceArabicDigits.
  rewrite !(remove_map isWhiteSpace) by (apply arabicToAscii_ws || apply lowerRead_ws).
  by rewrite remove_ws_trim.
Qed.

(** [toNum] reads its argument as it reads the residue: what [toLowerCase]
    makes of a unit that is not read changes nothing. *)
Lemma toNum_residue s :
  toNum (Some s) = match s with [] => None | _ :: _ => Aux.readResidue (Aux.residue s) end.
Proof.
  destruct s as [|c s]; [done|].
  set (v := c :: s).
  transitivity (Aux.readResidue
    (remove isComma (remove isWhiteSpace (replaceArabicDigits (toLowerCase (trim v)))))).
  { unfold toNum, Aux.readResidue. fold v. destruct (splitSuffix _) as [mult r].
    unfold Aux.isNumeral. by destruct (remove _ r). }
  rewrite <- (residue_trim v). unfold Aux.residue. symmetry.
  apply readResidue_sameReading, sameReading_pipeline, toLowerCase_reading.
Qed.

(** Arabic-Indic digits read as the ASCII digits. *)
Lemma toNum_arabic s : toNum (Some (replaceArabicDigits s)) = toNum (Some s).
Proof.
  rewrite !toNum_residue.
  destruct s as [|c s]; [done|]. cbn [replaceArabicDigits List.map].
  f_equal. unfold Aux.residue. do 2 f_equal.
  change (arabicToAscii c :: List.map arabicToAscii s) with (List.map arabicToAscii (c :: s)).
  unfold replaceArabicDigits. rewrite !List.map_map.
  apply List.map_ext. intros d. apply arabicToAscii_lower_idem.
Qed.

(** Commas and Arabic commas are skipped wherever they stand. *)
Lemma residue_remove_comma s : Aux.residue (remove isComma s) = Aux.residue s.
Proof.
  unfold Aux.residue, replaceArabicDigits.
  rewrite <- !(remove_map isComma) by (apply arabicToAscii_comma || apply lowerRead_comma).
  by rewrite (remove_comm isWhiteSpace), remove_idem.
Qed.

Lemma residue_only_commas s : remove isComma s = [] -> Aux.residue s = [].
Proof. intros H. by rewrite <- residue_remove_comma, H. Qed.

Lemma toNum_separators s : toNum (Some (remove isComma s)) = toNum (Some s).
Proof.
  rewrite !toNum_residue, residue_remove_comma.
  destruct (remove isComma s) eqn:Hr, s; try done.
  by rewrite (residue_only_commas _ Hr).
Qed.

(** A numeral, that is digits and full stops only, passes unchanged up to
    the suffix test. *)
Lemma residue_numeral s : forallb Aux.isNumeral s = true -> Aux.residue s = s.
Proof.
  intros H. unfold Aux.residue, replaceArabicDigits.
  assert (Hmap : forall f, (forall c, Aux.isNumeral c = true -> f c = c) -> List.map f s = s).
  { intros f Hf. induction s as [|c s IH]; [done|]. simpl in H |- *.
    apply andb_true_iff in H as [Hc Hs]. by rewrite (Hf c Hc), IH. }
  assert (Hunit : forall c, Aux.isNumeral c = true -> 0x2E <= c <= 0x39).
  { intros c. unfold Aux.isNumeral, isDigit.
    intros [?| ?]%orb_true_iff; range_hyps; lia. }
  rewrite (Hmap Aux.lowerRead), (Hmap arabicToAscii).
  - rewrite (remove_none isWhiteSpace s), (remove_none isComma s); [done| |];
      (apply forallb_forall; intros c Hc; rewrite forallb_forall in H;
       apply H, Hunit in Hc; unfold isComma, isWhiteSpace; by settle_units).
  - intros c Hc%Hunit. unfold arabicToAscii, isArabicDigit. by settle_units.
  - intros c Hc%Hunit. unfold Aux.lowerRead, lowerUnit. by settle_units.
Qed.

Lemma residue_app s t : Aux.residue (s ++ t) = Aux.residue s ++ Aux.residue t.
Proof.
  unfold Aux.residue, replaceArabicDigits, remove.
  by rewrite !List.map_app, !List.filter_app.
Qed.

Lemma forallb_negb_negb (P : N -> bool) s :
  forallb (fun c => negb (negb (P c))) s = forallb P s.
Proof. induction s as [|c s IH]; [done|]. simpl. by rewrite negb_involutive, IH. Qed.

Lemma numeral_last_not_suffix s c :
  forallb Aux.isNumeral s = true -> 0x3A <= c -> endsWith s c = false.
Proof.
  intros H Hc. unfold endsWith. destruct (last s) as [d|] eqn:Hl; [|done].
  apply last_Some in Hl as [s' ->].
  rewrite forallb_app in H. apply andb_true_iff in H as [_ H]. simpl in H.
  rewrite andb_true_r in H. unfold Aux.isNumeral, isDigit in H.
  apply orb_true_iff in H as [?|?]; range_hyps; apply N.eqb_neq; lia.
Qed.

Lemma readResidue_numeral s :
  forallb Aux.isNumeral s = true ->
  Aux.readResidue s =
    match s with
    | [] => None
    | _ :: _ => if isFinite (StringToNumber s) then Some (mul (StringToNumber s) (Finite 1))
                else None
    end.
Proof.
  intros H. unfold Aux.readResidue, splitSuffix.
  rewrite !(numeral_last_not_suffix s) by (done || lia).
  rewrite remove_none; [by destruct s|].
  by rewrite forallb_negb_negb.
Qed.

Lemma readResidue_suffix s c mult :
  forallb Aux.isNumeral s = true ->
  splitSuffix (s ++ [c]) = (mult, s) ->
  Aux.readResidue (s ++ [c]) =
    match s with
    | [] => None
    | _ :: _ => if isFinite (StringToNumber s) then Some (mul (StringToNumber s) mult)
                else None
    end.
Proof.
  intros H Hs. unfold Aux.readResidue. rewrite Hs.
  rewrite remove_none; [by destruct s|].
  by rewrite forallb_negb_negb.
Qed.

Lemma splitSuffix_k s : splitSuffix (s ++ [0x6B]) = (Finite 1000, s).
Proof. unfold splitSuffix, endsWith, dropLast. by rewrite last_snoc, removelast_last. Qed.

Lemma splitSuffix_m s : splitSuffix (s ++ [0x6D]) = (Finite 1000000, s).
Proof. unfold splitSuffix, endsWith, dropLast. by rewrite last_snoc, removelast_last. Qed.

Lemma splitSuffix_b s : splitSuffix (s ++ [0x62]) = (Finite 1000000000, s).
Proof. unfold splitSuffix, endsWith, dropLast. by rewrite last_snoc, removelast_last. Qed.

(** The value of a numeral, as [toNum] returns it under a multiplier. *)
Lemma toNum_numeral_suffix s c mult :
  s <> [] -> forallb Aux.isNumeral s = true ->
  Aux.residue [c] = [c] -> splitSuffix (s ++ [c]) = (mult, s) ->
  toNum (Some (s ++ [c])) =
    if isFinite (StringToNumber s) then Some (mul (StringToNumber s) mult) else None.
Proof.
  intros Hne H Hc Hs. rewrite toNum_residue, residue_app, Hc, (residue_numeral _ H).
  rewrite (readResidue_suffix _ _ _ H Hs).
  destruct s; [done|]. done.
Qed.

(** A text without a digit yields [null]. *)
Lemma no_digit_unit c :
  Aux.notDigit c = true -> isDigit (arabicToAscii (Aux.lowerRead c)) = false.
Proof.
  unfold Aux.notDigit. intros [Hd Ha]%andb_true_iff.
  apply negb_true_iff in Hd, Ha.
  unfold Aux.lowerRead, lowerUnit. destruct (c =? 0x212A); [by vm_compute|].
  destruct ((0x41 <=? c) && (c <=? 0x5A)) eqn:E.
  - range_hyps. unfold arabicToAscii, isArabicDigit, isDigit. by settle_units.
  - unfold arabicToAscii. by rewrite Ha.
Qed.

Lemma residue_no_digit s :
  forallb Aux.notDigit s = true -> Forall (fun c => isDigit c = false) (Aux.residue s).
Proof.
  intros H. unfold Aux.residue, remove, replaceArabicDigits.
  apply Forall_forall. intros c Hc.
  apply list_elem_of_In, filter_In in Hc as [Hc _].
  apply filter_In in Hc as [Hc _].
  rewrite List.map_map in Hc. apply in_map_iff in Hc as (d & <- & Hd).
  rewrite forallb_forall in H. by apply no_digit_unit, H.
Qed.

Lemma Forall_removelast {A} (P : A -> Prop) (l : list A) :
  Forall P l -> Forall P (removelast l).
Proof.
  induction 1 as [|x l Hx Hl IH]; [constructor|]. simpl.
  destruct l; [constructor|]. by constructor.
Qed.

Lemma StringToNumber_stops s :
  s <> [] -> Forall (fun c => c = 0x2E) s -> StringToNumber s = NaN.
Proof.
  intros Hne H. destruct H as [|c s -> Hs]; [done|].
  unfold StringToNumber. simpl.
  destruct Hs as [|d s -> Hs]; done.
Qed.

Lemma readResidue_no_digit r :
  Forall (fun c => isDigit c = false) r -> Aux.readResidue r = None.
Proof.
  intros H. unfold Aux.readResidue.
  assert (Hs : Forall (fun c => isDigit c = false) (splitSuffix r).2).
  { unfold splitSuffix, dropLast.
    repeat (destruct (endsWith _ _)); simpl; auto using Forall_removelast. }
  destruct (splitSuffix r) as [mult r']. simpl in Hs.
  assert (Hdots : Forall (fun c => c = 0x2E) (remove (fun c => negb (Aux.isNumeral c)) r')).
  { apply Forall_forall. intros c Hc. apply list_elem_of_In, filter_In in Hc as [Hc Hn].
    rewrite Forall_forall in Hs. apply list_elem_of_In, Hs in Hc.
    rewrite negb_involutive in Hn. unfold Aux.isNumeral in Hn. rewrite Hc in Hn.
    by apply N.eqb_eq in Hn. }
  destruct (remove _ r') as [|c s'] eqn:Hr; [done|].
  by rewrite (StringToNumber_stops (c :: s')).
Qed.

Lemma toNum_no_digit s : forallb Aux.notDigit s = true -> toNum (Some s) = None.
Proof.
  intros H. rewrite toNum_residue. destruct s; [done|].
  by apply readResidue_no_digit, residue_no_digit.
Qed.

(** The general law: [toNum] reads the numerals of the residue under the
    multiplier that its last unit selects, and gives [null] only when no
    numeral is left or the numerals are not a finite number. *)
Lemma toNum_numerals s :
  toNum (Some s) =
    match Aux.numerals s with
    | [] => None
    | _ :: _ => Aux.scaled (Aux.numerals s) (Aux.multiplier s)
    end.
Proof.
  rewrite toNum_residue. destruct s as [|c s]; [done|].
  by rewrite readResidue_numerals.
Qed.

(** C4, corrected. [toNum] reads "1.5m" as 1500000, "2,000" as 2000 and
    "abc" as [null]; Arabic-Indic digits read as the ASCII digits; commas and
    Arabic commas are skipped; a numeral (digits and full stops) followed by
    [k], [m] or [b] is [Number(numeral)] times 1e3, 1e6 or 1e9 when that
    number is finite and [null] otherwise (two full stops, say); [null], the
    empty string and every text without a digit give [null]. Malformed input
    is not refused: of any text [toNum] reads the digits and full stops that
    are left once it is lower-cased and everything else is dropped, under the
    multiplier of the last unit that is neither white space nor a separator,
    and it gives [null] exactly when nothing is left or what is left is not a
    finite number. *)
Theorem toNum_coercion :
  toNum (Some (js "1.5m")) = Some (Finite 1500000)
  /\ toNum (Some (js "2,000")) = Some (Finite 2000)
  /\ toNum (Some (js "abc")) = None
  /\ toNum (Some (js "٢،٥٠٠")) = Some (Finite 2500)
  /\ (forall s, toNum (Some (replaceArabicDigits s)) = toNum (Some s))
  /\ (forall s, toNum (Some (remove isComma s)) = toNum (Some s))
  /\ (forall s, s <> [] -> forallb Aux.isNumeral s = true ->
        toNum (Some s) = Aux.scaled s (Finite 1)
        /\ toNum (Some (s ++ js "k")) = Aux.scaled s (Finite 1000)
        /\ toNum (Some (s ++ js "m")) = Aux.scaled s (Finite 1000000)
        /\ toNum (Some (s ++ js "b")) = Aux.scaled s (Finite 1000000000))
  /\ (forall s, forallb Aux.notDigit s = true -> toNum (Some s) = None)
  /\ toNum None = None
  /\ toNum (Some []) = None
  /\ (forall s, toNum (Some s) =
                match Aux.numerals s with
                | [] => None
                | _ :: _ => Aux.scaled (Aux.numerals s) (Aux.multiplier s)
                end)
  /\ (forall s, toNum (Some s) = None
                <-> Aux.numerals s = []
                    \/ isFinite (StringToNumber (Aux.numerals s)) = false).
Proof.
  split; [by vm_compute|]. split; [by vm_compute|]. split; [by vm_compute|].
  split; [by vm_compute|].
  split; [exact toNum_arabic|]. split; [exact toNum_separators|].
  split; [|split; [exact toNum_no_digit | split; [done | split; [done|]]]].
  - intros s Hne H. unfold Aux.scaled. repeat split.
    + rewrite toNum_residue, (residue_numeral _ H), (readResidue_numeral _ H).
      by destruct s.
    + apply toNum_numeral_suffix; [done | done | by vm_compute | apply splitSuffix_k].
    + apply toNum_numeral_suffix; [done | done | by vm_compute | apply splitSuffix_m].
    + apply toNum_numeral_suffix; [done | done | by vm_compute | apply splitSuffix_b].
  - split; [exact toNum_numerals|].
    intros s. rewrite toNum_numerals. unfold Aux.scaled.
    destruct (Aux.numerals s) as [|c n]; [by split; [left|] |].
    destruct (isFinite (StringToNumber (c :: n))); split; try done.
    + by intros [? | ?].
    + by right.
Qed.

(** C4 as the specification states it fails: these three texts are none of
    the inputs it lists, yet [toNum] reads a number from each, the letters,
    the exponent mark and the sign being dropped. *)
Lemma toNum_reads_malformed_numerals :
  Spec.parseable (js "12abc") = false /\ toNum (Some (js "12abc")) = Some (Finite 12)
  /\ Spec.parseable (js "1e5") = false /\ toNum (Some (js "1e5")) = Some (Finite 15)
  /\ Spec.parseable (js "10-20") = false /\ toNum (Some (js "10-20")) = Some (Finite 1020).
Proof. repeat split; by vm_compute. Qed.

(** The theorem at work: the numeral "12.5" under each suffix. *)
Lemma toNum_coercion_witness :
  toNum (Some (js "12.5")) = Some (Finite (25 # 2))
  /\ toNum (Some (js "12.5k")) = Some (Finite 12500)
  /\ toNum (Some (js "12.5m")) = Some (Finite 12500000)
  /\ toNum (Some (js "12.5b")) = Some (Finite 12500000000)
  /\ toNum (Some (js "n/a")) = None
  /\ toNum (Some (js "1.2.3")) = None.
Proof.
  destruct toNum_coercion as (_ & _ & _ & _ & _ & _ & Hsuffix & Hnone & _ & _ & _ & Hnull).
  destruct (Hsuffix (js "12.5")) as (H1 & Hk & Hm & Hb); [done | by vm_compute |].
  split; [exact H1 |]. split; [exact Hk |]. split; [exact Hm |]. split; [exact Hb |].
  split; [apply Hnone; by vm_compute |].
  apply Hnull. right. by vm_compute.
Defined.

(** *** The upper bound of the last-contact range *)

(** In the drawer, the bound is widened exactly when the last-contact field
    is a Datetime field, in any letter case of the field type. *)
Lemma panelEnd_datetime fields t :
  toLowerCase (df_fieldtype (LAST_CONTACT_FIELD fields)) = js "datetime" ->
  panelEnd fields t = t ++ js " 23:59:59".
Proof. intros H. unfold panelEnd, str_eqb. by rewrite bool_decide_eq_true_2. Qed.

Lemma panelEnd_date fields t :
  toLowerCase (df_fieldtype (LAST_CONTACT_FIELD fields)) <> js "datetime" ->
  panelEnd fields t = t.
Proof. intros H. unfold panelEnd, str_eqb. by rewrite bool_decide_eq_false_2. Qed.

(** In the quick filter bar, the bound is widened whatever the field is. *)
Lemma buildFiltersPayload_upper_bound b :
  QuickFiltersBar.lastTo b <> [] ->
  last (QuickFiltersBar.buildFiltersPayload b) =
    Some {| fieldname := QuickFiltersBar.lastContact b; operator := js "<=";
            value := VString (QuickFiltersBar.lastTo b ++ js " 23:59:59") |}.
Proof.
  intros H. unfold QuickFiltersBar.buildFiltersPayload, QuickFiltersBar.nonEmpty.
  rewrite (bool_decide_eq_false_2 _ H). cbn [negb]. by rewrite last_snoc.
Qed.

(** C5, a defect of the quick filter bar. On a doctype whose last-contact
    field is a plain Date, the drawer keeps the bare date as the upper bound,
    while the quick filter bar, which never sees the field type, widens the
    same date to the end of the day. *)
Theorem quick_bar_widens_date_field :
  let fields := Sample.dateFields in
  let u := Sample.withLastTo (js "2024-01-10") in
  let b :=
    {| QuickFiltersBar.props :=
         Sample.pageProps (PROJECT_FIELD fields) (df_fieldname (LAST_CONTACT_FIELD fields));
       QuickFiltersBar.model := u;
       QuickFiltersBar.lists_project := [];
       QuickFiltersBar.session_user := None;
       QuickFiltersBar.LEADS_VIEWCONTROLS := None |} in
  df_fieldtype (LAST_CONTACT_FIELD fields) = js "Date"
  /\ panelFilters fields u =
       [ {| fieldname := js "last_contact_date"; operator := js "<=";
            value := VString (js "2024-01-10") |} ]
  /\ QuickFiltersBar.buildFiltersPayload b =
       [ {| fieldname := js "last_contact_date"; operator := js "<=";
            value := VString (js "2024-01-10 23:59:59") |} ].
Proof. repeat split; by vm_compute. Qed.

(** *** buildFiltersPayload *)

Lemma find_value_elem (pv : jsstring) (l : list CatalogEntry) :
  is_Some (List.find (fun p => str_eqb (opt_value p) pv) l) <-> pv ∈ List.map opt_value l.
Proof.
  induction l as [|p l IH]; simpl.
  - split; [by intros [? ?] | by intros ?%elem_of_nil].
  - unfold str_eqb at 1. rewrite elem_of_cons. case_bool_decide as Hp.
    + split; [intros _; by left | by eauto].
    + rewrite IH. split; [by right | by intros [? | ?]].
Qed.

Lemma buildFiltersPayload_projectPart b filters :
  (if QuickFiltersBar.nonEmpty (QuickFiltersBar.projectValue b) then
     let pv := trim (QuickFiltersBar.projectValue b) in
     let MAX_LEN := 300%nat in
     let allowed := List.find (fun p => str_eqb (opt_value p) pv)
                              (QuickFiltersBar.normalizedProjectList b) in
     if QuickFiltersBar.nonEmpty pv && bool_decide (length pv <= MAX_LEN)%nat
        && bool_decide (is_Some allowed)
     then filters ++ [mkFilter (QuickFiltersBar.projectField (QuickFiltersBar.props b))
                               (js "=") (VString pv)]
     else filters
   else filters) = filters ++ Spec.projectPart b.
Proof.
  unfold Spec.projectPart, QuickFiltersBar.nonEmpty. cbv zeta.
  destruct (decide (Spec.projectAllowed b)) as [Hall|Hall].
  - rewrite (bool_decide_eq_true_2 _ Hall).
    destruct Hall as (Hpv & Hlen & Hfind). apply find_value_elem in Hfind.
    assert (QuickFiltersBar.projectValue b <> []) as Hne by (by intros E; rewrite E in Hpv).
    by rewrite !bool_decide_eq_false_2, !bool_decide_eq_true_2 by done.
  - rewrite (bool_decide_eq_false_2 _ Hall), app_nil_r.
    repeat (case_bool_decide; simpl; try done).
    destruct Hall. repeat split; try done. by apply find_value_elem.
Qed.

(** C6, corrected. The payload of the quick filter bar is the owner tuple,
    the status tuple, the project tuple and the two range tuples, in that
    order, each present at most once. The status and each bound of the range
    give exactly one tuple when non-empty ([=], [>=], and [<=] with the end of
    the day); the project gives one [=] tuple, with its trimmed value, when
    that value is not empty, is at most 300 units long and is listed in the
    normalised project list, and none otherwise; the owner [me] gives one [=]
    tuple with the session user when there is one; [unassigned] gives
    [{_assign, is, 'not set'}]; [all] gives none. *)
Theorem buildFiltersPayload_parts (b : QuickFiltersBar.Bar) :
  exists ownerPart,
    QuickFiltersBar.buildFiltersPayload b =
      ownerPart ++ Spec.statusPart b ++ Spec.projectPart b ++ Spec.fromPart b ++ Spec.toPart b
    /\ (length ownerPart <= 1)%nat
    /\ (QuickFiltersBar.owner b = js "me" ->
        forall u, QuickFiltersBar.session_user b = Some u -> u <> [] ->
        ownerPart = [ {| fieldname := QuickFiltersBar.ownerField (QuickFiltersBar.props b);
                         operator := js "="; value := VString u |} ])
    /\ (QuickFiltersBar.owner b = js "unassigned" ->
        ownerPart = [ {| fieldname := js "_assign"; operator := js "is";
                         value := VString (js "not set") |} ])
    /\ (QuickFiltersBar.owner b = js "all" -> ownerPart = []).
Proof.
  unfold QuickFiltersBar.buildFiltersPayload. cbv zeta.
  rewrite buildFiltersPayload_projectPart, !pushIf_app.
  set (ownerPart := if str_eqb (QuickFiltersBar.owner b) (js "me") && _ then _ else _).
  exists ownerPart. split.
  - unfold Spec.statusPart, Spec.fromPart, Spec.toPart, QuickFiltersBar.nonEmpty.
    destruct (bool_decide (QuickFiltersBar.status b = [])),
             (bool_decide (QuickFiltersBar.lastFrom b = [])),
             (bool_decide (QuickFiltersBar.lastTo b = []));
      simpl; by rewrite ?app_nil_r, <- ?app_assoc.
  - subst ownerPart. unfold str_eqb. repeat split.
    + repeat (case_bool_decide; simpl); try destruct (present _); simpl; lia.
    + intros -> u -> Hu. rewrite bool_decide_eq_true_2 by done.
      by destruct u.
    + intros ->. by vm_compute.
    + intros ->. by vm_compute.
Qed.

(** The theorem at work: the owner [me] with a session, a status and a listed
    project. *)
Lemma buildFiltersPayload_parts_witness :
  let u := {| ui_search := None; ui_status := Some (js "New"); ui_stage := None;
              ui_project := Some (js " P1 "); ui_owner := Some (js "me");
              ui_priority := None; ui_follow_up := None;
              ui_last_contacted_from := Some (js "2024-01-01");
              ui_last_contacted_to := None; ui_location := None; ui_space_min := None;
              ui_space_max := None; ui_budget_min := None; ui_budget_max := None;
              ui_lead_source := None; ui_lead_origin := None; ui_lead_type := None |} in
  let b := {| QuickFiltersBar.props := Sample.pageProps (js "project") [];
              QuickFiltersBar.model := u;
              QuickFiltersBar.lists_project :=
                [ {| opt_label := js "Project One"; opt_value := js "P1"; opt_color := None |} ];
              QuickFiltersBar.session_user := Some (js "ann@example.com");
              QuickFiltersBar.LEADS_VIEWCONTROLS := None |} in
  QuickFiltersBar.buildFiltersPayload b =
    [ {| fieldname := js "lead_owner"; operator := js "=";
         value := VString (js "ann@example.com") |};
      {| fieldname := js "status"; operator := js "="; value := VString (js "New") |};
      {| fieldname := js "project"; operator := js "="; value := VString (js "P1") |};
      {| fieldname := js "last_contacted_on"; operator := js ">=";
         value := VString (js "2024-01-01") |} ].
Proof.
  intros u b.
  destruct (buildFiltersPayload_parts b) as (ownerPart & -> & _ & Hme & _).
  by rewrite (Hme eq_refl (js "ann@example.com") eq_refl).
Defined.

(** C6 as the specification states it fails on a project that the project
    list does not hold: the selection is not empty, and no tuple is built. *)
Lemma buildFiltersPayload_unlisted_project :
  let b := {| QuickFiltersBar.props := Sample.pageProps (js "project") [];
              QuickFiltersBar.model :=
                {| ui_search := None; ui_status := None; ui_stage := None;
                   ui_project := Some (js "P1"); ui_owner := None; ui_priority := None;
                   ui_follow_up := None; ui_last_contacted_from := None;
                   ui_last_contacted_to := None; ui_location := None; ui_space_min := None;
                   ui_space_max := None; ui_budget_min := None; ui_budget_max := None;
                   ui_lead_source := None; ui_lead_origin := None; ui_lead_type := None |};
              QuickFiltersBar.lists_project :=
                [ {| opt_label := js "Project Two"; opt_value := js "P2"; opt_color := None |} ];
              QuickFiltersBar.session_user := None;
              QuickFiltersBar.LEADS_VIEWCONTROLS := None |} in
  QuickFiltersBar.projectValue b = js "P1"
  /\ QuickFiltersBar.buildFiltersPayload b = [].
Proof. split; by vm_compute. Qed.

(** *** Catalog merging *)

Lemma mapSet_fresh {V} (k : jsstring) (v : V) (m : list (jsstring * V)) :
  k ∉ m.*1 -> mapSet k v m = m ++ [(k, v)].
Proof.
  induction m as [|[k' v'] m IH]; [done|]. simpl.
  rewrite not_elem_of_cons. intros [Hne Hk].
  rewrite bool_decide_eq_false_2 by done. by rewrite IH.
Qed.

Lemma keyed_keys l : (Aux.keyed l).*1 = List.map opt_value l.
Proof. unfold Aux.keyed. induction l; simpl; [done | by f_equal]. Qed.

Lemma keyed_values l : mapValues (Aux.keyed l) = l.
Proof. unfold mapValues, Aux.keyed. induction l; simpl; [done | by f_equal]. Qed.

Lemma keyed_app l1 l2 : Aux.keyed (l1 ++ l2) = Aux.keyed l1 ++ Aux.keyed l2.
Proof. apply List.map_app. Qed.

Lemma addNew_keyed acc p : addNew (Aux.keyed acc) p = Aux.keyed (Spec.firstWins acc p).
Proof.
  unfold addNew, Spec.firstWins, mapHas. rewrite keyed_keys.
  case_bool_decide as He; simpl; [done|].
  case_bool_decide as Hin; simpl; [done|].
  rewrite mapSet_fresh by (by rewrite keyed_keys). by rewrite keyed_app.
Qed.

Lemma fold_addNew_keyed src acc :
  fold_left addNew src (Aux.keyed acc) = Aux.keyed (fold_left Spec.firstWins src acc).
Proof.
  revert acc. induction src as [|p src IH]; intros acc; simpl; [done|].
  by rewrite addNew_keyed, IH.
Qed.

Lemma projectList_merge full seen : projectList full seen = Spec.mergeCatalog [full; seen].
Proof.
  unfold projectList, Spec.mergeCatalog. simpl. rewrite app_nil_r, fold_left_app.
  change (@nil (jsstring * CatalogEntry)) with (Aux.keyed []).
  by rewrite !fold_addNew_keyed, keyed_values.
Qed.

Lemma firstWins_distinct acc p : Aux.distinctValues acc -> Aux.distinctValues (Spec.firstWins acc p).
Proof.
  unfold Aux.distinctValues, Spec.firstWins. intros [Hnd Hne].
  case_bool_decide as He; simpl; [done|].
  case_bool_decide as Hin; simpl; [done|].
  split.
  - rewrite List.map_app. simpl. apply NoDup_app. repeat split; try done.
    + intros v Hv ->%list_elem_of_singleton. done.
    + apply NoDup_singleton.
  - apply Forall_app. split; [done|]. by constructor.
Qed.

Lemma fold_firstWins_distinct src acc :
  Aux.distinctValues acc -> Aux.distinctValues (fold_left Spec.firstWins src acc).
Proof.
  revert acc. induction src as [|p src IH]; intros acc H; simpl; [done|].
  by apply IH, firstWins_distinct.
Qed.

(** The merge keeps what it has and appends entries of the source whose
    values it did not have. *)
Lemma fold_firstWins_appends src acc :
  exists tail,
    fold_left Spec.firstWins src acc = acc ++ tail
    /\ Forall (fun e => e ∈ src /\ opt_value e ∉ List.map opt_value acc) tail.
Proof.
  revert acc. induction src as [|p src IH]; intros acc; simpl.
  - exists []. by rewrite app_nil_r.
  - destruct (IH (Spec.firstWins acc p)) as (tail & -> & Htail).
    unfold Spec.firstWins in *.
    destruct (bool_decide (opt_value p = []) || bool_decide (opt_value p ∈ List.map opt_value acc))
      eqn:Hskip.
    + exists tail. split; [done|].
      eapply Forall_impl; [exact Htail|]. intros e [? ?]. split; [|done].
      apply elem_of_cons. by right.
    + apply orb_false_iff in Hskip as [_ Hnew]. apply bool_decide_eq_false in Hnew.
      exists (p :: tail). split; [by rewrite <- app_assoc|].
      constructor.
      * split; [apply elem_of_cons; by left | done].
      * eapply Forall_impl; [exact Htail|]. intros e [? Hv]. split.
        -- apply elem_of_cons. by right.
        -- intros Hin. apply Hv. rewrite List.map_app. apply elem_of_app. by left.
Qed.

Lemma find_app_l {A} (f : A -> bool) (l1 l2 : list A) (x : A) :
  List.find f l1 = Some x -> List.find f (l1 ++ l2) = Some x.
Proof. induction l1 as [|a l1 IH]; simpl; [done|]. by destruct (f a). Qed.

Lemma find_app_r {A} (f : A -> bool) (l1 l2 : list A) :
  List.find f l1 = None -> List.find f (l1 ++ l2) = List.find f l2.
Proof. induction l1 as [|a l1 IH]; simpl; [done|]. by destruct (f a). Qed.

Lemma find_value_none (v : jsstring) (l : list CatalogEntry) :
  List.find (fun p => str_eqb (opt_value p) v) l = None <-> v ∉ List.map opt_value l.
Proof.
  pose proof (find_value_elem v l) as H.
  destruct (List.find _ l) eqn:E.
  - split; [done|]. intros Hn. destruct Hn. apply H. eauto.
  - split; [|done]. intros _ Hin. apply H in Hin as [? ?]. done.
Qed.

Lemma find_value_distinct (l : list CatalogEntry) (e : CatalogEntry) :
  NoDup (List.map opt_value l) -> e ∈ l ->
  List.find (fun p => str_eqb (opt_value p) (opt_value e)) l = Some e.
Proof.
  induction l as [|a l IH]; simpl; [by intros _ ?%elem_of_nil|].
  intros [Ha Hnd]%NoDup_cons [-> | Hin]%elem_of_cons.
  - unfold str_eqb. by rewrite bool_decide_eq_true_2.
  - unfold str_eqb at 1. rewrite bool_decide_eq_false_2; [by apply IH|].
    intros Heq. apply Ha. rewrite Heq. by apply list_elem_of_In, in_map, list_elem_of_In.
Qed.

(** Every entry of the merge is the first one, in priority order, that
    carries its value. *)
Lemma fold_firstWins_first src acc e :
  Aux.distinctValues acc ->
  e ∈ fold_left Spec.firstWins src acc ->
  List.find (fun p => str_eqb (opt_value p) (opt_value e)) (acc ++ src) = Some e.
Proof.
  revert acc. induction src as [|p src IH]; intros acc Hacc; simpl.
  - rewrite app_nil_r. apply find_value_distinct, Hacc.
  - intros He.
    assert (Hne : opt_value e <> []).
    { pose proof (fold_firstWins_distinct src _ (firstWins_distinct acc p Hacc)) as [_ Hall].
      rewrite Forall_forall in Hall. by apply Hall. }
    unfold Spec.firstWins in He.
    destruct (bool_decide (opt_value p = []) || bool_decide (opt_value p ∈ List.map opt_value acc))
      eqn:Hskip.
    + pose proof (IH acc Hacc He) as Hfind.
      destruct (List.find (fun q => str_eqb (opt_value q) (opt_value e)) acc) eqn:Hfacc.
      * rewrite (find_app_l _ _ src _ Hfacc) in Hfind.
        by rewrite (find_app_l _ _ (p :: src) _ Hfacc).
      * rewrite (find_app_r _ _ src Hfacc) in Hfind.
        rewrite (find_app_r _ _ (p :: src) Hfacc). simpl.
        unfold str_eqb at 1. rewrite bool_decide_eq_false_2; [done|].
        intros Heq. apply find_value_none in Hfacc.
        apply orb_true_iff in Hskip as [Hp | Hp]; apply bool_decide_eq_true in Hp;
          congruence.
    + pose proof (IH _ (firstWins_distinct acc p Hacc)) as Hfind.
      unfold Spec.firstWins in Hfind. rewrite Hskip in Hfind.
      rewrite <- app_assoc in Hfind. by apply Hfind.
Qed.

(** Every non-empty value of a source is a value of the merge. *)
Lemma fold_firstWins_complete src acc v :
  v <> [] -> v ∈ List.map opt_value (acc ++ src) ->
  v ∈ List.map opt_value (fold_left Spec.firstWins src acc).
Proof.
  intros Hv. revert acc. induction src as [|p src IH]; intros acc; simpl.
  - by rewrite app_nil_r.
  - intros Hin. apply IH. unfold Spec.firstWins.
    rewrite List.map_app in Hin. simpl in Hin.
    apply elem_of_app in Hin as [Hin | [-> | Hin]%elem_of_cons].
    + rewrite List.map_app. apply elem_of_app. left.
      destruct (_ || _); [done|]. rewrite List.map_app. apply elem_of_app. by left.
    + rewrite List.map_app. apply elem_of_app. left.
      rewrite (bool_decide_eq_false_2 _ Hv). simpl.
      case_bool_decide; [done|]. rewrite List.map_app. apply elem_of_app. right.
      by apply list_elem_of_singleton.
    + rewrite List.map_app. apply elem_of_app. by right.
Qed.

(** A source whose non-empty values are all there already adds nothing. *)
Lemma fold_firstWins_nothing_new src acc :
  Forall (fun p => opt_value p <> [] -> opt_value p ∈ List.map opt_value acc) src ->
  fold_left Spec.firstWins src acc = acc.
Proof.
  induction 1 as [|p src Hp _ IH]; simpl; [done|].
  unfold Spec.firstWins at 2.
  destruct (decide (opt_value p = [])) as [He|He].
  - by rewrite (bool_decide_eq_true_2 _ He).
  - rewrite (bool_decide_eq_true_2 _ (Hp He)), orb_true_r. done.
Qed.

(** A list of distinct, non-empty values merges to itself. *)
Lemma fold_firstWins_self l acc :
  Aux.distinctValues (acc ++ l) -> fold_left Spec.firstWins l acc = acc ++ l.
Proof.
  revert acc. induction l as [|p l IH]; intros acc H; simpl; [by rewrite app_nil_r|].
  assert (Hstep : Spec.firstWins acc p = acc ++ [p]).
  { destruct H as [Hnd Hne]. unfold Spec.firstWins.
    rewrite Forall_app, Forall_cons in Hne. destruct Hne as (_ & Hp & _).
    rewrite List.map_app in Hnd. simpl in Hnd.
    apply NoDup_app in Hnd as (_ & Hdisj & _).
    rewrite (bool_decide_eq_false_2 _ Hp). simpl.
    rewrite bool_decide_eq_false_2; [done|].
    intros Hin. apply (Hdisj _ Hin). apply elem_of_cons. by left. }
  rewrite Hstep, IH; rewrite <- app_assoc; done.
Qed.

Lemma distinctValues_nil : Aux.distinctValues [].
Proof. split; [apply NoDup_nil_2 | constructor]. Qed.

Lemma norm_distinct strs : Aux.distinctValues (norm strs).
Proof.
  unfold norm.
  assert (Hgen : forall out seen,
    seen = List.map opt_value out -> Aux.distinctValues out ->
    Aux.distinctValues (fold_left
      (fun '(out, seen) s =>
         let val := trim (orEmpty s) in
         if bool_decide (val = []) || bool_decide (val ∈ seen) then (out, seen)
         else (out ++ [{| opt_label := val; opt_value := val; opt_color := None |}],
               seen ++ [val]))
      strs (out, seen)).1).
  { induction strs as [|s strs IH]; intros out seen Hseen Hout; simpl; [done|].
    destruct (bool_decide (trim (orEmpty s) = [])) eqn:He; simpl; [by apply IH|].
    destruct (bool_decide (trim (orEmpty s) ∈ seen)) eqn:Hin; simpl; [by apply IH|].
    apply bool_decide_eq_false in He, Hin.
    apply IH.
    - subst seen. by rewrite List.map_app.
    - pose proof (firstWins_distinct out
        {| opt_label := trim (orEmpty s); opt_value := trim (orEmpty s); opt_color := None |}
        Hout) as H.
      unfold Spec.firstWins in H. simpl in H. subst seen.
      by rewrite !bool_decide_eq_false_2 in H. }
  apply Hgen; [done | apply distinctValues_nil].
Qed.

Lemma optionsFromSelect_distinct fields name :
  Aux.distinctValues (optionsFromSelect fields name).
Proof.
  unfold optionsFromSelect.
  destruct (getLeadFieldMeta fields name); [|apply distinctValues_nil].
  destruct (negb _); [apply distinctValues_nil | apply norm_distinct].
Qed.

Lemma seenFromRows_distinct rows name : Aux.distinctValues (seenFromRows rows name).
Proof. apply norm_distinct. Qed.

Lemma fold_mapSet_keyed l acc :
  NoDup (List.map opt_value (acc ++ l)) ->
  fold_left (fun merged o => mapSet (opt_value o) o merged) l (Aux.keyed acc)
  = Aux.keyed (acc ++ l).
Proof.
  revert acc. induction l as [|p l IH]; intros acc Hnd; simpl; [by rewrite app_nil_r|].
  rewrite mapSet_fresh.
  - change [(opt_value p, p)] with (Aux.keyed [p]).
    rewrite <- keyed_app, IH; rewrite <- app_assoc; done.
  - rewrite keyed_keys. rewrite List.map_app in Hnd. simpl in Hnd.
    apply NoDup_app in Hnd as (_ & Hdisj & _).
    intros Hin. apply (Hdisj _ Hin). apply elem_of_cons. by left.
Qed.

Lemma fold_has_or_set_addNew l m :
  Forall (fun e => opt_value e <> []) l ->
  fold_left (fun merged o => if mapHas (opt_value o) merged then merged
                             else mapSet (opt_value o) o merged) l m
  = fold_left addNew l m.
Proof.
  intros H. revert m. induction H as [|p l Hp _ IH]; intros m; simpl; [done|].
  rewrite IH. f_equal. unfold addNew.
  rewrite (bool_decide_eq_false_2 _ Hp). simpl. by destruct (mapHas _ _).
Qed.

(** [loadSimpleCatalog] is the merge that [projectList] computes, applied to
    the select options and the values seen in the rows. *)
Lemma loadSimpleCatalog_merge fields rows name :
  loadSimpleCatalog fields rows name
  = projectList (optionsFromSelect fields name) (seenFromRows rows name).
Proof.
  unfold loadSimpleCatalog.
  pose proof (optionsFromSelect_distinct fields name) as Hmeta.
  pose proof (seenFromRows_distinct rows name) as [_ Hseen].
  change (@nil (jsstring * CatalogEntry)) with (Aux.keyed []).
  rewrite fold_mapSet_keyed by apply Hmeta. simpl.
  rewrite (fold_has_or_set_addNew _ _ Hseen), fold_addNew_keyed, keyed_values.
  rewrite projectList_merge. unfold Spec.mergeCatalog. simpl.
  rewrite app_nil_r, fold_left_app. by rewrite (fold_firstWins_self _ []).
Qed.

(** C7. The merged list of [projectList] is the first-writer-wins merge of
    the authoritative catalog and the seen values, in that order: its values
    are distinct; each entry is the first entry of the two sources, in
    priority order, that carries its value, so its label and colour come from
    the authoritative catalog whenever that one supplies the value; the
    entries of the authoritative catalog come first and the seen values only
    append entries with new values; no non-empty value is lost; merging the
    result again with the same seen values, or with none, gives the result
    back. [loadSimpleCatalog] computes the same merge from the select options
    and the values seen in the rows. *)
Theorem catalog_merge_first_writer_wins
    (full seen : list CatalogEntry) (fields : list DocField)
    (rows : list (gmap jsstring cell)) (name : jsstring) :
  let merged := projectList full seen in
  merged = Spec.mergeCatalog [full; seen]
  /\ NoDup (List.map opt_value merged)
  /\ Forall (fun e => opt_value e <> [] /\
               List.find (fun p => str_eqb (opt_value p) (opt_value e)) (full ++ seen) = Some e)
            merged
  /\ Forall (fun e => opt_value e ∈ List.map opt_value full -> e ∈ full) merged
  /\ (exists tail, merged = projectList full [] ++ tail
        /\ Forall (fun e => e ∈ seen /\ opt_value e ∉ List.map opt_value (projectList full [])) tail)
  /\ Forall (fun p => opt_value p <> [] -> opt_value p ∈ List.map opt_value merged) (full ++ seen)
  /\ projectList merged seen = merged
  /\ projectList merged [] = merged
  /\ loadSimpleCatalog fields rows name
     = projectList (optionsFromSelect fields name) (seenFromRows rows name).
Proof.
  intros merged.
  assert (Hm : merged = fold_left Spec.firstWins (full ++ seen) []).
  { subst merged. rewrite projectList_merge. unfold Spec.mergeCatalog. simpl.
    by rewrite app_nil_r. }
  assert (Hd : Aux.distinctValues merged).
  { rewrite Hm. apply fold_firstWins_distinct, distinctValues_nil. }
  assert (Hall : Forall (fun p => opt_value p <> [] -> opt_value p ∈ List.map opt_value merged)
                        (full ++ seen)).
  { apply Forall_forall. intros p Hp Hne. rewrite Hm.
    apply fold_firstWins_complete; [done|]. simpl.
    by apply list_elem_of_In, in_map, list_elem_of_In. }
  split; [apply projectList_merge|]. split; [apply Hd|]. split.
  { apply Forall_forall. intros e He. split.
    - destruct Hd as [_ Hne]. rewrite Forall_forall in Hne. by apply Hne.
    - rewrite Hm in He.
      apply (fold_firstWins_first (full ++ seen) [] e distinctValues_nil He). }
  split.
  { apply Forall_forall. intros e He Hin. rewrite Hm in He.
    pose proof (fold_firstWins_first (full ++ seen) [] e distinctValues_nil He) as Hfind.
    simpl in Hfind. apply find_value_elem in Hin as [x Hx].
    rewrite (find_app_l _ _ seen _ Hx) in Hfind. injection Hfind as <-.
    apply find_some in Hx as [Hx _]. by apply list_elem_of_In. }
  split.
  { assert (Hfull : projectList full [] = fold_left Spec.firstWins full []).
    { rewrite projectList_merge. unfold Spec.mergeCatalog. simpl. by rewrite !app_nil_r. }
    rewrite Hm, fold_left_app, Hfull. apply fold_firstWins_appends. }
  split; [exact Hall|].
  assert (Hself : fold_left Spec.firstWins merged [] = merged).
  { by rewrite (fold_firstWins_self merged []). }
  split; [|split].
  - rewrite projectList_merge. unfold Spec.mergeCatalog. simpl.
    rewrite app_nil_r, fold_left_app, Hself.
    apply fold_firstWins_nothing_new.
    rewrite Forall_app in Hall. apply Hall.
  - rewrite projectList_merge. unfold Spec.mergeCatalog. simpl.
    by rewrite !app_nil_r.
  - apply loadSimpleCatalog_merge.
Qed.

(** *** The delayed-flag refresh *)

Section DelayedFacts.
Variable get_delayed_map : list jsstring -> option (gmap jsstring bool).

(** The loop with enough fuel: it makes at least one call when there is a name
    left, every call carries between 1 and 200 names, the calls partition the
    names left when all are answered, and it stops at the first rejected call. *)
Lemma fetchLoop_calls unique fuel i freshMap calls :
  (length unique - i <= fuel)%nat ->
  exists new,
    (fetchLoop get_delayed_map fuel i unique freshMap calls).1 = calls ++ new
    /\ ((i < length unique)%nat -> new <> [])
    /\ Forall (fun c => (0 < length c <= MAX_DELAYED_BATCH)%nat) new
    /\ match (fetchLoop get_delayed_map fuel i unique freshMap calls).2 with
       | Some m =>
         concat new = drop i unique
         /\ Forall (fun c => is_Some (get_delayed_map c)) new
         /\ m = Spec.mergedAnswers get_delayed_map new freshMap
       | None => exists c, last new = Some c /\ get_delayed_map c = None
       end.
Proof.
  revert i freshMap calls.
  induction fuel as [|fuel IH]; intros i freshMap calls Hfuel; simpl.
  - rewrite bool_decide_eq_false_2 by lia. simpl.
    exists []. rewrite app_nil_r, drop_ge by lia.
    repeat split; try done; lia.
  - case_bool_decide as Hi; simpl.
    2: { exists []. rewrite app_nil_r, drop_ge by lia. repeat split; try done. }
    set (chunk := take MAX_DELAYED_BATCH (drop i unique)).
    assert (Hlen : (0 < length chunk <= MAX_DELAYED_BATCH)%nat).
    { subst chunk. rewrite length_take, length_drop. unfold MAX_DELAYED_BATCH. lia. }
    destruct (get_delayed_map chunk) as [message|] eqn:Hcall; simpl.
    + destruct (IH (i + MAX_DELAYED_BATCH)%nat (message ∪ freshMap) (calls ++ [chunk]))
        as (new & Hcalls & _ & Hsize & Hres).
      { unfold MAX_DELAYED_BATCH. lia. }
      exists (chunk :: new). rewrite Hcalls, <- app_assoc. simpl.
      split; [done|]. split; [done|]. split; [by constructor|].
      destruct (fetchLoop _ _ _ _ _ _).2 as [m|].
      * destruct Hres as (Hcat & Hok & ->). repeat split.
        -- rewrite Hcat. subst chunk. by rewrite <- drop_drop, take_drop.
        -- constructor; [by rewrite Hcall | done].
        -- unfold Spec.mergedAnswers. simpl. by rewrite Hcall.
      * destruct Hres as (c & Hlast & Hc). exists c. split; [|done].
        destruct new; [done|]. done.
    + exists [chunk]. repeat split; try done.
      * by constructor.
      * by exists chunk.
Qed.

End DelayedFacts.

Lemma setOf_nonempty names : names <> [] -> setOf names <> [].
Proof.
  unfold setOf. destruct names as [|n names]; [done|]. intros _. simpl.
  assert (H : forall l acc, acc <> [] -> fold_left setAdd l acc <> []).
  { induction l as [|x l IH]; intros acc Hacc; simpl; [done|].
    apply IH. unfold setAdd. case_bool_decide; [done|]. by destruct acc. }
  by apply H.
Qed.

(** C8, corrected. With no visible name the refresh makes no remote call,
    empties the map and resets the key. With visible names it is never
    skipped: it calls the batch lookup at least once, for the distinct names
    in chunks of at most 200, also when the key is the one of the last
    successful fetch; the key only decides what shows meanwhile, the cached
    map when it is unchanged and the empty map when it differs. When every call is
    answered, the calls cover the distinct names exactly, the map becomes the
    merged answers and the key the new key; otherwise the loop ends at the
    rejected call, the map is emptied and the key stays. The key is the
    distinct names in order of first appearance joined by a bar. *)
Theorem delayed_refresh_always_fetches
    (get_delayed_map : list jsstring -> option (gmap jsstring bool))
    (payload : LeadsData) (st : DelayedState) :
  let names := getVisibleLeadNames payload in
  let r := scheduleDelayedMapRefresh get_delayed_map payload st in
  (names = [] ->
     remoteCalls r = [] /\ delayedMap (final r) = ∅ /\ lastDelayedNamesKey (final r) = [])
  /\ (names <> [] ->
        remoteCalls r <> []
        /\ Forall (fun c => (0 < length c <= 200)%nat) (remoteCalls r)
        /\ (Spec.namesKey payload = lastDelayedNamesKey st -> interimMap r = delayedMap st)
        /\ (Spec.namesKey payload <> lastDelayedNamesKey st -> interimMap r = ∅)
        /\ (Forall (fun c => is_Some (get_delayed_map c)) (remoteCalls r) ->
              concat (remoteCalls r) = setOf names
              /\ delayedMap (final r) = Spec.mergedAnswers get_delayed_map (remoteCalls r) ∅
              /\ lastDelayedNamesKey (final r) = Spec.namesKey payload)
        /\ (~ Forall (fun c => is_Some (get_delayed_map c)) (remoteCalls r) ->
              (exists c, last (remoteCalls r) = Some c /\ get_delayed_map c = None)
              /\ delayedMap (final r) = ∅
              /\ lastDelayedNamesKey (final r) = lastDelayedNamesKey st)).
Proof.
  intros names r. subst r. unfold scheduleDelayedMapRefresh, Spec.namesKey. fold names.
  split.
  { intros ->. done. }
  intros Hne. destruct names as [|n names'] eqn:Hnames; [done|]. rewrite <- Hnames in *.
  pose proof (setOf_nonempty names Hne) as Huniq.
  destruct (fetchLoop_calls get_delayed_map (setOf names) (length (setOf names)) 0 ∅ [])
    as (new & Hcalls & Hsome & Hsize & Hres); [lia|].
  simpl in Hcalls.
  assert (Hnew : new <> []).
  { apply Hsome. destruct (setOf names); [done | simpl; lia]. }
  destruct (fetchLoop get_delayed_map _ 0 (setOf names) ∅ []) as [calls [freshMap|]];
    simpl in Hcalls, Hres |- *; subst calls.
  - destruct Hres as (Hcat & Hok & ->).
    split; [done|]. split; [exact Hsize|].
    unfold str_eqb.
    split; [by intros ->; rewrite bool_decide_eq_true_2|].
    split; [by intros H; rewrite bool_decide_eq_false_2|].
    split; [done|]. by intros [].
  - destruct Hres as (c & Hlast & Hc).
    split; [done|]. split; [exact Hsize|].
    unfold str_eqb.
    split; [by intros ->; rewrite bool_decide_eq_true_2|].
    split; [by intros H; rewrite bool_decide_eq_false_2|].
    split; [|by eauto].
    intros Hall. rewrite Forall_forall in Hall.
    apply last_Some_elem_of, Hall in Hlast. rewrite Hc in Hlast. by destruct Hlast.
Qed.

(** The theorem at work: 201 names make two calls, of 200 names and of one,
    and with both answered the key becomes the key of these names. *)
Lemma delayed_refresh_always_fetches_witness :
  let leads := List.map (fun i => {| l_name := Some [0x4C; N.of_nat i]; l_assign := None |})
                        (seq 0 201) in
  let st := {| delayedMap := ∅; lastDelayedNamesKey := [] |} in
  let r := scheduleDelayedMapRefresh (fun _ => Some ∅) (Flat leads) st in
  List.map length (remoteCalls r) = [200%nat; 1%nat]
  /\ lastDelayedNamesKey (final r) = Spec.namesKey (Flat leads).
Proof.
  intros leads st r.
  destruct (delayed_refresh_always_fetches (fun _ => Some ∅) (Flat leads) st)
    as [_ Hsome].
  destruct Hsome as (_ & _ & _ & _ & Hok & _); [by vm_compute|].
  destruct Hok as (_ & _ & Hkey).
  { apply Forall_forall. intros c _. by eexists. }
  split; [by vm_compute | exact Hkey].
Defined.

(** C8 as the specification states it fails: after a successful fetch for one
    visible lead, a refresh over the same lead has the same key, and calls
    the batch lookup again. *)
Lemma delayed_refresh_refetches_unchanged_names :
  let remote := fun _ : list jsstring => Some ({[ js "L1" := true ]} : gmap jsstring bool) in
  let payload := Flat [ {| l_name := Some (js "L1"); l_assign := None |} ] in
  let st0 := {| delayedMap := ∅; lastDelayedNamesKey := [] |} in
  let st1 := final (scheduleDelayedMapRefresh remote payload st0) in
  lastDelayedNamesKey st1 = Spec.namesKey payload
  /\ delayedMap st1 !! js "L1" = Some true
  /\ remoteCalls (scheduleDelayedMapRefresh remote payload st1) = [[js "L1"]].
Proof. repeat split; by vm_compute. Qed.

(** *** The _assign cell *)

(** A missing, null or empty [_assign] shapes to the empty list. *)
Lemma assignCell_absent getUser lead :
  present (l_assign lead) = false -> assignCell getUser lead = Return [].
Proof. intros H. unfold assignCell. by rewrite H. Qed.

(** A JSON array of user ids shapes to one avatar per id. *)
Example assignCell_two_users getUser :
  assignCell getUser {| l_name := Some (js "L1");
                        l_assign := Some (js "[" ++ Sample.quoted (js "ann@example.com")
                                          ++ js ", " ++ Sample.quoted (js "bob@example.com")
                                          ++ js "]") |}
  = Return
      [ {| av_name := JString (js "ann@example.com");
           av_image := user_image (getUser (JString (js "ann@example.com")));
           av_label := full_name (getUser (JString (js "ann@example.com"))) |};
        {| av_name := JString (js "bob@example.com");
           av_image := user_image (getUser (JString (js "bob@example.com")));
           av_label := full_name (getUser (JString (js "bob@example.com"))) |} ].
Proof. reflexivity. Qed.

(** C9, a defect of [parseRows]. A missing or empty [_assign] shapes to the
    empty list, but a stored string that is not JSON makes [JSON.parse] throw,
    nothing catches the exception, and the whole [parseRows] call throws with
    it, also for the well-formed rows around; a JSON value that is not an
    array throws a TypeError at [assignees.map]. *)
Theorem parseRows_throws_on_invalid_assign (getUser : json -> User) :
  let good := {| l_name := Some (js "L1"); l_assign := Some (js "[]") |} in
  let missing := {| l_name := Some (js "L2"); l_assign := None |} in
  let empty := {| l_name := Some (js "L3"); l_assign := Some [] |} in
  let bad := {| l_name := Some (js "L4"); l_assign := Some (js "ann@example.com") |} in
  let odd := {| l_name := Some (js "L5"); l_assign := Some (js "null") |} in
  assignCell getUser missing = Return []
  /\ assignCell getUser empty = Return []
  /\ assignCell getUser bad = Throw SyntaxError
  /\ assignCell getUser odd = Throw TypeError
  /\ parseRows getUser [js "name"; js "_assign"] [good; missing; empty]
     = Return [Some []; Some []; Some []]
  /\ parseRows getUser [js "name"; js "_assign"] [good; bad; missing] = Throw SyntaxError.
Proof. repeat split; reflexivity. Qed.

(** ** Properties of the code around the filter functions *)

(** *** Trimming is idempotent and commutes with unit-wise maps *)

Lemma trimStart_idem s : trimStart (trimStart s) = trimStart s.
Proof.
  induction s as [|c s IH]; simpl; [done|].
  destruct (isWhiteSpace c) eqn:E; [done|]. simpl. by rewrite E.
Qed.

Lemma trimStart_snoc l c :
  trimStart (l ++ [c]) =
    match trimStart l with
    | [] => if isWhiteSpace c then [] else [c]
    | t => t ++ [c]
    end.
Proof.
  induction l as [|d l IH]; simpl; [done|].
  destruct (isWhiteSpace d); [exact IH | done].
Qed.

Lemma trimEnd_cons c r :
  trimEnd (c :: r) =
    match trimEnd r with
    | [] => if isWhiteSpace c then [] else [c]
    | t => c :: t
    end.
Proof.
  unfold trimEnd. simpl. rewrite trimStart_snoc.
  destruct (trimStart (rev r)) as [|d t] eqn:E; simpl.
  - by destruct (isWhiteSpace c).
  - rewrite rev_app_distr. simpl.
    destruct (rev t ++ [d]) eqn:E'; [by destruct (rev t) | done].
Qed.

Lemma trimStart_trimEnd s : trimStart (trimEnd s) = trimEnd (trimStart s).
Proof.
  induction s as [|c s IH]; [done|].
  rewrite trimEnd_cons. simpl. destruct (isWhiteSpace c) eqn:E.
  - rewrite <- IH. destruct (trimEnd s) as [|d t]; [done|]. simpl. by rewrite E.
  - rewrite trimEnd_cons. destruct (trimEnd s); simpl; by rewrite E.
Qed.

Lemma trim_idem s : trim (trim s) = trim s.
Proof.
  unfold trim.
  rewrite trimStart_trimEnd, trimStart_idem.
  unfold trimEnd at 1 2. by rewrite rev_involutive, trimStart_idem.
Qed.

Lemma trimStart_map (f : N -> N) s :
  (forall c, isWhiteSpace (f c) = isWhiteSpace c) ->
  trimStart (List.map f s) = List.map f (trimStart s).
Proof.
  intros Hf. induction s as [|c s IH]; simpl; [done|].
  rewrite Hf. by destruct (isWhiteSpace c).
Qed.

Lemma trim_map (f : N -> N) s :
  (forall c, isWhiteSpace (f c) = isWhiteSpace c) ->
  trim (List.map f s) = List.map f (trim s).
Proof.
  intros Hf. unfold trim, trimEnd.
  by rewrite (trimStart_map f s Hf), <- List.map_rev, (trimStart_map f _ Hf), List.map_rev.
Qed.

(** *** Sets and maps in insertion order *)

Lemma fold_setAdd_acc xs acc :
  NoDup acc ->
  NoDup (fold_left setAdd xs acc)
  /\ (forall x, x ∈ fold_left setAdd xs acc <-> x ∈ acc \/ x ∈ xs).
Proof.
  revert acc. induction xs as [|y xs IH]; intros acc Hacc; simpl.
  - split; [done|]. intros x. rewrite elem_of_nil. tauto.
  - assert (Hstep : NoDup (setAdd acc y) /\ forall x, x ∈ setAdd acc y <-> x ∈ acc \/ x = y).
    { unfold setAdd. case_bool_decide as Hy.
      - split; [done|]. intros x. split; [tauto|]. by intros [?| ->].
      - split.
        + apply NoDup_app. split; [done|]. split; [|apply NoDup_singleton].
          intros x Hx ->%list_elem_of_singleton. done.
        + intros x. by rewrite elem_of_app, list_elem_of_singleton. }
    destruct Hstep as [Hnd Hmem]. destruct (IH _ Hnd) as [IH1 IH2].
    split; [done|]. intros x. rewrite IH2, Hmem, elem_of_cons. tauto.
Qed.

(** [new Set(xs)] lists each member of [xs] once. *)
Lemma setOf_NoDup xs : NoDup (setOf xs).
Proof. apply fold_setAdd_acc, NoDup_nil_2. Qed.

Lemma setOf_elem xs x : x ∈ setOf xs <-> x ∈ xs.
Proof.
  unfold setOf. destruct (fold_setAdd_acc xs [] (NoDup_nil_2)) as [_ H].
  rewrite H, elem_of_nil. tauto.
Qed.

Lemma mapSet_keys {V} (k : jsstring) (v : V) (m : list (jsstring * V)) :
  (mapSet k v m).*1 = setAdd (m.*1) k.
Proof.
  unfold setAdd. induction m as [|[k' v'] m IH]; [done|]. cbn [mapSet].
  destruct (decide (k = k')) as [->|Hne].
  - rewrite (bool_decide_eq_true_2 (k' = k')) by done. csimpl.
    rewrite bool_decide_eq_true_2; [done|]. apply elem_of_cons. by left.
  - rewrite (bool_decide_eq_false_2 (k = k')) by done. csimpl. rewrite IH.
    destruct (decide (k ∈ m.*1)) as [Hin|Hin].
    + rewrite !bool_decide_eq_true_2; [done | apply elem_of_cons; by right | done].
    + rewrite !bool_decide_eq_false_2; [done | | done].
      intros [?|?]%elem_of_cons; done.
Qed.

Lemma assoc_mapSet {V} (k k' : jsstring) (v : V) (m : list (jsstring * V)) :
  Forms.assoc k' (mapSet k v m) = if bool_decide (k = k') then Some v else Forms.assoc k' m.
Proof.
  unfold Forms.assoc, str_eqb. induction m as [|[k0 v0] m IH]; cbn [mapSet List.find fst].
  - destruct (decide (k = k')) as [Hk|Hk].
    + by rewrite !(bool_decide_eq_true_2 _ Hk).
    + by rewrite !(bool_decide_eq_false_2 _ Hk).
  - destruct (decide (k = k0)) as [->|Hk0].
    + rewrite (bool_decide_eq_true_2 (k0 = k0)) by done. cbn [List.find fst].
      destruct (decide (k0 = k')) as [Hk|Hk].
      * by rewrite !(bool_decide_eq_true_2 _ Hk).
      * by rewrite !(bool_decide_eq_false_2 _ Hk).
    + rewrite (bool_decide_eq_false_2 (k = k0)) by done. cbn [List.find fst].
      destruct (decide (k0 = k')) as [Hk|Hk].
      * rewrite !(bool_decide_eq_true_2 _ Hk). subst k'.
        by rewrite (bool_decide_eq_false_2 (k = k0)).
      * rewrite !(bool_decide_eq_false_2 _ Hk). exact IH.
Qed.

Lemma assoc_None {V} (k : jsstring) (m : list (jsstring * V)) :
  Forms.assoc k m = None <-> k ∉ m.*1.
Proof.
  unfold Forms.assoc, str_eqb. induction m as [|[k0 v0] m IH]; cbn [List.find fst]; csimpl.
  - split; [intros _ ?%elem_of_nil; done | done].
  - destruct (decide (k0 = k)) as [Hk|Hk].
    + rewrite (bool_decide_eq_true_2 _ Hk). subst k0. split; [done|].
      intros H. destruct H. apply elem_of_cons. by left.
    + rewrite (bool_decide_eq_false_2 _ Hk), IH, not_elem_of_cons.
      split; [by intros ? | by intros [_ ?]].
Qed.

(** Entries kept under their own value are found by value as by key. *)
Lemma find_values_assoc (v : jsstring) (m : list (jsstring * CatalogEntry)) :
  Forall (fun p => opt_value p.2 = p.1) m ->
  List.find (fun e => str_eqb (opt_value e) v) (mapValues m) = Forms.assoc v m.
Proof.
  unfold Forms.assoc, mapValues.
  induction 1 as [|[k e] m Hk _ IH]; simpl; [done|].
  simpl in Hk. rewrite Hk. by destruct (str_eqb k v).
Qed.

Lemma mapSet_own (m : list (jsstring * CatalogEntry)) (o : CatalogEntry) :
  Forall (fun p => opt_value p.2 = p.1) m ->
  Forall (fun p => opt_value p.2 = p.1) (mapSet (opt_value o) o m).
Proof.
  induction 1 as [|[k e] m Hk Hm IH]; simpl.
  - by repeat constructor.
  - case_bool_decide; constructor; done.
Qed.

(** *** The other picker lists *)

Lemma catalogMap_facts (v : jsstring) (full : list CatalogEntry) m :
  Forall (fun p => opt_value p.2 = p.1) m ->
  let m' := fold_left (fun m o => mapSet (opt_value o) o m) full m in
  Forall (fun p => opt_value p.2 = p.1) m'
  /\ m'.*1 = fold_left setAdd (List.map opt_value full) (m.*1)
  /\ Forms.assoc v m' =
       match List.find (fun e => str_eqb (opt_value e) v) (rev full) with
       | Some e => Some e
       | None => Forms.assoc v m
       end.
Proof.
  revert m. induction full as [|p full IH]; intros m Hm; simpl; [done|].
  destruct (IH _ (mapSet_own m p Hm)) as (Hown & Hkeys & Hfind).
  split; [done|]. split; [by rewrite Hkeys, mapSet_keys|].
  rewrite Hfind, assoc_mapSet.
  destruct (List.find _ (rev full)) as [e|] eqn:Hrev.
  - by rewrite (find_app_l _ _ [p] _ Hrev).
  - rewrite (find_app_r _ _ [p] Hrev). simpl. unfold str_eqb.
    case_bool_decide; [done|]. done.
Qed.

Lemma seenMap_facts (v : jsstring) (seen : list CatalogEntry) m :
  Forall (fun p => opt_value p.2 = p.1) m ->
  let m' := fold_left (fun m o => if mapHas (opt_value o) m then m
                                  else mapSet (opt_value o) o m) seen m in
  Forall (fun p => opt_value p.2 = p.1) m'
  /\ m'.*1 = fold_left setAdd (List.map opt_value seen) (m.*1)
  /\ Forms.assoc v m' =
       match Forms.assoc v m with
       | Some e => Some e
       | None => List.find (fun e => str_eqb (opt_value e) v) seen
       end.
Proof.
  revert m. induction seen as [|p seen IH]; intros m Hm; simpl.
  { split; [done|]. split; [done|]. by destruct (Forms.assoc v m). }
  destruct (mapHas (opt_value p) m) eqn:Hhas; unfold mapHas in Hhas;
    [apply bool_decide_eq_true in Hhas | apply bool_decide_eq_false in Hhas].
  - destruct (IH _ Hm) as (Hown & Hkeys & Hfind).
    split; [done|]. split.
    + rewrite Hkeys.
      assert (Hsame : setAdd (m.*1) (opt_value p) = m.*1)
        by (unfold setAdd; by rewrite bool_decide_eq_true_2).
      by rewrite Hsame.
    + rewrite Hfind. destruct (Forms.assoc v m) eqn:Hv; [done|].
      unfold str_eqb at 2. case_bool_decide as Hp; [|done].
      subst v. apply assoc_None in Hv. done.
  - destruct (IH _ (mapSet_own m p Hm)) as (Hown & Hkeys & Hfind).
    split; [done|]. split; [by rewrite Hkeys, mapSet_keys|].
    rewrite Hfind, assoc_mapSet. unfold str_eqb.
    case_bool_decide as Hp.
    + subst v. apply assoc_None in Hhas. by rewrite Hhas.
    + by destruct (Forms.assoc v m).
Qed.

(** X1. The location, source, origin and type pickers hold one entry per
    distinct value of the catalog and the seen values, in the order in which
    the values first come. The entry shown for a value is the last catalog
    entry with that value when the catalog has one, else the first seen entry
    with it: the catalog always wins over the seen values. Entries with an
    empty value are kept, unlike in the project picker. *)
Theorem locationList_catalog_wins (full seen : list CatalogEntry) (v : jsstring) :
  let merged := Shaping.locationList full seen in
  List.map opt_value merged = setOf (List.map opt_value (full ++ seen))
  /\ NoDup (List.map opt_value merged)
  /\ List.find (fun e => str_eqb (opt_value e) v) merged =
       match List.find (fun e => str_eqb (opt_value e) v) (rev full) with
       | Some e => Some e
       | None => List.find (fun e => str_eqb (opt_value e) v) seen
       end
  /\ Shaping.sourceList full seen = merged
  /\ Shaping.originList full seen = merged
  /\ Shaping.typeList full seen = merged.
Proof.
  intros merged. subst merged. unfold Shaping.locationList.
  destruct (catalogMap_facts v full [] (Forall_nil_2 _)) as (Hown1 & Hkeys1 & Hfind1).
  destruct (seenMap_facts v seen _ Hown1) as (Hown2 & Hkeys2 & Hfind2).
  set (m := fold_left _ seen _) in *.
  assert (Hvals : List.map opt_value (mapValues m) = m.*1).
  { clear -Hown2. unfold mapValues.
    induction Hown2 as [|[k e] m' Hk _ IH]; csimpl; [done|]. simpl in Hk.
    f_equal; [exact Hk | exact IH]. }
  assert (Hkeys : m.*1 = setOf (List.map opt_value (full ++ seen))).
  { rewrite Hkeys2, Hkeys1. unfold setOf. by rewrite List.map_app, fold_left_app. }
  split; [by rewrite Hvals|]. split; [rewrite Hvals, Hkeys; apply setOf_NoDup|].
  split; [|done].
  rewrite (find_values_assoc v m Hown2), Hfind2, Hfind1. simpl.
  by destruct (List.find _ (rev full)).
Qed.

(** *** [norm] and [normalizeOptions] as first-wins merges *)

Lemma norm_firstWins strs :
  norm strs = fold_left Spec.firstWins
                (List.map (fun s => Forms.plain (trim (orEmpty s))) strs) [].
Proof.
  unfold norm.
  assert (Hgen : forall out seen,
    seen = List.map opt_value out ->
    (fold_left
      (fun '(out, seen) s =>
         let val := trim (orEmpty s) in
         if bool_decide (val = []) || bool_decide (val ∈ seen) then (out, seen)
         else (out ++ [{| opt_label := val; opt_value := val; opt_color := None |}],
               seen ++ [val]))
      strs (out, seen)).1
    = fold_left Spec.firstWins (List.map (fun s => Forms.plain (trim (orEmpty s))) strs) out).
  { induction strs as [|s strs IH]; intros out seen Hseen; simpl; [done|].
    unfold Spec.firstWins at 2. simpl. rewrite <- Hseen.
    destruct (bool_decide (trim (orEmpty s) = []) || bool_decide (trim (orEmpty s) ∈ seen));
      simpl; apply IH; [done|]. subst seen. by rewrite List.map_app. }
  by apply Hgen.
Qed.

Lemma normalizeOptions_firstWins arr :
  QuickFiltersBar.normalizeOptions arr
  = fold_left Spec.firstWins (List.map Forms.optionOf arr) [].
Proof.
  unfold QuickFiltersBar.normalizeOptions.
  assert (Hgen : forall out seen,
    seen = List.map opt_value out ->
    (fold_left
      (fun '(out, seen) it =>
         let '(label, value, color) :=
           match it with
           | QuickFiltersBar.RawText s => (s, s, None)
           | QuickFiltersBar.RawObject l v n c =>
             (orEmpty (QuickFiltersBar.orElse l (QuickFiltersBar.orElse v n)),
              orEmpty (QuickFiltersBar.orElse v (QuickFiltersBar.orElse n l)), c)
           end in
         if bool_decide (value = []) || bool_decide (value ∈ seen) then (out, seen)
         else (out ++ [{| opt_label := label; opt_value := value; opt_color := color |}],
               setAdd seen value))
      arr (out, seen)).1
    = fold_left Spec.firstWins (List.map Forms.optionOf arr) out).
  { induction arr as [|it arr IH]; intros out seen Hseen; simpl; [done|].
    unfold Spec.firstWins at 2. rewrite <- Hseen.
    destruct it as [s | l v n c]; simpl.
    - destruct (bool_decide (s = [])) eqn:He; simpl; [by apply IH|].
      destruct (bool_decide (s ∈ seen)) eqn:Hin; simpl; [by apply IH|].
      apply IH. unfold setAdd. rewrite Hin. subst seen. by rewrite List.map_app.
    - set (value := orEmpty (QuickFiltersBar.orElse v (QuickFiltersBar.orElse n l))).
      destruct (bool_decide (value = [])) eqn:He; simpl; [by apply IH|].
      destruct (bool_decide (value ∈ seen)) eqn:Hin; simpl; [by apply IH|].
      apply IH. unfold setAdd. rewrite Hin. subst seen. by rewrite List.map_app. }
  by apply Hgen.
Qed.

Lemma fold_firstWins_from src acc e :
  e ∈ fold_left Spec.firstWins src acc -> e ∈ acc \/ e ∈ src.
Proof.
  destruct (fold_firstWins_appends src acc) as (tail & -> & Htail).
  intros [?|Hin]%elem_of_app; [by left|]. right.
  rewrite Forall_forall in Htail. by apply Htail.
Qed.

(** X2. [norm] returns a normal form: its values are distinct, non-empty
    and trimmed, each entry has its value as label and no colour, the values
    are exactly the non-empty trimmed inputs, and normalising the values of
    the result again changes nothing. *)
Theorem norm_normal_form (strs : list (option jsstring)) :
  let out := norm strs in
  NoDup (List.map opt_value out)
  /\ Forall (fun e => opt_value e <> [] /\ trim (opt_value e) = opt_value e
                      /\ opt_label e = opt_value e /\ opt_color e = None) out
  /\ (forall v, v ∈ List.map opt_value out
                <-> v <> [] /\ exists s, s ∈ strs /\ trim (orEmpty s) = v)
  /\ norm (List.map (fun e => Some (opt_value e)) out) = out.
Proof.
  intros out.
  destruct (norm_distinct strs) as [Hnd Hne]. fold out in Hnd, Hne.
  assert (Hplain : forall e, e ∈ out -> exists s, s ∈ strs /\ e = Forms.plain (trim (orEmpty s))).
  { intros e He. subst out. rewrite norm_firstWins in He.
    apply fold_firstWins_from in He as [He|He]; [by apply elem_of_nil in He|].
    apply list_elem_of_In, in_map_iff in He as (s & <- & Hs).
    exists s. by rewrite list_elem_of_In. }
  split; [done|]. split; [|split].
  - apply Forall_forall. intros e He.
    rewrite Forall_forall in Hne. split; [by apply Hne|].
    destruct (Hplain e He) as (s & _ & ->). simpl. by rewrite trim_idem.
  - intros v. split.
    + intros Hv. apply list_elem_of_In, in_map_iff in Hv as (e & <- & He).
      apply list_elem_of_In in He. rewrite Forall_forall in Hne. split; [by apply Hne|].
      destruct (Hplain e He) as (s & Hs & ->). by exists s.
    + intros (Hv & s & Hs & <-). subst out. rewrite norm_firstWins.
      apply fold_firstWins_complete; [done|]. simpl.
      apply list_elem_of_In, in_map_iff.
      exists (Forms.plain (trim (orEmpty s))). split; [done|].
      apply in_map_iff. exists s. by rewrite <- list_elem_of_In.
  - rewrite norm_firstWins, List.map_map.
    assert (Hid : List.map (fun e => Forms.plain (trim (orEmpty (Some (opt_value e))))) out = out).
    { rewrite <- (List.map_id out) at 2. apply List.map_ext_in. intros e He.
      apply list_elem_of_In in He. destruct (Hplain e He) as (s & _ & ->). simpl.
      by rewrite trim_idem. }
    rewrite Hid. by apply (fold_firstWins_self out []).
Qed.

(** X3. [normalizeOptions] returns distinct, non-empty values, each with
    the label and colour of the first input that carries the value, and it
    is idempotent: the bar normalises the list it has stored already
    normalised, and reads the same list back. *)
Theorem normalizeOptions_idempotent (arr : list QuickFiltersBar.rawOption) :
  let out := QuickFiltersBar.normalizeOptions arr in
  NoDup (List.map opt_value out)
  /\ Forall (fun e => opt_value e <> []
                      /\ List.find (fun p => str_eqb (opt_value p) (opt_value e))
                           (List.map Forms.optionOf arr) = Some e) out
  /\ (forall it, it ∈ arr -> opt_value (Forms.optionOf it) <> [] ->
                 opt_value (Forms.optionOf it) ∈ List.map opt_value out)
  /\ QuickFiltersBar.normalizeOptions (List.map QuickFiltersBar.asRaw out) = out.
Proof.
  intros out.
  assert (Hd : Aux.distinctValues out).
  { subst out. rewrite normalizeOptions_firstWins.
    apply fold_firstWins_distinct, distinctValues_nil. }
  split; [apply Hd|]. split; [|split].
  - apply Forall_forall. intros e He. split.
    + destruct Hd as [_ Hne]. rewrite Forall_forall in Hne. by apply Hne.
    + subst out. rewrite normalizeOptions_firstWins in He.
      apply (fold_firstWins_first _ [] e distinctValues_nil He).
  - intros it Hit Hne. subst out. rewrite normalizeOptions_firstWins.
    apply fold_firstWins_complete; [done|]. simpl.
    apply list_elem_of_In, in_map, in_map. by apply list_elem_of_In.
  - rewrite normalizeOptions_firstWins, List.map_map.
    assert (Hid : List.map (fun e => Forms.optionOf (QuickFiltersBar.asRaw e)) out = out).
    { rewrite <- (List.map_id out) at 2. apply List.map_ext. by intros []. }
    rewrite Hid. by apply (fold_firstWins_self out []).
Qed.

(** *** Filters that need no coercion *)

Lemma pushNum_app n fn op F : pushNum n fn op F = F ++ Forms.numPart n fn op.
Proof. destruct n; simpl; [done | by rewrite app_nil_r]. Qed.

Lemma wireTuples_pass (F : list filter) :
  Forall (fun f => tupleStep [] (entryOf f) = [Forms.toWire f]) F ->
  wireTuples (List.map entryOf F) = List.map Forms.toWire F.
Proof.
  rewrite wireTuples_flat.
  induction 1 as [|f F Hf _ IH]; [done|].
  cbn [List.map flat_map]. by rewrite Hf, IH.
Qed.

Lemma firstField_cases fields candidates fallback :
  firstField fields candidates fallback ∈ fallback :: candidates.
Proof.
  unfold firstField. destruct (List.find _ candidates) as [f|] eqn:E; simpl.
  - apply find_some in E as [E _]. apply elem_of_cons. right. by apply list_elem_of_In.
  - apply elem_of_cons. by left.
Qed.

Lemma LAST_CONTACT_FIELD_cases fields :
  df_fieldname (LAST_CONTACT_FIELD fields)
  ∈ [js "last_contacted_on"; js "last_contacted"; js "last_contact_date"; js "last_contact"].
Proof.
  unfold LAST_CONTACT_FIELD. destruct (List.find _ fields) as [f|] eqn:E; simpl.
  - apply find_some in E as [_ E]. by apply bool_decide_eq_true in E.
  - apply elem_of_cons. by left.
Qed.

Lemma SOURCE_FIELD_cases fields :
  SOURCE_FIELD fields = js "lead_source" \/ SOURCE_FIELD fields = js "source".
Proof. unfold SOURCE_FIELD. repeat (destruct (hasField _ _)); auto. Qed.

(** A filter on a field other than [delayed], with a non-blank value and one
    of the operators the page writes, is handed on as it is. *)
Lemma tupleStep_plain (fn op : jsstring) (v : jsvalue) :
  fn <> [] -> fn <> js "delayed" -> isBlank v = false ->
  op ∈ [js "="; js ">="; js "<="; js "is"; js "like"] ->
  tupleStep [] (entryOf (mkFilter fn op v)) = [Forms.toWire (mkFilter fn op v)].
Proof.
  intros Hfn Hd Hv Hop. unfold tupleStep, entryOf, Forms.toWire. simpl.
  destruct fn as [|c fn]; [done|]. simpl. rewrite Hv. simpl.
  unfold str_eqb. rewrite (bool_decide_eq_false_2 _ Hd).
  repeat (apply elem_of_cons in Hop as [-> | Hop]; [reflexivity|]).
  by apply elem_of_nil in Hop.
Qed.

Ltac field_cases H :=
  repeat (apply elem_of_cons in H as [H | H]; [rewrite H; by vm_compute|]);
  by apply elem_of_nil in H.

Lemma field_names_plain fields :
  let ok fn := fn <> [] /\ fn <> js "delayed" in
  ok (PROJECT_FIELD fields) /\ ok (SOURCE_FIELD fields) /\ ok (LOCATION_FIELD fields)
  /\ ok (SPACE_FIELD fields) /\ ok (BUDGET_FIELD fields)
  /\ ok (df_fieldname (LAST_CONTACT_FIELD fields)).
Proof.
  intros ok. subst ok. simpl.
  pose proof (firstField_cases fields
    [js "territory"; js "location"; js "crm_location"; js "lead_territory"] (js "territory")) as Hl.
  pose proof (firstField_cases fields
    [js "space"; js "area"; js "unit_area"; js "property_space"; js "required_space"]
    (js "space")) as Hs.
  pose proof (firstField_cases fields
    [js "budget"; js "expected_budget"; js "max_budget"; js "price"; js "estimated_budget"]
    (js "budget")) as Hb.
  pose proof (LAST_CONTACT_FIELD_cases fields) as Hc.
  fold (LOCATION_FIELD fields) in Hl. fold (SPACE_FIELD fields) in Hs.
  fold (BUDGET_FIELD fields) in Hb.
  repeat split.
  1,2: destruct (PROJECT_FIELD_cases fields) as [-> | ->]; by vm_compute.
  1,2: destruct (SOURCE_FIELD_cases fields) as [-> | ->]; by vm_compute.
  1,2: field_cases Hl.
  1,2: field_cases Hs.
  1,2: field_cases Hb.
  1,2: field_cases Hc.
Qed.

Lemma present_not_blank (x : option jsstring) :
  present x = true -> isBlank (VString (orEmpty x)) = false.
Proof. by destruct x as [[|c x]|]. Qed.

Lemma panelFilters_parts fields u :
  let eq (x : option jsstring) (fn : jsstring) :=
    if present x then [mkFilter fn (js "=") (VString (orEmpty x))] else [] in
  let lastContact := df_fieldname (LAST_CONTACT_FIELD fields) in
  panelFilters fields u =
    eq (ui_status u) (js "status") ++ eq (ui_project u) (PROJECT_FIELD fields)
    ++ eq (ui_location u) (LOCATION_FIELD fields) ++ eq (ui_lead_source u) (SOURCE_FIELD fields)
    ++ eq (ui_lead_origin u) (js "lead_origin") ++ eq (ui_lead_type u) (js "lead_type")
    ++ (if present (ui_last_contacted_from u)
        then [mkFilter lastContact (js ">=") (VString (orEmpty (ui_last_contacted_from u)))]
        else [])
    ++ (if present (ui_last_contacted_to u)
        then [mkFilter lastContact (js "<=")
                (VString (panelEnd fields (orEmpty (ui_last_contacted_to u))))]
        else [])
    ++ Forms.numPart (toNum (ui_budget_min u)) (BUDGET_FIELD fields) (js ">=")
    ++ Forms.numPart (toNum (ui_budget_max u)) (BUDGET_FIELD fields) (js "<=")
    ++ Forms.numPart (toNum (ui_space_min u)) (SPACE_FIELD fields) (js ">=")
    ++ Forms.numPart (toNum (ui_space_max u)) (SPACE_FIELD fields) (js "<=").
Proof.
  intros eq lastContact. subst eq lastContact. unfold panelFilters.
  rewrite !pushNum_app, !pushIf_app. simpl. by rewrite <- !app_assoc.
Qed.

Lemma numPart_plain n fn op :
  fn <> [] -> fn <> js "delayed" -> op ∈ [js "="; js ">="; js "<="; js "is"; js "like"] ->
  Forall (fun f => tupleStep [] (entryOf f) = [Forms.toWire f]) (Forms.numPart n fn op).
Proof.
  intros Hfn Hd Hop. destruct n as [x|]; simpl; [|constructor].
  constructor; [|constructor]. by apply tupleStep_plain.
Qed.

Lemma panelEnd_not_blank fields (x : option jsstring) :
  present x = true -> isBlank (VString (panelEnd fields (orEmpty x))) = false.
Proof.
  destruct x as [[|c x]|]; try done. intros _. unfold panelEnd.
  by destruct (str_eqb _ _).
Qed.

Ltac op_listed := repeat (first [by apply list_elem_of_here | apply list_elem_of_further]).

Lemma panelFilters_plain fields u :
  Forall (fun f => tupleStep [] (entryOf f) = [Forms.toWire f]) (panelFilters fields u).
Proof.
  destruct (field_names_plain fields)
    as ([? ?] & [? ?] & [? ?] & [? ?] & [? ?] & [? ?]).
  rewrite panelFilters_parts. rewrite !Forall_app.
  repeat split;
    try (apply numPart_plain; [done | done | op_listed]);
    apply Forall_if_singleton; intros Hp;
    apply tupleStep_plain;
    try done; try (by apply present_not_blank); try (by apply panelEnd_not_blank);
    op_listed.
Qed.

Lemma queryFilters_plain fields query :
  Forall (fun f => tupleStep [] (entryOf f) = [Forms.toWire f]) (queryFilters fields query).
Proof.
  destruct (field_names_plain fields) as ([? ?] & _).
  unfold queryFilters. rewrite !pushIf_app. simpl. rewrite !Forall_app.
  repeat split; apply Forall_if_singleton; intros Hp.
  4: { by destruct (delayedValue (q_delayed query)). }
  all: apply tupleStep_plain; try done; try (by apply present_not_blank); op_listed.
Qed.

Lemma nonEmpty_not_blank (s : jsstring) :
  QuickFiltersBar.nonEmpty s = true -> isBlank (VString s) = false.
Proof. unfold QuickFiltersBar.nonEmpty. simpl. by destruct (bool_decide (s = [])). Qed.

Lemma buildFiltersPayload_plain (b : QuickFiltersBar.Bar) :
  let ok fn := fn <> [] /\ fn <> js "delayed" in
  ok (QuickFiltersBar.statusField (QuickFiltersBar.props b)) ->
  ok (QuickFiltersBar.projectField (QuickFiltersBar.props b)) ->
  ok (QuickFiltersBar.ownerField (QuickFiltersBar.props b)) ->
  ok (QuickFiltersBar.lastContact b) ->
  Forall (fun f => tupleStep [] (entryOf f) = [Forms.toWire f])
         (QuickFiltersBar.buildFiltersPayload b).
Proof.
  intros ok [? ?] [? ?] [? ?] [? ?]. unfold QuickFiltersBar.buildFiltersPayload.
  rewrite !pushIf_app.
  repeat match goal with
  | |- Forall _ (if ?c then _ else _) => destruct c eqn:?
  | |- Forall _ (_ ++ _) => apply Forall_app; split
  | |- Forall _ [] => constructor
  | |- Forall _ [_] => constructor; [|constructor]
  end.
  all: apply tupleStep_plain; try done; try (by apply nonEmpty_not_blank); try op_listed.
  all: repeat match goal with H : _ && _ = true |- _ => apply andb_true_iff in H as [? ?] end.
  all: try (by apply present_not_blank); try (by apply nonEmpty_not_blank).
  all: by destruct (QuickFiltersBar.lastTo b).
Qed.

Lemma page_filters_reach_controller_bar fields lists me s :
  wireTuples (List.map entryOf (QuickFiltersBar.buildFiltersPayload (App.barOf fields lists me s)))
  = List.map Forms.toWire (QuickFiltersBar.buildFiltersPayload (App.barOf fields lists me s)).
Proof.
  apply wireTuples_pass, buildFiltersPayload_plain.
  - by vm_compute.
  - apply (field_names_plain fields).
  - by vm_compute.
  - destruct (field_names_plain fields) as (_ & _ & _ & _ & _ & [Hne Hd]).
    unfold QuickFiltersBar.lastContact, QuickFiltersBar.nonEmpty. cbn [App.barOf
      QuickFiltersBar.props QuickFiltersBar.lastContactField].
    by rewrite (bool_decide_eq_false_2 _ Hne).
Qed.

(** X4. Every filter list the page builds reaches the controller one to one:
    for the drawer, for the route query and for the payload of the quick
    filter bar as the page instantiates it, [applyFilters] skips no entry and
    hands on each field name, operator and value as written, the 1 or 0 of
    the [delayed] filter included. *)
Theorem page_filters_reach_controller (fields : list DocField) (u : Ui) (query : Query)
    (lists : list CatalogEntry) (me : option jsstring) (s : Events.State) :
  let unchanged F := wireTuples (List.map entryOf F) = List.map Forms.toWire F in
  unchanged (panelFilters fields u)
  /\ unchanged (queryFilters fields query)
  /\ unchanged (QuickFiltersBar.buildFiltersPayload (App.barOf fields lists me s)).
Proof.
  intros unchanged. subst unchanged. cbv beta.
  split; [apply wireTuples_pass, panelFilters_plain|].
  split; [apply wireTuples_pass, queryFilters_plain|].
  apply page_filters_reach_controller_bar.
Qed.

(** *** The drawer and its reset *)

Lemma firstKey_blank (draft : Draft) keys fallback :
  (forall k, draft !! k = None \/ draft !! k = Some (Some [])) ->
  firstKey draft keys fallback = fallback.
Proof.
  intros H. induction keys as [|k keys IH]; simpl; [done|].
  destruct (H k) as [-> | ->]; [done|]. by rewrite bool_decide_eq_true_2.
Qed.

(** X5. The numeric bounds of the drawer are sticky: a draft that leaves
    every field out or empty resets status, project, location, source,
    origin, type and the dates, but the budget and space bounds kept in [ui]
    are applied again. Only after [clearDrawer], which sets them to [null],
    does such a draft leave no filter. *)
Theorem blank_draft_keeps_bounds (fields : list DocField) (draft : Draft) (u : Ui) :
  (forall k, draft !! k = None \/ draft !! k = Some (Some [])) ->
  panelFilters fields (panelUi draft u)
  = Forms.numPart (toNum (ui_budget_min u)) (BUDGET_FIELD fields) (js ">=")
    ++ Forms.numPart (toNum (ui_budget_max u)) (BUDGET_FIELD fields) (js "<=")
    ++ Forms.numPart (toNum (ui_space_min u)) (SPACE_FIELD fields) (js ">=")
    ++ Forms.numPart (toNum (ui_space_max u)) (SPACE_FIELD fields) (js "<=")
  /\ panelFilters fields (panelUi draft (Events.clearDrawer u).1) = [].
Proof.
  intros H.
  assert (Hgen : forall u',
    panelFilters fields (panelUi draft u')
    = Forms.numPart (toNum (ui_budget_min u')) (BUDGET_FIELD fields) (js ">=")
      ++ Forms.numPart (toNum (ui_budget_max u')) (BUDGET_FIELD fields) (js "<=")
      ++ Forms.numPart (toNum (ui_space_min u')) (SPACE_FIELD fields) (js ">=")
      ++ Forms.numPart (toNum (ui_space_max u')) (SPACE_FIELD fields) (js "<=")).
  { intros u'. rewrite panelFilters_parts. unfold panelUi.
    cbn [ui_status ui_project ui_location ui_lead_source ui_lead_origin ui_lead_type
         ui_last_contacted_from ui_last_contacted_to
         ui_budget_min ui_budget_max ui_space_min ui_space_max].
    by rewrite !(firstKey_blank draft _ _ H). }
  split; [apply Hgen|]. by rewrite Hgen.
Qed.

(** The theorem at work: with a budget floor of 100 in [ui] and a status
    selected, a draft with an empty status and an empty budget floor clears
    the status and keeps the floor. *)
Lemma blank_draft_keeps_bounds_witness :
  let draft : Draft := {[ js "budget_min" := Some [] ]} in
  let u :=
    {| ui_search := None; ui_status := Some (js "New"); ui_stage := None; ui_project := None;
       ui_owner := None; ui_priority := None; ui_follow_up := None;
       ui_last_contacted_from := None; ui_last_contacted_to := None;
       ui_location := None; ui_space_min := None; ui_space_max := None;
       ui_budget_min := Some (js "100"); ui_budget_max := None; ui_lead_source := None;
       ui_lead_origin := None; ui_lead_type := None |} in
  panelFilters [] (panelUi draft u) = [mkFilter (js "budget") (js ">=") (VNumber (Finite 100))]
  /\ panelFilters [] (panelUi draft (Events.clearDrawer u).1) = [].
Proof.
  intros draft u.
  destruct (blank_draft_keeps_bounds [] draft u) as [H1 H2].
  { intros k. subst draft. destruct (decide (k = js "budget_min")) as [-> | Hk].
    - right. apply lookup_singleton_eq.
    - left. apply lookup_singleton_ne. congruence. }
  split; [|exact H2]. rewrite H1. by vm_compute.
Defined.

(** *** toTuples *)

Lemma sanitizeFilters_flat arr : sanitizeFilters arr = flat_map (sanitizeStep []) arr.
Proof. unfold sanitizeFilters. by rewrite (fold_left_push _ _ _ sanitizeStep_push). Qed.

(** X6. [toTuples] keeps what [sanitizeFilters] would read: sanitising its
    output gives what sanitising the input gives; it is idempotent; and its
    output is of no use to [applyFilters], which skips arrays and so finds no
    filter in it. *)
Theorem toTuples_agrees_with_sanitizeFilters (filters : list entry) :
  sanitizeFilters (Events.toTuples filters) = sanitizeFilters filters
  /\ Events.toTuples (Events.toTuples filters) = Events.toTuples filters
  /\ wireTuples (Events.toTuples filters) = [].
Proof.
  unfold Events.toTuples. rewrite !sanitizeFilters_flat, wireTuples_flat.
  repeat split.
  - induction filters as [|f filters IH]; [done|]. cbn [List.filter flat_map].
    destruct f as [|fn op v|d fn op v]; cbn [Events.isTupleable]; [exact IH| |].
    + destruct fn as [[|c fn]|]; [exact IH| |exact IH].
      destruct op as [op|]; cbn [present andb].
      * assert (Hs : bool_decide (is_Some (Some op)) = true) by done.
        rewrite Hs. cbn [List.map flat_map]. by rewrite IH.
      * assert (Hn : bool_decide (is_Some (@None jsstring)) = false) by done.
        rewrite Hn, IH. reflexivity.
    + cbn [List.map flat_map]. by rewrite IH.
  - induction filters as [|f filters IH]; [done|]. cbn [List.filter].
    destruct (Events.isTupleable f) eqn:Hf; [|exact IH].
    cbn [List.map List.filter].
    assert (Ht : Events.isTupleable (Events.tupleOf f) = true) by (by destruct f).
    rewrite Ht. cbn [List.map]. f_equal; [by destruct f | exact IH].
  - induction filters as [|f filters IH]; [done|]. cbn [List.filter].
    destruct (Events.isTupleable f) eqn:Hf; [|exact IH].
    cbn [List.map flat_map]. rewrite IH. by destruct f.
Qed.

(** *** The route query and the controller *)

Lemma routeQueryWatcher_waits fields (qs : list Query) (s0 : Events.State) :
  viewControls (Events.page s0) = None ->
  let s1 := fold_left (fun s q => Events.routeQueryWatcher fields q s) qs s0 in
  Events.page s1 = Events.page s0
  /\ Events.timeouts s1 = Events.timeouts s0
  /\ Events.pendingQueryFilters s1
     = match last qs with Some q => Some q | None => Events.pendingQueryFilters s0 end.
Proof.
  revert s0. induction qs as [|q qs IH]; intros s0 Hvc; simpl; [done|].
  assert (Hstep : Events.routeQueryWatcher fields q s0
                  = {| Events.page := Events.page s0; Events.raf := Events.raf s0;
                       Events.pendingQueryFilters := Some q;
                       Events.timeouts := Events.timeouts s0;
                       Events.exposed := Events.exposed s0 |}).
  { unfold Events.routeQueryWatcher. by rewrite Hvc. }
  rewrite Hstep.
  match goal with |- context [fold_left _ qs ?s'] =>
    destruct (IH s' Hvc) as (Hp & Ht & Hq) end.
  split; [exact Hp|]. split; [exact Ht|]. rewrite Hq. simpl.
  destruct qs as [|q1 qs']; [done|].
  change (last (q :: q1 :: qs')) with (last (q1 :: qs')).
  destruct (last (q1 :: qs')) eqn:E; [done|]. by apply last_None in E.
Qed.

(** X7. Route queries that come while the page has no controller are not
    applied and do not touch [ui]; only the last one is kept. When the
    controller comes, its watcher moves that query to a time-out, and when
    the time-out fires the query is applied to the page as it is then,
    exactly once: a later change of the controller finds nothing pending. *)
Theorem pending_query_applied_once (fields : list DocField) (qs : list Query) (q : Query)
    (vc vc' : ViewControls) (s0 : Events.State) :
  viewControls (Events.page s0) = None -> Events.timeouts s0 = [] ->
  let s1 := fold_left (fun s q => Events.routeQueryWatcher fields q s) (qs ++ [q]) s0 in
  let s2 := Events.viewControlsWatcher fields (Some vc) (Events.setViewControls (Some vc) s1) in
  let s3 := Events.timeoutFires s2 in
  let s4 := Events.viewControlsWatcher fields (Some vc') (Events.setViewControls (Some vc') s3) in
  Events.page s1 = Events.page s0
  /\ Events.pendingQueryFilters s1 = Some q
  /\ Events.page s2 = Events.page (Events.setViewControls (Some vc) s0)
  /\ Events.page s3
     = applyQueryFilters fields q (Events.page (Events.setViewControls (Some vc) s0))
  /\ Events.pendingQueryFilters s3 = None
  /\ Events.timeouts s3 = []
  /\ Events.timeouts s4 = []
  /\ Events.page (Events.timeoutFires s4) = Events.page (Events.setViewControls (Some vc') s3).
Proof.
  intros Hvc Hto s1.
  destruct (routeQueryWatcher_waits fields (qs ++ [q]) s0 Hvc) as (Hp & Ht & Hq).
  fold s1 in Hp, Ht, Hq. rewrite last_snoc in Hq. rewrite Hto in Ht.
  intros s2 s3 s4.
  assert (H2 : Events.page s2 = Events.page (Events.setViewControls (Some vc) s0)
               /\ Events.pendingQueryFilters s2 = None
               /\ Events.timeouts s2 = [applyQueryFilters fields q]).
  { subst s2. unfold Events.viewControlsWatcher, Events.setViewControls. simpl.
    rewrite Hq, Ht, Hp. done. }
  destruct H2 as (H2p & H2q & H2t).
  assert (H3 : Events.page s3
               = applyQueryFilters fields q (Events.page (Events.setViewControls (Some vc) s0))
               /\ Events.pendingQueryFilters s3 = None /\ Events.timeouts s3 = []).
  { subst s3. unfold Events.timeoutFires. rewrite H2t. simpl. by rewrite H2p, H2q. }
  destruct H3 as (H3p & H3q & H3t).
  assert (H4 : s4 = Events.setViewControls (Some vc') s3).
  { subst s4. unfold Events.viewControlsWatcher.
    replace (Events.pendingQueryFilters (Events.setViewControls (Some vc') s3)) with (@None Query);
      done. }
  repeat split; try done.
  - by rewrite H4.
  - rewrite H4. unfold Events.timeoutFires. simpl. by rewrite H3t.
Qed.

(** The theorem at work: the page opens on [?status=New] before the
    controller is there; once the controller has come and the time-out has
    fired, the controller has been told to set the status filter, once. *)
Lemma pending_query_applied_once_witness :
  let q := {| q_status := Some (js "New"); q_type := None; q_priority := None;
              q_follow_up := None; q_delayed := VUndefined;
              q_project := None; q_user := None; q_create := None |} in
  let vc := {| has_setFilters := true; has_applyFilter := true; has_applyLikeFilter := true;
               has_clearFilters := true; has_clearLikeFilters := true; has_reload := true;
               vc_filters := []; vc_calls := [] |} in
  let s0 := {| Events.page := {| viewControls := None; loadMore := 1; updatedPageCount := 20;
                                 ui := Sample.blankUi; showLeadModal := false;
                                 showFilters := false |};
               Events.raf := None; Events.pendingQueryFilters := None;
               Events.timeouts := []; Events.exposed := false |} in
  let s1 := fold_left (fun s q => Events.routeQueryWatcher [] q s) ([] ++ [q]) s0 in
  let s2 := Events.viewControlsWatcher [] (Some vc) (Events.setViewControls (Some vc) s1) in
  let s3 := Events.timeoutFires s2 in
  Spec.callLog (Events.page s3)
  = [SetFilters [(js "CRM Lead", js "status", js "=", VString (js "New"))]]
  /\ Events.timeouts s3 = [].
Proof.
  intros q vc s0 s1 s2 s3.
  destruct (pending_query_applied_once [] [] q vc vc s0 eq_refl eq_refl)
    as (_ & _ & _ & H3 & _ & Ht & _).
  fold s1 s2 s3 in H3, Ht. split; [|exact Ht]. rewrite H3. by vm_compute.
Defined.

(** *** The calls a search makes on the controller *)

Lemma sameMethods_refl vc : Forms.sameMethods vc vc.
Proof. by repeat split. Qed.

Lemma sameMethods_trans vc1 vc2 vc3 :
  Forms.sameMethods vc1 vc2 -> Forms.sameMethods vc2 vc3 -> Forms.sameMethods vc1 vc3.
Proof.
  unfold Forms.sameMethods. intros (?&?&?&?&?&?) (?&?&?&?&?&?).
  repeat split; congruence.
Qed.

Lemma installs_app filters calls1 calls2 :
  Forms.installs filters (calls1 ++ calls2)
  = Forms.installs (Forms.installs filters calls1) calls2.
Proof. apply fold_left_app. Qed.

Lemma ran_refl vc : Forms.ran vc [] vc.
Proof. split; [apply sameMethods_refl | by rewrite app_nil_r]. Qed.

Lemma ran_trans vc1 vc2 vc3 calls1 calls2 :
  Forms.ran vc1 calls1 vc2 -> Forms.ran vc2 calls2 vc3 ->
  Forms.ran vc1 (calls1 ++ calls2) vc3.
Proof.
  intros (Hm1 & Hc1) (Hm2 & Hc2).
  split; [by eapply sameMethods_trans | by rewrite Hc2, Hc1, app_assoc].
Qed.

(** The flat lists of calls depend on the methods of the handle alone. *)
Lemma calls_same vc vc' :
  Forms.sameMethods vc vc' ->
  (forall f, Forms.likeCall vc' f = Forms.likeCall vc f)
  /\ Forms.reloadCall vc' = Forms.reloadCall vc
  /\ Forms.clearLikeCall vc' = Forms.clearLikeCall vc
  /\ Forms.blankCall vc' = Forms.blankCall vc.
Proof.
  intros (Hs & Ha & Hl & Hc & Hcl & Hr).
  unfold Forms.likeCall, Forms.reloadCall, Forms.clearLikeCall, Forms.blankCall.
  by rewrite Ha, Hl, Hc, Hcl, Hr.
Qed.

Lemma vc_reload_opt_ran vc : Forms.ran vc (Forms.reloadCall vc) (vc_reload_opt vc).
Proof.
  unfold vc_reload_opt, Forms.reloadCall.
  destruct (has_reload vc); [by repeat split | apply ran_refl].
Qed.

(** One payload entry through either path, the bar's or the page's. *)
Lemma directLike_ran vc f : Forms.ran vc (Forms.likeCall vc f) (QuickFiltersBar.directLike vc f).
Proof.
  unfold QuickFiltersBar.directLike, Forms.likeCall.
  destruct (has_applyLikeFilter vc); [by repeat split|].
  destruct (has_applyFilter vc); [by repeat split | apply ran_refl].
Qed.

Lemma likeStep_ran vc f :
  QuickFiltersBar.like_fieldname f <> [] -> QuickFiltersBar.like_value f <> [] ->
  Forms.ran vc (Forms.likeCall vc f) (Events.likeStep vc f).
Proof.
  intros Hfn Hv. unfold Events.likeStep, Forms.likeCall.
  rewrite (bool_decide_eq_false_2 _ Hfn), (bool_decide_eq_false_2 _ Hv). cbn [orb].
  destruct (has_applyLikeFilter vc); [by repeat split|].
  destruct (has_applyFilter vc); [|apply ran_refl].
  assert (Ht : omap Events.wireOf (Events.toTuples [entryOf (Forms.likePayload f)])
               = [Forms.likeWire f]).
  { destruct (QuickFiltersBar.like_fieldname f) as [|c fn] eqn:E; [done|].
    unfold Forms.likePayload, Forms.likeWire. rewrite E. reflexivity. }
  fold (Forms.likePayload f). rewrite Ht. by repeat split.
Qed.

Lemma fold_ran (step : ViewControls -> QuickFiltersBar.Like -> ViewControls)
    (P : QuickFiltersBar.Like -> Prop) payload :
  (forall vc f, P f -> Forms.ran vc (Forms.likeCall vc f) (step vc f)) ->
  Forall P payload ->
  forall vc, Forms.ran vc (flat_map (Forms.likeCall vc) payload) (fold_left step payload vc).
Proof.
  intros Hstep Hall. induction Hall as [|f payload Hf _ IH]; intros vc; [apply ran_refl|].
  cbn [flat_map fold_left]. eapply ran_trans; [by apply Hstep|].
  destruct (Hstep vc f Hf) as (Hm & _).
  destruct (calls_same _ _ Hm) as (Hl & _).
  rewrite <- (flat_map_ext _ _ Hl payload) by done. apply IH.
Qed.

Lemma directApply_ran payload vc :
  Forms.ran vc (flat_map (Forms.likeCall vc) payload ++ Forms.reloadCall vc)
            (QuickFiltersBar.directApply payload vc).
Proof.
  unfold QuickFiltersBar.directApply.
  pose proof (fold_ran QuickFiltersBar.directLike (fun _ => True) payload
                (fun vc f _ => directLike_ran vc f)) as Hfold.
  specialize (Hfold ltac:(by apply Forall_forall) vc).
  eapply ran_trans; [exact Hfold|].
  destruct Hfold as (Hm & _). destruct (calls_same _ _ Hm) as (_ & <- & _).
  apply vc_reload_opt_ran.
Qed.

(** The payload of [runSearchLike] depends on the search text alone, and
    its entries have a field name and a value. *)
Lemma runSearchLike_payload_model b b' :
  QuickFiltersBar.model b = QuickFiltersBar.model b' ->
  (QuickFiltersBar.runSearchLike b).1 = (QuickFiltersBar.runSearchLike b').1.
Proof.
  intros H. unfold QuickFiltersBar.runSearchLike, QuickFiltersBar.search. rewrite H.
  destruct (trim _); [done|]. by destruct (QuickFiltersBar.isDigits _).
Qed.

Lemma normalizeDigits_trimmed s :
  QuickFiltersBar.normalizeDigits (trim s) = replaceArabicDigits (trim s).
Proof.
  unfold QuickFiltersBar.normalizeDigits, replaceArabicDigits.
  by rewrite (trim_map _ _ arabicToAscii_ws), trim_idem.
Qed.

Lemma runSearchLike_payload_filled b :
  Forall (fun f => QuickFiltersBar.like_fieldname f <> [] /\ QuickFiltersBar.like_value f <> [])
         (QuickFiltersBar.runSearchLike b).1.
Proof.
  unfold QuickFiltersBar.runSearchLike.
  destruct (trim (QuickFiltersBar.search b)) as [|c r] eqn:Hraw; [constructor|].
  destruct (QuickFiltersBar.isDigits (c :: r)); simpl.
  - rewrite <- Hraw, normalizeDigits_trimmed, Hraw.
    repeat (constructor; [by split|]). constructor.
  - by repeat constructor.
Qed.

(** The controller after the direct fallback of [runSearchLike]. *)
Lemma runSearchLike_direct b vc :
  QuickFiltersBar.LEADS_VIEWCONTROLS b = Some vc ->
  exists vc', (QuickFiltersBar.runSearchLike b).2 = Some vc'
    /\ Forms.ran vc (Forms.directCalls vc (trim (QuickFiltersBar.search b))
                       (QuickFiltersBar.runSearchLike b).1) vc'.
Proof.
  intros Hvc. unfold QuickFiltersBar.runSearchLike, Forms.directCalls. rewrite Hvc.
  destruct (trim (QuickFiltersBar.search b)) as [|c r] eqn:Hraw; cbn [fst snd option_map].
  - eexists. split; [done|].
    assert (Hclear : Forms.ran vc (Forms.blankCall vc)
              (if has_clearLikeFilters vc then vc_clearLikeFilters vc
               else if has_clearFilters vc then vc_clearFilters vc else vc)).
    { unfold Forms.blankCall. destruct (has_clearLikeFilters vc); [by repeat split|].
      destruct (has_clearFilters vc); [by repeat split | apply ran_refl]. }
    eapply ran_trans; [exact Hclear|].
    destruct Hclear as (Hm & _). destruct (calls_same _ _ Hm) as (_ & <- & _).
    apply vc_reload_opt_ran.
  - destruct (QuickFiltersBar.isDigits (c :: r)); cbn [fst snd option_map].
    + eexists. split; [done|]. rewrite app_nil_r. apply directApply_ran.
    + eexists. split; [done|].
      set (payload := [ {| QuickFiltersBar.like_fieldname := js "first_name";
                           QuickFiltersBar.like_value := c :: r |} ]).
      pose proof (directApply_ran payload vc) as H1.
      eapply ran_trans; [exact H1|].
      destruct H1 as (Hm & _). destruct (calls_same _ _ Hm) as (Hl & Hr & _).
      rewrite <- Hr, <- (flat_map_ext _ _ Hl payload) by done. apply directApply_ran.
Qed.

Lemma runSearchLike_no_handle b :
  QuickFiltersBar.LEADS_VIEWCONTROLS b = None -> (QuickFiltersBar.runSearchLike b).2 = None.
Proof.
  intros H. unfold QuickFiltersBar.runSearchLike. rewrite H.
  destruct (trim _); [done|]. by destruct (QuickFiltersBar.isDigits _).
Qed.

(** The animation-frame callback of [applyLike]. *)
Lemma applyLikeNow_ran payload st vc :
  viewControls st = Some vc ->
  Forall (fun f => QuickFiltersBar.like_fieldname f <> [] /\ QuickFiltersBar.like_value f <> [])
         payload ->
  exists vc', viewControls (Events.applyLikeNow payload st) = Some vc'
    /\ Forms.ran vc (Forms.frameCalls vc payload) vc'
    /\ ui (Events.applyLikeNow payload st) = ui st.
Proof.
  intros Hvc Hall. unfold Events.applyLikeNow, Forms.frameCalls. rewrite Hvc.
  set (vc1 := if has_clearLikeFilters vc then vc_clearLikeFilters vc else vc).
  assert (H1 : Forms.ran vc (Forms.clearLikeCall vc) vc1).
  { subst vc1. unfold Forms.clearLikeCall.
    destruct (has_clearLikeFilters vc); [by repeat split | apply ran_refl]. }
  pose proof (fold_ran Events.likeStep _ payload
                (fun vc f (H : _ /\ _) => likeStep_ran vc f (proj1 H) (proj2 H)) Hall vc1) as H2.
  pose proof (vc_reload_opt_ran (fold_left Events.likeStep payload vc1)) as H3.
  exists (vc_reload_opt (fold_left Events.likeStep payload vc1)).
  split; [by destruct payload|]. split; [|by destruct payload].
  eapply ran_trans; [exact H1|]. eapply ran_trans.
  - destruct H1 as (Hm & _). destruct (calls_same _ _ Hm) as (Hl & _).
    rewrite <- (flat_map_ext _ _ Hl payload) by done. exact H2.
  - destruct (ran_trans _ _ _ _ _ H1 H2) as (Hm & _).
    destruct (calls_same _ _ Hm) as (_ & <- & _). exact H3.
Qed.

(** What a log of calls shows of a page after some steps. *)
Lemma ran_issued st st' vc vc' calls :
  viewControls st = Some vc -> viewControls st' = Some vc' -> Forms.ran vc calls vc' ->
  Spec.issued st st' = calls.
Proof.
  intros Hvc Hvc' (_ & Hc). unfold Spec.issued, Spec.callLog.
  rewrite Hvc, Hvc', Hc. by rewrite drop_app_length.
Qed.

(** Neither the like calls nor a reload replace the filter set. *)
Lemma installs_like_calls vc payload filters :
  Forms.installs filters (flat_map (Forms.likeCall vc) payload) = filters.
Proof.
  revert filters. induction payload as [|f payload IH]; intros filters; [done|].
  cbn [flat_map]. rewrite installs_app.
  assert (H1 : Forms.installs filters (Forms.likeCall vc f) = filters).
  { unfold Forms.likeCall.
    destruct (has_applyLikeFilter vc); [done|]. by destruct (has_applyFilter vc). }
  by rewrite H1.
Qed.

Lemma installs_reloadCall vc filters : Forms.installs filters (Forms.reloadCall vc) = filters.
Proof. unfold Forms.reloadCall. by destruct (has_reload vc). Qed.

Lemma installs_clearLikeCall vc filters :
  Forms.installs filters (Forms.clearLikeCall vc) = filters.
Proof. unfold Forms.clearLikeCall. by destruct (has_clearLikeFilters vc). Qed.

Lemma installs_frameCalls vc payload filters :
  Forms.installs filters (Forms.frameCalls vc payload) = filters.
Proof.
  unfold Forms.frameCalls.
  by rewrite !installs_app, installs_clearLikeCall, installs_like_calls, installs_reloadCall.
Qed.

Lemma installs_directCalls vc raw payload filters :
  raw <> [] \/ has_clearLikeFilters vc = true \/ has_clearFilters vc = false ->
  Forms.installs filters (Forms.directCalls vc raw payload) = filters.
Proof.
  intros H. unfold Forms.directCalls. destruct raw as [|c r].
  - unfold Forms.blankCall. rewrite installs_app, installs_reloadCall.
    destruct (has_clearLikeFilters vc); [done|].
    destruct (has_clearFilters vc); [|done]. by destruct H as [? | [? | ?]].
  - rewrite !installs_app, installs_like_calls, installs_reloadCall.
    destruct (QuickFiltersBar.isDigits _); [done|].
    by rewrite installs_app, installs_like_calls, installs_reloadCall.
Qed.

Lemma installs_blank_clearFilters vc payload filters :
  has_clearLikeFilters vc = false -> has_clearFilters vc = true ->
  Forms.installs filters (Forms.directCalls vc [] payload) = [].
Proof.
  intros Hl Hc. unfold Forms.directCalls, Forms.blankCall.
  by rewrite Hl, Hc, installs_app, installs_reloadCall.
Qed.

Lemma flows_same vc vc' raw payload :
  Forms.sameMethods vc vc' ->
  Forms.directCalls vc' raw payload = Forms.directCalls vc raw payload
  /\ Forms.frameCalls vc' payload = Forms.frameCalls vc payload.
Proof.
  intros Hm. destruct (calls_same _ _ Hm) as (Hl & Hr & Hc & Hb).
  unfold Forms.directCalls, Forms.frameCalls.
  by rewrite Hr, Hc, Hb, (flat_map_ext _ _ Hl payload).
Qed.

(** [applyFilters] on a live controller. *)
Lemma applyFilters_ran filters replace st vc :
  viewControls st = Some vc ->
  exists vc0, viewControls (applyFilters filters replace st) = Some vc0
    /\ Forms.ran vc (Forms.pushCalls vc (wireTuples filters) replace) vc0
    /\ ui (applyFilters filters replace st) = ui st.
Proof.
  intros Hvc. unfold applyFilters, Forms.pushCalls. rewrite Hvc.
  destruct (wireTuples filters) as [|t ts].
  - destruct (has_clearFilters vc).
    + eexists. split; [done|]. split; [|done].
      apply (ran_trans vc (vc_clearFilters vc) _ [ClearFilters]); [by repeat split|].
      apply (vc_reload_opt_ran (vc_clearFilters vc)).
    + exists vc. split; [done|]. split; [apply ran_refl | done].
  - destruct (has_setFilters vc); [eexists; split; [done|]; split; [by repeat split | done]|].
    destruct (has_applyFilter vc); [eexists; split; [done|]; split; [|done]|].
    + by repeat split.
    + exists vc. split; [done|]. split; [apply ran_refl | done].
Qed.

(** *** The bar inside the page *)

Section WiringFacts.
Variable fields : list DocField.
Variable lists : list CatalogEntry.
Variable me : option jsstring.

(** A search of the bar in the page, up to the animation frame: the calls
    of the direct fallback, when the ref is on [window], then those of
    [applyLike]. *)
Lemma search_ran (s : Events.State) (vc : ViewControls) :
  viewControls (Events.page s) = Some vc ->
  let b := App.barOf fields lists me s in
  let payload := (QuickFiltersBar.runSearchLike b).1 in
  let direct := if Events.exposed s
                then Forms.directCalls vc (trim (QuickFiltersBar.search b)) payload else [] in
  let s1 := App.runSearchLike fields lists me s in
  let s2 := Events.animationFrame s1 in
  exists vc1 vc2,
    viewControls (Events.page s1) = Some vc1 /\ Forms.ran vc direct vc1
    /\ viewControls (Events.page s2) = Some vc2
    /\ Forms.ran vc1 (Forms.frameCalls vc payload) vc2
    /\ Events.raf s2 = None
    /\ ui (Events.page s2) = ui (Events.page s).
Proof.
  intros Hvc b payload direct s1 s2.
  assert (H1 : Events.raf s1 = Some (Events.applyLikeNow payload)
               /\ ui (Events.page s1) = ui (Events.page s)
               /\ exists vc1, viewControls (Events.page s1) = Some vc1
                              /\ Forms.ran vc direct vc1).
  { subst s1 direct payload. unfold App.runSearchLike. fold b.
    destruct (Events.exposed s) eqn:Hexp.
    - assert (Hb : QuickFiltersBar.LEADS_VIEWCONTROLS b = Some vc).
      { subst b. unfold App.barOf. simpl. by rewrite Hexp. }
      destruct (runSearchLike_direct b vc Hb) as (vc1 & H2 & Hran).
      destruct (QuickFiltersBar.runSearchLike b) as [payload ovc]. simpl in H2. subst ovc.
      simpl. split; [done|]. split; [done|]. by exists vc1.
    - assert (Hb : QuickFiltersBar.LEADS_VIEWCONTROLS b = None).
      { subst b. unfold App.barOf. simpl. by rewrite Hexp. }
      pose proof (runSearchLike_no_handle b Hb) as H2.
      destruct (QuickFiltersBar.runSearchLike b) as [payload ovc]. simpl in H2. subst ovc.
      simpl. split; [done|]. split; [done|]. exists vc. split; [done | apply ran_refl]. }
  destruct H1 as (Hraf & Hui & vc1 & Hvc1 & Hran).
  destruct (applyLikeNow_ran payload _ vc1 Hvc1 (runSearchLike_payload_filled b))
    as (vc2 & Hvc2 & Hran2 & Hui2).
  exists vc1, vc2. split; [done|]. split; [done|].
  subst s2. unfold Events.animationFrame. rewrite Hraf. cbn [Events.page Events.raf].
  split; [done|]. split; [|split; [done | by rewrite Hui2]].
  destruct Hran as (Hm & _). destruct (flows_same vc vc1 [] payload Hm) as [_ <-]. exact Hran2.
Qed.

End WiringFacts.

(** X8. A search of the bar reaches the controller through two paths and is
    sent more than once. When the page has put the controller ref on
    [window], the direct fallback of the bar calls the controller at once: for
    a blank search [clearLikeFilters], or [clearFilters] when that is all the
    controller has, then [reload]; for a phone search one like call per
    payload entry and [reload]; for a free-text search its one like call and
    [reload], twice over. When the animation frame requested by [applyLike]
    comes, the page calls [clearLikeFilters], sends every payload entry again
    and reloads again. A like call is [applyLikeFilter] with the field, the
    operator [like] and the value between percent signs, or, on a controller
    without it, [applyFilter] with that one tuple and [replace: false]. *)
Theorem search_is_sent_on_two_paths (fields : list DocField) (lists : list CatalogEntry)
    (me : option jsstring) (s : Events.State) (vc : ViewControls) :
  viewControls (Events.page s) = Some vc ->
  let b := App.barOf fields lists me s in
  let payload := (QuickFiltersBar.runSearchLike b).1 in
  let s1 := App.runSearchLike fields lists me s in
  let s2 := Events.animationFrame s1 in
  Spec.issued (Events.page s) (Events.page s1)
  = (if Events.exposed s
     then Forms.directCalls vc (trim (QuickFiltersBar.search b)) payload else [])
  /\ Spec.issued (Events.page s1) (Events.page s2) = Forms.frameCalls vc payload
  /\ Events.raf s2 = None.
Proof.
  intros Hvc b payload s1 s2.
  destruct (search_ran fields lists me s vc Hvc)
    as (vc1 & vc2 & Hvc1 & Hran1 & Hvc2 & Hran2 & Hraf & _).
  split; [exact (ran_issued _ _ _ _ _ Hvc Hvc1 Hran1)|].
  split; [exact (ran_issued _ _ _ _ _ Hvc1 Hvc2 Hran2) | exact Hraf].
Qed.

(** The theorem at work: the search text "ali" on a controller with every
    method, the ref being on [window]: three like calls and three reloads. *)
Lemma search_is_sent_on_two_paths_witness :
  let ali := ApplyLikeFilter (mkFilter (js "first_name") (js "like") (VString (js "%ali%"))) in
  let vc := {| has_setFilters := true; has_applyFilter := true; has_applyLikeFilter := true;
               has_clearFilters := true; has_clearLikeFilters := true; has_reload := true;
               vc_filters := []; vc_calls := [] |} in
  let s := {| Events.page := {| viewControls := Some vc; loadMore := 1; updatedPageCount := 20;
                                ui := Sample.withSearch (js " ali "); showLeadModal := false;
                                showFilters := false |};
              Events.raf := None; Events.pendingQueryFilters := None;
              Events.timeouts := []; Events.exposed := true |} in
  let s1 := App.runSearchLike [] [] None s in
  Spec.issued (Events.page s) (Events.page s1) = [ali; Reload; ali; Reload]
  /\ Spec.issued (Events.page s1) (Events.page (Events.animationFrame s1))
     = [ClearLikeFilters; ali; Reload].
Proof.
  intros ali vc s s1.
  destruct (search_is_sent_on_two_paths [] [] None s vc eq_refl) as (H1 & H2 & _).
  split; [exact H1 | exact H2].
Defined.

(** X9. A change in the quick filter bar reaches the controller as the push
    of the bar's own tuples, followed by the calls of the search: the push is
    [setFilters] with the tuples, or, on a controller without it,
    [applyFilter] with [replace: false], the page handing no replace flag on,
    or [clearFilters] and [reload] when the bar holds no filter; [ui] is left
    as it is. On a controller that has [setFilters], [clearFilters] and
    [clearLikeFilters] the push is the last of these calls that replaces the
    filter set, so what they install is the bar's tuples, whatever was in
    place before, the filters of the drawer included. On a controller with
    [clearFilters] and without [clearLikeFilters], once the ref is on [window]
    and the search is blank, the fallback of the bar calls [clearFilters]
    after the push: what the calls install is the empty set. *)
Theorem quick_bar_push_calls (fields : list DocField) (lists : list CatalogEntry)
    (me : option jsstring) (s : Events.State) (vc : ViewControls) :
  viewControls (Events.page s) = Some vc ->
  let b := App.barOf fields lists me s in
  let tuples := List.map Forms.toWire (QuickFiltersBar.buildFiltersPayload b) in
  let payload := (QuickFiltersBar.runSearchLike b).1 in
  let raw := trim (QuickFiltersBar.search b) in
  let s2 := Events.animationFrame (App.pushFilters fields lists me s) in
  Spec.issued (Events.page s) (Events.page s2)
  = Forms.pushCalls vc tuples false
    ++ (if Events.exposed s then Forms.directCalls vc raw payload else [])
    ++ Forms.frameCalls vc payload
  /\ ui (Events.page s2) = ui (Events.page s)
  /\ (has_setFilters vc = true -> has_clearFilters vc = true ->
      has_clearLikeFilters vc = true ->
      Forms.installs (vc_filters vc) (Spec.issued (Events.page s) (Events.page s2)) = tuples)
  /\ (has_clearFilters vc = true -> has_clearLikeFilters vc = false ->
      Events.exposed s = true -> raw = [] ->
      Forms.installs (vc_filters vc) (Spec.issued (Events.page s) (Events.page s2)) = []).
Proof.
  intros Hvc b tuples payload raw s2. subst s2. unfold App.pushFilters. fold b.
  set (F := QuickFiltersBar.buildFiltersPayload b).
  destruct (applyFilters_ran (List.map entryOf F) false (Events.page s) vc Hvc)
    as (vc0 & Hvc0 & Hran0 & Hui).
  pose proof (page_filters_reach_controller_bar fields lists me s) as Hw.
  fold b F in Hw. rewrite Hw in Hran0.
  change (List.map Forms.toWire F) with tuples in Hran0.
  set (s' := Events.withPage s (applyFilters (List.map entryOf F) false (Events.page s))).
  assert (Hvc' : viewControls (Events.page s') = Some vc0) by exact Hvc0.
  assert (Hmodel : QuickFiltersBar.model (App.barOf fields lists me s')
                   = QuickFiltersBar.model b) by exact Hui.
  assert (Hpay : (QuickFiltersBar.runSearchLike (App.barOf fields lists me s')).1 = payload).
  { by apply runSearchLike_payload_model. }
  assert (Hraw : trim (QuickFiltersBar.search (App.barOf fields lists me s')) = raw).
  { subst raw. unfold QuickFiltersBar.search. by rewrite Hmodel. }
  destruct (search_ran fields lists me s' vc0 Hvc')
    as (vc1 & vc2 & Hvc1 & Hran1 & Hvc2 & Hran2 & _ & Hui2).
  rewrite Hpay in Hran1, Hran2. rewrite Hraw in Hran1.
  change (Events.exposed s') with (Events.exposed s) in Hran1.
  destruct Hran0 as (Hm0 & Hrest0). pose proof (conj Hm0 Hrest0) as Hran0.
  destruct (flows_same vc vc0 raw payload Hm0) as [Hd Hf].
  rewrite Hf in Hran2.
  assert (Hd' : (if Events.exposed s then Forms.directCalls vc0 raw payload else [])
                = (if Events.exposed s then Forms.directCalls vc raw payload else []))
    by (by rewrite Hd).
  rewrite Hd' in Hran1.
  pose proof (ran_trans _ _ _ _ _ Hran0 (ran_trans _ _ _ _ _ Hran1 Hran2)) as Hall.
  pose proof (ran_issued _ _ _ _ _ Hvc Hvc2 Hall) as Hissued.
  split; [exact Hissued|]. split; [by rewrite Hui2|].
  rewrite Hissued, !installs_app, installs_frameCalls. split.
  - intros Hset Hclr Hlike.
    assert (Hpush : Forms.installs (vc_filters vc) (Forms.pushCalls vc tuples false) = tuples).
    { unfold Forms.pushCalls. rewrite Hset, Hclr.
      destruct tuples; [|done]. cbn [Forms.installs fold_left]. apply installs_reloadCall. }
    rewrite Hpush. destruct (Events.exposed s); [|done].
    apply installs_directCalls. by right; left.
  - intros Hclr Hlike Hexp ->. rewrite Hexp. by apply installs_blank_clearFilters.
Qed.

(** The theorem at work: the drawer had applied a location filter; picking
    the status New in the bar, with no search text, sends [setFilters] with
    the status tuple alone, then the calls of the blank search. *)
Lemma quick_bar_push_calls_witness :
  let location := (js "CRM Lead", js "territory", js "=", VString (js "Cairo")) in
  let status := (js "CRM Lead", js "status", js "=", VString (js "New")) in
  let vc := {| has_setFilters := true; has_applyFilter := true; has_applyLikeFilter := true;
               has_clearFilters := true; has_clearLikeFilters := true; has_reload := true;
               vc_filters := [location]; vc_calls := [] |} in
  let u :=
    {| ui_search := None; ui_status := Some (js "New"); ui_stage := None; ui_project := None;
       ui_owner := None; ui_priority := None; ui_follow_up := None;
       ui_last_contacted_from := None; ui_last_contacted_to := None;
       ui_location := Some (js "Cairo"); ui_space_min := None; ui_space_max := None;
       ui_budget_min := None; ui_budget_max := None; ui_lead_source := None;
       ui_lead_origin := None; ui_lead_type := None |} in
  let s := {| Events.page := {| viewControls := Some vc; loadMore := 1; updatedPageCount := 20;
                                ui := u; showLeadModal := false; showFilters := false |};
              Events.raf := None; Events.pendingQueryFilters := None;
              Events.timeouts := []; Events.exposed := true |} in
  let s2 := Events.animationFrame (App.pushFilters [] [] None s) in
  Spec.issued (Events.page s) (Events.page s2)
  = [SetFilters [status]; ClearLikeFilters; Reload; ClearLikeFilters; Reload]
  /\ Forms.installs [location] (Spec.issued (Events.page s) (Events.page s2)) = [status]
  /\ ui_location (ui (Events.page s2)) = Some (js "Cairo").
Proof.
  intros location status vc u s s2.
  destruct (quick_bar_push_calls [] [] None s vc eq_refl) as (Hc & Hui & Hf & _).
  fold s2 in Hc, Hui, Hf.
  split; [exact Hc|]. split; [exact (Hf eq_refl eq_refl eq_refl) | by rewrite Hui].
Defined.

(** X10. The Clear all button of the bar resets the values of the bar in
    [ui] and calls nothing on the controller: the page has no handler for
    [clear-all]. The bar then holds no filter and no search text. When the
    search watcher has run and the animation frame has come, the calls made
    are those of a blank search, none of which pushes a filter list. So on a
    controller that has [clearLikeFilters], or has no [clearFilters], or
    while the ref is not on [window], none of the calls replaces the filter
    set, and the filters that were in place before Clear all stay, although
    the bar shows none; on a controller with [clearFilters] and without
    [clearLikeFilters], once the ref is on [window], the fallback of the bar
    calls [clearFilters]. *)
Theorem clear_all_calls (fields : list DocField) (lists : list CatalogEntry)
    (me : option jsstring) (s : Events.State) (vc : ViewControls) :
  viewControls (Events.page s) = Some vc ->
  let s1 := App.clearAll s in
  let s2 := Events.animationFrame (App.runSearchLike fields lists me s1) in
  Spec.issued (Events.page s) (Events.page s1) = []
  /\ QuickFiltersBar.buildFiltersPayload (App.barOf fields lists me s1) = []
  /\ (QuickFiltersBar.runSearchLike (App.barOf fields lists me s1)).1 = []
  /\ Spec.issued (Events.page s1) (Events.page s2)
     = (if Events.exposed s then Forms.blankCall vc ++ Forms.reloadCall vc else [])
       ++ Forms.clearLikeCall vc ++ Forms.reloadCall vc
  /\ (has_clearLikeFilters vc = true \/ has_clearFilters vc = false
      \/ Events.exposed s = false ->
      forall filters,
        Forms.installs filters (Spec.issued (Events.page s1) (Events.page s2)) = filters)
  /\ (has_clearLikeFilters vc = false -> has_clearFilters vc = true ->
      Events.exposed s = true ->
      forall filters,
        Forms.installs filters (Spec.issued (Events.page s1) (Events.page s2)) = []).
Proof.
  intros Hvc s1 s2.
  assert (Hvc1 : viewControls (Events.page s1) = Some vc) by exact Hvc.
  split.
  { unfold Spec.issued, Spec.callLog. rewrite Hvc1, Hvc. apply drop_all. }
  split; [reflexivity|]. split; [reflexivity|].
  destruct (search_ran fields lists me s1 vc Hvc1)
    as (vc1 & vc2 & Hvc1' & Hran1 & Hvc2 & Hran2 & _).
  change (Events.exposed s1) with (Events.exposed s) in Hran1.
  change (trim (QuickFiltersBar.search (App.barOf fields lists me s1)))
    with (@nil N) in Hran1.
  change ((QuickFiltersBar.runSearchLike (App.barOf fields lists me s1)).1)
    with (@nil QuickFiltersBar.Like) in Hran1, Hran2.
  pose proof (ran_trans _ _ _ _ _ Hran1 Hran2) as Hall.
  pose proof (ran_issued _ _ _ _ _ Hvc1 Hvc2 Hall) as Hissued.
  fold s2 in Hissued.
  split; [exact Hissued|].
  rewrite Hissued. split.
  - intros H filters. rewrite installs_app, installs_frameCalls.
    destruct (Events.exposed s) eqn:Hexp; [|done].
    apply (installs_directCalls vc [] []).
    destruct H as [H | [H | H]]; [by right; left | by right; right | done].
  - intros Hlike Hclr -> filters. rewrite installs_app, installs_frameCalls.
    by apply (installs_blank_clearFilters vc []).
Qed.

(** The theorem at work: a status filter is in place and the bar shows it;
    after Clear all the bar is empty and the status filter is still in
    place. *)
Lemma clear_all_calls_witness :
  let status := (js "CRM Lead", js "status", js "=", VString (js "New")) in
  let vc := {| has_setFilters := true; has_applyFilter := true; has_applyLikeFilter := true;
               has_clearFilters := true; has_clearLikeFilters := true; has_reload := true;
               vc_filters := [status]; vc_calls := [SetFilters [status]] |} in
  let u :=
    {| ui_search := Some (js "ali"); ui_status := Some (js "New"); ui_stage := None;
       ui_project := None; ui_owner := None; ui_priority := None; ui_follow_up := None;
       ui_last_contacted_from := None; ui_last_contacted_to := None;
       ui_location := None; ui_space_min := None; ui_space_max := None;
       ui_budget_min := None; ui_budget_max := None; ui_lead_source := None;
       ui_lead_origin := None; ui_lead_type := None |} in
  let s := {| Events.page := {| viewControls := Some vc; loadMore := 1; updatedPageCount := 20;
                                ui := u; showLeadModal := false; showFilters := false |};
              Events.raf := None; Events.pendingQueryFilters := None;
              Events.timeouts := []; Events.exposed := true |} in
  let s1 := App.clearAll s in
  let s2 := Events.animationFrame (App.runSearchLike [] [] None s1) in
  ui_status (ui (Events.page s1)) = Some []
  /\ Spec.issued (Events.page s1) (Events.page s2)
     = [ClearLikeFilters; Reload; ClearLikeFilters; Reload]
  /\ Forms.installs [status] (Spec.issued (Events.page s1) (Events.page s2)) = [status].
Proof.
  intros status vc u s s1 s2.
  destruct (clear_all_calls [] [] None s vc eq_refl) as (_ & _ & _ & Hc & Hf & _).
  fold s1 s2 in Hc, Hf.
  split; [done|]. split; [exact Hc | exact (Hf (or_introl eq_refl) [status])].
Defined.
(** *** The delayed cell after a refresh *)

Lemma elem_of_concat {A} (x : A) (ls : list (list A)) :
  x ∈ concat ls <-> exists l, x ∈ l /\ l ∈ ls.
Proof.
  rewrite list_elem_of_In, in_concat. split.
  - intros (l & Hl & Hx). exists l. by rewrite !list_elem_of_In.
  - intros (l & Hx & Hl). exists l. by rewrite <- !list_elem_of_In.
Qed.

Section DelayedCellFacts.
Variable get_delayed_map : list jsstring -> option (gmap jsstring bool).
Hypothesis honest :
  forall chunk m k, get_delayed_map chunk = Some m -> is_Some (m !! k) -> k ∈ chunk.

Lemma answer_outside chunk n :
  n ∉ chunk -> from_option id ∅ (get_delayed_map chunk) !! n = None.
Proof.
  intros Hn. destruct (get_delayed_map chunk) as [m|] eqn:E; simpl; [|apply lookup_empty].
  destruct (m !! n) eqn:Hm; [|done]. destruct Hn. by eapply honest.
Qed.

Lemma mergedAnswers_outside calls start n :
  n ∉ concat calls -> Spec.mergedAnswers get_delayed_map calls start !! n = start !! n.
Proof.
  revert start. induction calls as [|c calls IH]; intros start Hn; simpl; [done|].
  simpl in Hn. rewrite elem_of_app in Hn.
  unfold Spec.mergedAnswers in *. simpl. rewrite IH by tauto.
  rewrite lookup_union_r; [done|]. apply answer_outside. tauto.
Qed.

Lemma mergedAnswers_inside calls start n c m :
  NoDup (concat calls) -> c ∈ calls -> n ∈ c -> get_delayed_map c = Some m ->
  Spec.mergedAnswers get_delayed_map calls start !! n
  = match m !! n with Some b => Some b | None => start !! n end.
Proof.
  revert start. induction calls as [|c0 calls IH]; intros start Hnd Hc Hn Hm.
  { by apply elem_of_nil in Hc. }
  simpl in Hnd. apply NoDup_app in Hnd as (_ & Hdisj & Hnd').
  change (Spec.mergedAnswers get_delayed_map (c0 :: calls) start)
    with (Spec.mergedAnswers get_delayed_map calls
            (from_option id ∅ (get_delayed_map c0) ∪ start)).
  apply elem_of_cons in Hc as [<- | Hc].
  - rewrite mergedAnswers_outside by (by apply Hdisj).
    rewrite Hm. simpl. destruct (m !! n) eqn:E.
    + by apply lookup_union_Some_l.
    + by rewrite lookup_union_r.
  - rewrite (IH _ Hnd' Hc Hn Hm). destruct (m !! n); [done|].
    rewrite lookup_union_r; [done|]. apply answer_outside.
    intros Hn0. apply (Hdisj _ Hn0). apply elem_of_concat. eauto.
Qed.

End DelayedCellFacts.

(** The two ways a refresh ends: every call answered, and the map is the
    merged answers for the distinct visible names; or a call rejected, and
    the map is empty. *)
Lemma refresh_outcome get_delayed_map payload st :
  let r := scheduleDelayedMapRefresh get_delayed_map payload st in
  (Forall (fun c => is_Some (get_delayed_map c)) (remoteCalls r)
   /\ concat (remoteCalls r) = setOf (getVisibleLeadNames payload)
   /\ delayedMap (final r) = Spec.mergedAnswers get_delayed_map (remoteCalls r) ∅)
  \/ (~ Forall (fun c => is_Some (get_delayed_map c)) (remoteCalls r)
      /\ delayedMap (final r) = ∅).
Proof.
  intros r. subst r. unfold scheduleDelayedMapRefresh.
  destruct (getVisibleLeadNames payload) as [|n names'] eqn:Hnames.
  { left. simpl. by repeat split. }
  rewrite <- Hnames.
  destruct (fetchLoop_calls get_delayed_map (setOf (getVisibleLeadNames payload))
              (length (setOf (getVisibleLeadNames payload))) 0 ∅ [])
    as (new & Hcalls & _ & _ & Hres); [lia|].
  simpl in Hcalls.
  destruct (fetchLoop get_delayed_map _ 0 _ ∅ []) as [calls [freshMap|]];
    simpl in Hcalls, Hres |- *; subst calls.
  - destruct Hres as (Hcat & Hok & ->). left. by repeat split.
  - destruct Hres as (c & Hlast & Hc). right. split; [|done].
    intros Hall. rewrite Forall_forall in Hall.
    apply last_Some_elem_of, Hall in Hlast. rewrite Hc in Hlast. by destruct Hlast.
Qed.

Lemma delayedCell_unknown (m : gmap jsstring bool) leadName stored :
  (forall n, leadName = Some n -> m !! n = None) ->
  Shaping.delayedCell m leadName stored = truthy stored.
Proof.
  intros H. unfold Shaping.delayedCell.
  destruct leadName as [[|c n]|]; simpl; try done.
  rewrite (H (c :: n) eq_refl). by rewrite bool_decide_eq_false_2 by (by intros [? ?]).
Qed.

(** X11. What the delayed cell of a row shows after a refresh, when the
    server answers only about the names it was asked about. If every call
    was answered, a visible lead shows the server's answer for it, taken from
    the one call that carried its name, and its stored flag when that answer
    leaves it out; a row without a name, or a lead that is not visible,
    shows its stored flag. If a call was rejected, every row shows its
    stored flag. *)
Theorem delayed_cell_shows_answer
    (get_delayed_map : list jsstring -> option (gmap jsstring bool))
    (payload : LeadsData) (st : DelayedState) :
  (forall chunk m k, get_delayed_map chunk = Some m -> is_Some (m !! k) -> k ∈ chunk) ->
  let r := scheduleDelayedMapRefresh get_delayed_map payload st in
  let cell := Shaping.delayedCell (delayedMap (final r)) in
  (forall stored, cell None stored = truthy stored)
  /\ (forall n stored, n ∉ getVisibleLeadNames payload -> cell (Some n) stored = truthy stored)
  /\ (Forall (fun c => is_Some (get_delayed_map c)) (remoteCalls r) ->
      forall n stored, n ∈ getVisibleLeadNames payload ->
      exists chunk m,
        chunk ∈ remoteCalls r /\ n ∈ chunk /\ get_delayed_map chunk = Some m
        /\ (forall other, other ∈ remoteCalls r -> n ∈ other -> other = chunk)
        /\ cell (Some n) stored = match m !! n with Some b => b | None => truthy stored end)
  /\ (~ Forall (fun c => is_Some (get_delayed_map c)) (remoteCalls r) ->
      forall leadName stored, cell leadName stored = truthy stored).
Proof.
  intros honest r cell. subst cell.
  destruct (refresh_outcome get_delayed_map payload st) as [(Hall & Hcat & Hmap) | (Hnot & Hmap)].
  - fold r in Hall, Hcat, Hmap |- *. split; [done|]. split; [|split; [|done]].
    + intros n stored Hn. apply delayedCell_unknown. intros ? [= <-]. rewrite Hmap.
      rewrite (mergedAnswers_outside _ honest); [apply lookup_empty|].
      by rewrite Hcat, setOf_elem.
    + intros _ n stored Hn.
      assert (Hin : n ∈ concat (remoteCalls r)) by (by rewrite Hcat, setOf_elem).
      apply elem_of_concat in Hin as (chunk & Hnc & Hc).
      rewrite Forall_forall in Hall. destruct (Hall chunk Hc) as [m Hm].
      assert (Hnd : NoDup (concat (remoteCalls r))) by (rewrite Hcat; apply setOf_NoDup).
      exists chunk, m. repeat split; try done.
      * intros other Ho Hno.
        destruct (decide (other = chunk)) as [|Hne]; [done|]. exfalso.
        clear -Hnd Hc Ho Hnc Hno Hne. induction (remoteCalls r) as [|c0 calls IH].
        { by apply elem_of_nil in Hc. }
        simpl in Hnd. apply NoDup_app in Hnd as (_ & Hdisj & Hnd').
        apply elem_of_cons in Hc as [-> | Hc]; apply elem_of_cons in Ho as [-> | Ho].
        -- done.
        -- apply (Hdisj n Hnc). apply elem_of_concat. eauto.
        -- apply (Hdisj n Hno). apply elem_of_concat. eauto.
        -- by apply IH.
      * unfold Shaping.delayedCell.
        assert (Hne : n <> []).
        { clear -Hn. unfold getVisibleLeadNames, pluckNames in Hn.
          destruct payload as [|rows|groups]; [by apply elem_of_nil in Hn | |].
          - apply list_elem_of_omap in Hn as (row & _ & Hrow).
            by destruct (l_name row) as [[|? ?]|]; simplify_eq.
          - apply list_elem_of_In, in_flat_map in Hn as (g & _ & Hg).
            apply list_elem_of_In, list_elem_of_omap in Hg as (row & _ & Hrow).
            by destruct (l_name row) as [[|? ?]|]; simplify_eq. }
        destruct n as [|c0 n]; [done|]. simpl.
        rewrite Hmap, (mergedAnswers_inside _ honest _ _ _ chunk m Hnd Hc Hnc Hm).
        rewrite lookup_empty. by destruct (m !! (c0 :: n)) as [b|].
  - fold r in Hnot, Hmap |- *.
    assert (Hany : forall leadName stored,
              Shaping.delayedCell (delayedMap (final r)) leadName stored = truthy stored).
    { intros leadName stored. apply delayedCell_unknown. intros n _. rewrite Hmap.
      apply lookup_empty. }
    split; [by intros; apply Hany|]. split; [by intros; apply Hany|].
    split; [by intros H; destruct (Hnot H) | by intros _; apply Hany].
Qed.

(** The theorem at work: the server reports the lead L1 as delayed and
    says nothing about L2, whose stored flag is set; both cells show true. *)
Lemma delayed_cell_shows_answer_witness :
  let remote := fun chunk : list jsstring =>
    Some (if bool_decide (js "L1" ∈ chunk) then ({[ js "L1" := true ]} : gmap jsstring bool)
          else ∅) in
  let payload := Flat [ {| l_name := Some (js "L1"); l_assign := None |};
                        {| l_name := Some (js "L2"); l_assign := None |} ] in
  let st := {| delayedMap := ∅; lastDelayedNamesKey := [] |} in
  let r := scheduleDelayedMapRefresh remote payload st in
  Shaping.delayedCell (delayedMap (final r)) (Some (js "L1")) VUndefined = true
  /\ Shaping.delayedCell (delayedMap (final r)) (Some (js "L2")) (VNumber (Finite 1)) = true.
Proof.
  intros remote payload st r.
  assert (honest : forall chunk m k, remote chunk = Some m -> is_Some (m !! k) -> k ∈ chunk).
  { intros chunk m k [= <-] [b Hb]. case_bool_decide as Hin.
    - apply lookup_singleton_Some in Hb as [<- _]. exact Hin.
    - by rewrite lookup_empty in Hb. }
  destruct (delayed_cell_shows_answer remote payload st honest) as (_ & _ & Hans & _).
  fold r in Hans.
  assert (Hall : Forall (fun c => is_Some (remote c)) (remoteCalls r)).
  { apply Forall_forall. intros c _. by eexists. }
  split.
  - destruct (Hans Hall (js "L1") VUndefined) as (chunk & m & _ & Hn & Hm & _ & ->).
    { change (js "L1" ∈ [js "L1"; js "L2"]). apply list_elem_of_here. }
    injection Hm as <-. rewrite (bool_decide_eq_true_2 _ Hn). by rewrite lookup_singleton_eq.
  - destruct (Hans Hall (js "L2") (VNumber (Finite 1))) as (chunk & m & _ & _ & Hm & _ & ->).
    { change (js "L2" ∈ [js "L1"; js "L2"]). apply list_elem_of_further, list_elem_of_here. }
    injection Hm as <-. case_bool_decide; [|by rewrite lookup_empty].
    by rewrite lookup_singleton_ne.
Defined.

(** *** toNum never goes below zero *)

Lemma roundHalfEven_nonneg n d : (0 <= n)%Z -> (0 < d)%Z -> (0 <= roundHalfEven n d)%Z.
Proof.
  intros Hn Hd. unfold roundHalfEven.
  pose proof (Z.div_pos n d Hn Hd).
  destruct (_ ?= _)%Z; [destruct (Z.even _)| |]; lia.
Qed.

Lemma Qred_nonneg q : (0 <= Qnum q)%Z -> (0 <= Qnum (Qred q))%Z.
Proof.
  intros H. pose proof (Qred_correct q) as Heq. unfold Qeq in Heq.
  destruct (Qred q) as [n d]. simpl in *. nia.
Qed.

Lemma roundPositive_nonneg n d :
  (0 < n)%Z -> (0 < d)%Z -> Forms.nonNegative (roundPositive n d).
Proof.
  intros Hn Hd. unfold roundPositive. cbv zeta.
  match goal with |- context [Z.max ?x (-1074)] => generalize (Z.max x (-1074)) end.
  intros p. destruct (0 <=? p)%Z eqn:Hp.
  - apply Z.leb_le in Hp.
    assert (Hm : (0 <= roundHalfEven n (d * 2 ^ p))%Z).
    { apply roundHalfEven_nonneg; [lia|]. apply Z.mul_pos_pos; [done|].
      by apply Z.pow_pos_nonneg. }
    destruct (_ <=? _)%Z; [done|]. simpl.
    apply Z.mul_nonneg_nonneg; [done|]. by apply Z.pow_nonneg.
  - apply Z.leb_gt in Hp. simpl. apply Qred_nonneg. simpl.
    apply roundHalfEven_nonneg; [|done].
    apply Z.mul_nonneg_nonneg; [lia|]. by apply Z.pow_nonneg.
Qed.

Lemma toDouble_nonneg q : (0 <= Qnum q)%Z -> Forms.nonNegative (toDouble q).
Proof.
  intros H. unfold toDouble. destruct (Qnum q) eqn:E; [done | | lia].
  by apply roundPositive_nonneg.
Qed.

Lemma digitsValue_nonneg s : forallb isDigit s = true -> (0 <= digitsValue s)%Z.
Proof.
  unfold digitsValue. intros H.
  assert (Hgen : forall acc, (0 <= acc)%Z ->
            (0 <= fold_left (fun acc c => 10 * acc + digitValue c) s acc)%Z).
  { induction s as [|c s IH]; intros acc Hacc; simpl; [done|].
    simpl in H. apply andb_true_iff in H as [Hc Hs]. apply IH; [done|].
    unfold isDigit in Hc. apply andb_true_iff in Hc as [Hc _]. apply N.leb_le in Hc.
    unfold digitValue. lia. }
  by apply Hgen.
Qed.

Lemma spanDigits_digits s : forallb isDigit (spanDigits s).1 = true.
Proof.
  induction s as [|c s IH]; simpl; [done|].
  destruct (isDigit c) eqn:E; [|done].
  destruct (spanDigits s) as [ds rest]. simpl in *. by rewrite E.
Qed.

Lemma StringToNumber_nonneg s :
  isFinite (StringToNumber s) = true -> Forms.nonNegative (StringToNumber s).
Proof.
  unfold StringToNumber. pose proof (spanDigits_digits s) as Hip.
  destruct (spanDigits s) as [ip rest]. simpl in Hip.
  destruct rest as [|c fp].
  - intros _. apply toDouble_nonneg. simpl. by apply digitsValue_nonneg.
  - destruct (decide (c = 0x2E)) as [-> | Hne].
    + destruct (forallb isDigit fp && _) eqn:Hfp; [|done].
      intros _. apply toDouble_nonneg. simpl. apply digitsValue_nonneg.
      apply andb_true_iff in Hfp as [Hfp _]. by rewrite forallb_app, Hip, Hfp.
    + intros Hfin. exfalso. revert Hfin.
      destruct c as [|p]; [done|]. do 6 (try destruct p as [p|p|]); try done.
Qed.

Lemma mul_nonneg x y :
  isFinite x = true -> Forms.nonNegative x ->
  y ∈ [Finite 1000; Finite 1000000; Finite 1000000000; Finite 1] ->
  Forms.nonNegative (mul x y).
Proof.
  intros Hfin Hx Hy. destruct x as [| | |a]; try done. simpl in Hx.
  repeat (apply elem_of_cons in Hy as [-> | Hy];
          [apply toDouble_nonneg; simpl; lia|]).
  by apply elem_of_nil in Hy.
Qed.

Lemma splitSuffix_mult r :
  (splitSuffix r).1 ∈ [Finite 1000; Finite 1000000; Finite 1000000000; Finite 1].
Proof.
  unfold splitSuffix. repeat (destruct (endsWith _ _)); simpl;
    repeat (first [by apply list_elem_of_here | apply list_elem_of_further]).
Qed.

Lemma readResidue_nonneg r n : Aux.readResidue r = Some n -> Forms.nonNegative n.
Proof.
  unfold Aux.readResidue. pose proof (splitSuffix_mult r) as Hm.
  destruct (splitSuffix r) as [mult s]. simpl in Hm.
  destruct (remove _ s) as [|c s']; [done|].
  destruct (isFinite (StringToNumber (c :: s'))) eqn:Hfin; [|done].
  intros [= <-]. apply mul_nonneg; [done | by apply StringToNumber_nonneg | done].
Qed.

(** X12. Whatever the text, [toNum] never returns NaN or a number below
    zero: a sign is not a digit and is dropped with the other units, so a
    negative bound cannot be entered; the result is a finite number from
    zero up, or Infinity when the multiplier overflows. *)
Theorem toNum_never_negative (v : option jsstring) (n : number) :
  toNum v = Some n ->
  n <> NaN /\ n <> NegInfinity /\ isNegative n = false.
Proof.
  intros H.
  assert (Hn : Forms.nonNegative n).
  { destruct v as [s|]; [|done]. rewrite toNum_residue in H.
    destruct s; [done|]. by eapply readResidue_nonneg. }
  destruct n as [| | |q]; try done. simpl in Hn |- *.
  repeat split; try done. by apply Z.ltb_ge.
Qed.

(** The theorem at work: "-5" reads as 5. *)
Lemma toNum_never_negative_witness :
  toNum (Some (js "-5")) = Some (Finite 5) /\ isNegative (Finite 5) = false.
Proof.
  assert (H : toNum (Some (js "-5")) = Some (Finite 5)) by (by vm_compute).
  split; [exact H|]. exact (proj2 (proj2 (toNum_never_negative _ _ H))).
Defined.

(** *** toNum drops what is not a numeral *)

Lemma residue_unit c :
  Aux.residue [c] = [] \/ Aux.residue [c] = [arabicToAscii (Aux.lowerRead c)].
Proof.
  unfold Aux.residue, remove. cbn [replaceArabicDigits List.map List.filter].
  destruct (negb (isWhiteSpace _)); simpl; [|by left].
  destruct (negb (isComma _)); [by right | by left].
Qed.

(** The Kelvin sign, which lower-cases to [k], is no numeral either way. *)
Lemma lowerRead_numeral c :
  Aux.isNumeral (arabicToAscii (Aux.lowerRead c))
  = Aux.isNumeral (arabicToAscii (lowerUnit c)).
Proof.
  unfold Aux.lowerRead. destruct (c =? 0x212A) eqn:E; [|done].
  apply N.eqb_eq in E as ->. by vm_compute.
Qed.

Lemma readResidue_drops r1 r2 c :
  Aux.isNumeral c = false -> r2 <> [] ->
  Aux.readResidue (r1 ++ c :: r2) = Aux.readResidue (r1 ++ r2).
Proof.
  intros Hc Hr2. unfold Aux.readResidue.
  assert (Hlast : forall d, endsWith (r1 ++ c :: r2) d = endsWith (r1 ++ r2) d).
  { intros d. unfold endsWith.
    destruct (last r2) as [y|] eqn:Hy; [|by apply last_None in Hy].
    assert (H1 : last (r1 ++ c :: r2) = Some y).
    { rewrite last_app. by rewrite last_cons, Hy. }
    assert (H2 : last (r1 ++ r2) = Some y) by (by rewrite last_app, Hy).
    by rewrite H1, H2. }
  assert (Hdrop : remove (fun c => negb (Aux.isNumeral c)) (dropLast (r1 ++ c :: r2))
                  = remove (fun c => negb (Aux.isNumeral c)) (dropLast (r1 ++ r2))).
  { unfold dropLast. rewrite !removelast_app by done.
    change (c :: r2) with ([c] ++ r2). rewrite removelast_app by done.
    unfold remove. rewrite !List.filter_app. simpl. by rewrite Hc. }
  assert (Hkeep : remove (fun c => negb (Aux.isNumeral c)) (r1 ++ c :: r2)
                  = remove (fun c => negb (Aux.isNumeral c)) (r1 ++ r2)).
  { unfold remove. rewrite !List.filter_app. simpl. by rewrite Hc. }
  unfold splitSuffix. rewrite !Hlast.
  repeat (destruct (endsWith (r1 ++ r2) _)); by rewrite ?Hdrop, ?Hkeep.
Qed.

(** X13. [toNum] does not refuse a text for the units it cannot read: a
    unit that is neither a digit nor a full stop once lower-cased and
    digit-normalised (a letter, a sign, a currency mark) is dropped wherever
    it stands before the last unit that counts, so "EGP1500", "1x5" and
    "-15" read as "1500", "15" and "15". *)
Theorem toNum_drops_other_units (s1 s2 : jsstring) (c : N) :
  Aux.isNumeral (arabicToAscii (lowerUnit c)) = false ->
  Aux.residue s2 <> [] ->
  toNum (Some (s1 ++ c :: s2)) = toNum (Some (s1 ++ s2)).
Proof.
  intros Hc Hr2. rewrite <- lowerRead_numeral in Hc.
  assert (Hs2 : s2 <> []) by (by intros ->).
  rewrite !toNum_residue.
  change (c :: s2) with ([c] ++ s2). rewrite !residue_app.
  destruct (s1 ++ [c] ++ s2) eqn:E1; [by destruct s1|].
  destruct (s1 ++ s2) eqn:E2; [by destruct s1, s2|].
  destruct (residue_unit c) as [-> | ->]; [done|].
  by apply readResidue_drops.
Qed.

(** The theorem at work: the minus sign of "-15k" is dropped. *)
Lemma toNum_drops_other_units_witness :
  toNum (Some (js "-15k")) = Some (Finite 15000).
Proof.
  transitivity (toNum (Some ([] ++ js "15k"))); [|by vm_compute].
  apply (toNum_drops_other_units [] (js "15k") 0x2D); by vm_compute.
Defined.

(** *** The subject of a comment *)

Lemma splitFrom_plain (t rest cur : jsstring) :
  0x3A ∉ t ->
  JSText.splitFrom (js ":::") 0 cur (t ++ rest) = JSText.splitFrom (js ":::") 0 (cur ++ t) rest.
Proof.
  revert cur. induction t as [|c t IH]; intros cur Hc.
  - by rewrite app_nil_r.
  - apply not_elem_of_cons in Hc as [Hc Ht].
    assert (Hne : (0x3A =? c) = false) by (by apply N.eqb_neq).
    change ((c :: t) ++ rest) with (c :: (t ++ rest)). cbn [JSText.splitFrom].
    assert (Hs : JSText.startsWith (js ":::") (c :: t ++ rest) = false).
    { change (js ":::") with [0x3A; 0x3A; 0x3A]. cbn [JSText.startsWith]. by rewrite Hne. }
    rewrite Hs, IH by done. by rewrite <- app_assoc.
Qed.

Lemma splitFrom_whole (t cur : jsstring) :
  JSText.includes (js ":::") t = false ->
  JSText.splitFrom (js ":::") 0 cur t = [cur ++ t].
Proof.
  revert cur. induction t as [|c t IH]; intros cur H.
  - by rewrite app_nil_r.
  - cbn [JSText.includes] in H. apply orb_false_iff in H as [Hs Hi].
    cbn [JSText.splitFrom]. rewrite Hs, IH by done. by rewrite <- app_assoc.
Qed.

Lemma includes_after (t rest : jsstring) :
  JSText.includes (js ":::") (t ++ js ":::" ++ rest) = true.
Proof.
  induction t as [|c t IH]; [done|].
  change ((c :: t) ++ js ":::" ++ rest) with (c :: (t ++ js ":::" ++ rest)).
  cbn [JSText.includes]. rewrite IH. apply orb_true_r.
Qed.

Lemma splitFrom_separator (cur rest : jsstring) :
  JSText.splitFrom (js ":::") 0 cur (js ":::" ++ rest)
  = cur :: JSText.splitFrom (js ":::") 0 [] rest.
Proof. reflexivity. Qed.

Lemma typeOptions_plain (label newType : jsstring) :
  (label, newType) ∈ Comments.typeOptions ->
(0x3A ∉ newType) /\ label = (if str_eqb newType (js "Comment") then js "Feedback" else newType).
Proof.
  intros Hopt. unfold Comments.typeOptions in Hopt.
  repeat (apply elem_of_cons in Hopt as [[= -> ->] | Hopt];
          [split; [|reflexivity];
           intros H; repeat (apply elem_of_cons in H as [H | H]; [done|]);
           by apply elem_of_nil in H |]).
  by apply elem_of_nil in Hopt.
Qed.

(** X14. What the comment dialog writes as subject, the list view reads
    back: for a type offered by the dialog and a title without the separator
    [:::], [getParsedFeedback] returns the label of the type and the trimmed
    title, whatever [comment_type] says, and the type filter of the
    activities keeps the comment under its own type and under no other. *)
Theorem feedback_subject_round_trip (label newType newTitle : jsstring)
    (comment_type : option jsstring) :
  (label, newType) ∈ Comments.typeOptions ->
  JSText.includes (js ":::") (trim newTitle) = false ->
  let activity := {| Comments.subject := Some (Comments.subjectOf newType newTitle);
                     Comments.comment_type := comment_type |} in
  Comments.getParsedFeedback activity = (label, trim newTitle)
  /\ (forall selectedType,
        Comments.matchesType selectedType activity = str_eqb newType selectedType).
Proof.
  intros Hopt Htitle activity. subst activity.
  destruct (typeOptions_plain label newType Hopt) as [Hcolon Hlabel].
  unfold Comments.getParsedFeedback, Comments.matchesType, Comments.subjectOf.
  cbn [Comments.subject orEmpty from_option id].
  rewrite includes_after. unfold JSText.splitOn.
  rewrite (splitFrom_plain newType _ [] Hcolon), splitFrom_separator.
  rewrite (splitFrom_whole _ [] Htitle). cbn [lookup list_lookup from_option id app orEmpty].
  split; [by rewrite Hlabel | done].
Qed.

(** The theorem at work, and a title with the separator in it, which is cut
    at the separator. *)
Lemma feedback_subject_round_trip_witness :
  Comments.getParsedFeedback
    {| Comments.subject := Some (Comments.subjectOf (js "Comment") (js "  price talk "));
       Comments.comment_type := Some (js "Comment") |}
  = (js "Feedback", js "price talk")
  /\ Comments.getParsedFeedback
       {| Comments.subject := Some (Comments.subjectOf (js "Call") (js "a:::b"));
          Comments.comment_type := None |}
     = (js "Call", js "a").
Proof.
  split; [|by vm_compute].
  destruct (feedback_subject_round_trip (js "Feedback") (js "Comment") (js "  price talk ")
              (Some (js "Comment"))) as [H _];
    [apply list_elem_of_here | by vm_compute |].
  rewrite H. by vm_compute.
Defined.

(** *** Grouped rows *)

Lemma filter_exclusive {A} (f g : A -> bool) (l : list A) :
  (forall x, f x = true -> g x = false) ->
  List.filter (fun x => f x || g x) l ≡ₚ List.filter f l ++ List.filter g l.
Proof.
  intros Hfg. induction l as [|x l IH]; simpl; [done|].
  destruct (f x) eqn:Hf; simpl.
  - rewrite (Hfg x Hf). by constructor.
  - destruct (g x); [|done]. rewrite IH. apply Permutation_middle.
Qed.

Lemma filteredRows_key {Row} (groupValue : Row -> option jsstring) option listRows :
  Shaping.filteredRows groupValue option listRows
  = List.filter (fun row => bool_decide (Forms.groupKey (groupValue row) = Forms.groupKey option))
                listRows.
Proof.
  unfold Shaping.filteredRows. destruct (present option) eqn:Hp.
  - apply List.filter_ext. intros row. unfold Forms.groupKey. rewrite Hp.
    destruct option as [[|c o]|]; try done. simpl.
    destruct (groupValue row) as [[|d v]|]; simpl; try done; apply bool_decide_ext;
      split; congruence.
  - apply List.filter_ext. intros row. unfold Forms.groupKey. rewrite Hp.
    by destruct (groupValue row) as [[|d v]|].
Qed.

Lemma grouped_partition {Row} (groupValue : Row -> option jsstring) options listRows :
  NoDup (List.map Forms.groupKey options) ->
  concat (List.map (fun o => Shaping.filteredRows groupValue o listRows) options)
  ≡ₚ List.filter (fun row => bool_decide (Forms.groupKey (groupValue row)
                                           ∈ List.map Forms.groupKey options)) listRows.
Proof.
  induction options as [|o options IH]; intros Hnd.
  - simpl. induction listRows as [|row rows IHr]; [done|]. simpl.
    exact IHr.
  - simpl in Hnd. apply NoDup_cons in Hnd as [Ho Hnd].
    cbn [List.map concat]. rewrite (IH Hnd), filteredRows_key.
    rewrite <- filter_exclusive.
    + apply Permutation_refl'. apply List.filter_ext. intros row.
      destruct (decide (Forms.groupKey (groupValue row) = Forms.groupKey o)) as [He|He].
      * rewrite (bool_decide_eq_true_2 _ He). simpl.
        rewrite bool_decide_eq_true_2; [done|]. rewrite He. apply list_elem_of_here.
      * rewrite (bool_decide_eq_false_2 _ He). simpl.
        apply bool_decide_ext. rewrite elem_of_cons. tauto.
    + intros row He%bool_decide_eq_true. rewrite He. by apply bool_decide_eq_false_2.
Qed.

Section GroupingFacts.
Context {Row Shaped : Type}.
Variable groupValue : Row -> option jsstring.
Variable parseRows : list Row -> result Shaped.
Variable translate : jsstring -> jsstring.

Lemma getGroupedByRows_mapM listRows label options :
  Shaping.getGroupedByRows groupValue parseRows translate listRows label options
  = mapM (Shaping.groupDetail groupValue parseRows translate listRows label) options.
Proof.
  unfold Shaping.getGroupedByRows.
  set (f := Shaping.groupDetail groupValue parseRows translate listRows label).
  assert (Hthrow : forall os e,
    fold_left (fun acc option =>
                 bind acc (fun groupedRows =>
                 bind (f option) (fun groupDetail => Return (groupedRows ++ [groupDetail]))))
              os (Throw e) = Throw e).
  { induction os as [|o os IH]; intros e; simpl; [done | apply IH]. }
  assert (Hgen : forall os acc,
    fold_left (fun acc option =>
                 bind acc (fun groupedRows =>
                 bind (f option) (fun groupDetail => Return (groupedRows ++ [groupDetail]))))
              os (Return acc)
    = bind (mapM f os) (fun gs => Return (acc ++ gs))).
  { induction os as [|o os IH]; intros acc; simpl; [by rewrite app_nil_r|].
    destruct (f o) as [g|e]; simpl; [|apply Hthrow].
    rewrite IH. destruct (mapM f os); simpl; [|done]. by rewrite <- app_assoc. }
  rewrite Hgen. by destruct (mapM f options).
Qed.

Lemma mapM_throws {A B} (f : A -> result B) (l : list A) (a : A) (e : error) :
  a ∈ l -> f a = Throw e -> exists e', mapM f l = Throw e'.
Proof.
  intros Ha Hf. induction l as [|x l IH]; [by apply elem_of_nil in Ha|].
  apply elem_of_cons in Ha as [<- | Ha]; simpl.
  - rewrite Hf. by eexists.
  - destruct (f x); simpl; [|by eexists].
    destruct (IH Ha) as [e' ->]. by eexists.
Qed.

Lemma mapM_returns {A B} (f : A -> result B) (g : A -> B) (l : list A) :
  (forall a, a ∈ l -> f a = Return (g a)) -> mapM f l = Return (List.map g l).
Proof.
  induction l as [|x l IH]; intros H; simpl; [done|].
  rewrite (H x) by apply list_elem_of_here. simpl.
  rewrite IH; [done|]. intros a Ha. apply H. by apply list_elem_of_further.
Qed.

End GroupingFacts.

(** X15. Group-by shaping makes one group per option, in order, each with
    the rows whose value under the group-by field is that option, the blank
    options (null, undefined, empty) taking the rows without a value. When
    the options are distinct, the groups together hold exactly the rows
    whose value is one of the options, each once: a row whose value is not
    among the options appears in no group. An exception of [parseRows] in
    one group ends the whole shaping. *)
Theorem grouped_rows_partition {Row Shaped : Type} (groupValue : Row -> option jsstring)
    (parseRows : list Row -> result Shaped) (translate : jsstring -> jsstring)
    (listRows : list Row) (label : jsstring) (options : list (option jsstring)) :
  let grouped := Shaping.getGroupedByRows groupValue parseRows translate listRows label options in
  let rowsOf option := Shaping.filteredRows groupValue option listRows in
  (forall shaped, (forall o, o ∈ options -> parseRows (rowsOf o) = Return (shaped o)) ->
     grouped = Return (List.map
       (fun o => {| Shaping.g_label := label;
                    Shaping.g_group := if present o then orEmpty o else translate (js " ");
                    Shaping.g_collapsed := false;
                    Shaping.g_rows := shaped o |}) options))
  /\ (forall o e, o ∈ options -> parseRows (rowsOf o) = Throw e -> exists e', grouped = Throw e')
  /\ (NoDup (List.map Forms.groupKey options) ->
      concat (List.map rowsOf options)
      ≡ₚ List.filter (fun row => bool_decide (Forms.groupKey (groupValue row)
                                               ∈ List.map Forms.groupKey options)) listRows).
Proof.
  intros grouped rowsOf. subst grouped rowsOf. rewrite getGroupedByRows_mapM.
  split; [|split].
  - intros shaped H. apply mapM_returns. intros o Ho.
    unfold Shaping.groupDetail. by rewrite (H o Ho).
  - intros o e Ho He. apply (mapM_throws _ _ o e Ho).
    unfold Shaping.groupDetail. by rewrite He.
  - apply grouped_partition.
Qed.

(** *** Labels of the lead page *)

(** X16. The label of a payment plan is the first of plan name, title,
    unit name and project name that is not blank, trimmed, and the empty
    string when all four are blank: the document id in [name] is never what
    is displayed, and the label does not depend on it. *)
Theorem derivePlanLabel_never_the_id (doc : jsstring -> option jsstring) :
  let v f := trim (orEmpty (doc f)) in
  LeadDoc.derivePlanLabel doc
  = (if bool_decide (v (js "plan_name") <> []) then v (js "plan_name")
     else if bool_decide (v (js "title") <> []) then v (js "title")
     else if bool_decide (v (js "unit_name") <> []) then v (js "unit_name")
     else if bool_decide (v (js "project_name") <> []) then v (js "project_name")
     else [])
  /\ LeadDoc.derivePlanLabel doc
     = LeadDoc.derivePlanLabel (fun f => if str_eqb f (js "name") then None else doc f).
Proof.
  intros v.
  assert (Hform : forall d,
    LeadDoc.derivePlanLabel d
    = (if bool_decide (trim (orEmpty (d (js "plan_name"))) <> [])
       then trim (orEmpty (d (js "plan_name")))
       else if bool_decide (trim (orEmpty (d (js "title"))) <> [])
       then trim (orEmpty (d (js "title")))
       else if bool_decide (trim (orEmpty (d (js "unit_name"))) <> [])
       then trim (orEmpty (d (js "unit_name")))
       else if bool_decide (trim (orEmpty (d (js "project_name"))) <> [])
       then trim (orEmpty (d (js "project_name")))
       else [])).
  { intros d. unfold LeadDoc.derivePlanLabel. cbn [LeadDoc.firstLabel].
    change (str_eqb (js "plan_name") (js "name")) with false.
    change (str_eqb (js "title") (js "name")) with false.
    change (str_eqb (js "unit_name") (js "name")) with false.
    change (str_eqb (js "project_name") (js "name")) with false.
    change (str_eqb (js "name") (js "name")) with true.
    rewrite !bool_decide_not.
    by destruct (negb (bool_decide (trim (orEmpty (d (js "name"))) = []))). }
  split; [apply Hform|]. rewrite !Hform.
  change (str_eqb (js "plan_name") (js "name")) with false.
  change (str_eqb (js "title") (js "name")) with false.
  change (str_eqb (js "unit_name") (js "name")) with false.
  change (str_eqb (js "project_name") (js "name")) with false.
  done.
Qed.

Lemma indexOf_at (local rest : jsstring) (c : N) :
  c ∉ local -> JSText.indexOf c (local ++ c :: rest) = Some (length local).
Proof.
  induction local as [|d local IH]; intros Hc; simpl.
  - by rewrite N.eqb_refl.
  - apply not_elem_of_cons in Hc as [Hd Hc].
    rewrite (proj2 (N.eqb_neq d c)) by done. by rewrite IH.
Qed.

Lemma indexOf_none (s : jsstring) (c : N) : c ∉ s -> JSText.indexOf c s = None.
Proof.
  induction s as [|d s IH]; intros Hc; simpl; [done|].
  apply not_elem_of_cons in Hc as [Hd Hc].
  rewrite (proj2 (N.eqb_neq d c)) by done. by rewrite IH.
Qed.

(** X17. The short form of an owner is the part of the address before the
    first at sign, when that part is not empty; an address without an at
    sign, or one that starts with it, is shown whole, and no address gives
    the empty string. *)
Theorem ownerShort_local_part (local domain : jsstring) :
  0x40 ∉ local ->
  LeadDoc.ownerShort (Some (local ++ 0x40 :: domain))
  = (if bool_decide (local = []) then 0x40 :: domain else local)
  /\ LeadDoc.ownerShort (Some local) = local
  /\ LeadDoc.ownerShort None = [].
Proof.
  intros Hat. split; [|split; [|done]].
  - unfold LeadDoc.ownerShort.
    destruct local as [|c local]; [reflexivity|].
    cbn [present app orEmpty from_option id].
    change (c :: local ++ 0x40 :: domain) with ((c :: local) ++ 0x40 :: domain).
    rewrite (indexOf_at _ _ _ Hat). cbn [length].
    rewrite bool_decide_eq_false_2 by done.
    change (S (length local)) with (length (c :: local)). by rewrite take_app_length.
  - unfold LeadDoc.ownerShort. destruct local as [|c local]; [done|].
    cbn [present orEmpty from_option id]. by rewrite (indexOf_none _ _ Hat).
Qed.

(** The theorem at work on an address. *)
Lemma ownerShort_local_part_witness :
  LeadDoc.ownerShort (Some (js "sara@example.com")) = js "sara".
Proof.
  assert (Hat : 0x40 ∉ js "sara").
  { intros H. repeat (apply elem_of_cons in H as [H | H]; [done|]). by apply elem_of_nil in H. }
  exact (proj1 (ownerShort_local_part (js "sara") (js "example.com") Hat)).
Defined.

(** *** Digits of a phone search *)

Lemma arabicToAscii_phone c :
  QuickFiltersBar.isPhoneUnit c = true ->
  QuickFiltersBar.isPhoneUnit (arabicToAscii c) = true
  /\ isArabicDigit (arabicToAscii c) = false.
Proof.
  intros H. unfold arabicToAscii. destruct (isArabicDigit c) eqn:E.
  - unfold isArabicDigit in E. range_hyps.
    unfold QuickFiltersBar.isPhoneUnit, isWhiteSpace, isDigit, isArabicDigit.
    split; by settle_units.
  - by split.
Qed.

Lemma arabicToAscii_idem c : arabicToAscii (arabicToAscii c) = arabicToAscii c.
Proof.
  unfold arabicToAscii at 2. destruct (isArabicDigit c) eqn:E; [|by unfold arabicToAscii; rewrite E].
  unfold isArabicDigit in E. range_hyps. unfold arabicToAscii, isArabicDigit. by settle_units.
Qed.

(** X18. [normalizeDigits] is idempotent, and the value of a phone search
    is plain ASCII: when the text passes [isDigits], its normalised form
    holds only ASCII digits, white space and the signs plus, minus and
    parentheses, and no Arabic-Indic digit. *)
Theorem normalizeDigits_ascii (s : jsstring) :
  QuickFiltersBar.normalizeDigits (QuickFiltersBar.normalizeDigits s)
  = QuickFiltersBar.normalizeDigits s
  /\ (QuickFiltersBar.isDigits s = true ->
      Forall (fun c => QuickFiltersBar.isPhoneUnit c = true /\ isArabicDigit c = false)
             (QuickFiltersBar.normalizeDigits s)).
Proof.
  unfold QuickFiltersBar.normalizeDigits, replaceArabicDigits.
  rewrite !(trim_map _ _ arabicToAscii_ws). split.
  - rewrite List.map_map, trim_idem. apply List.map_ext, arabicToAscii_idem.
  - unfold QuickFiltersBar.isDigits. intros [_ Hall]%andb_true_iff.
    apply Forall_forall. intros c Hc.
    apply list_elem_of_In, in_map_iff in Hc as (d & <- & Hd).
    apply arabicToAscii_phone. rewrite forallb_forall in Hall. apply Hall.
    by apply list_elem_of_In, trim_sub, list_elem_of_In.
Qed.

(** *** The WhatsApp link *)

(** X21. The WhatsApp link carries ASCII digits only: whatever the stored
    number, the address opened is the prefix followed by a non-empty run of
    the digits 0 to 9, every other unit being dropped, the plus sign
    included; and a number written in Arabic-Indic digits, which the search
    bar reads, opens nothing. *)
Theorem openWhatsApp_ascii_digits (number : option jsstring) :
  match ListView.openWhatsApp number with
  | Some url =>
    exists phone, url = js "https://wa.me/" ++ phone /\ phone <> []
                  /\ forallb isDigit phone = true
                  /\ phone = List.filter isDigit (orEmpty number)
  | None => forallb (fun c => negb (isDigit c)) (orEmpty number) = true
  end
  /\ (forallb isArabicDigit (orEmpty number) = true -> ListView.openWhatsApp number = None).
Proof.
  unfold ListView.openWhatsApp, remove.
  assert (Hf : List.filter (fun c => negb (negb (isDigit c))) (orEmpty number)
               = List.filter isDigit (orEmpty number)).
  { apply List.filter_ext. intros c. apply negb_involutive. }
  rewrite Hf. split.
  - destruct (List.filter isDigit (orEmpty number)) as [|d phone] eqn:E.
    + rewrite bool_decide_eq_true_2 by done. simpl.
      apply forallb_forall. intros c Hc. apply negb_true_iff, not_true_is_false.
      intros Hd. assert (Hin : In c (List.filter isDigit (orEmpty number))).
      { apply filter_In. by split. }
      by rewrite E in Hin.
    + rewrite bool_decide_eq_false_2 by done. simpl.
      exists (d :: phone). split; [done|]. split; [done|]. split; [|done].
      rewrite <- E. apply forallb_forall. intros c Hc. by apply filter_In in Hc as [_ ?].
  - intros Har.
    assert (He : List.filter isDigit (orEmpty number) = []).
    { clear Hf. induction (orEmpty number) as [|c s IH]; [done|]. simpl in Har |- *.
      apply andb_true_iff in Har as [Hc Hs].
      assert (Hd : isDigit c = false).
      { unfold isArabicDigit in Hc. range_hyps. unfold isDigit. by settle_units. }
      rewrite Hd. by apply IH. }
    by rewrite He.
Qed.

(** *** The assignment dialog *)



Lemma names_removeValue value l n :
  n ∈ List.map AssignTo.a_name (AssignTo.removeValue value l)
  <-> n ∈ List.map AssignTo.a_name l /\ n <> value.
Proof.
  unfold AssignTo.removeValue. rewrite !list_elem_of_In, !in_map_iff. split.
  - intros (a & <- & Ha). apply filter_In in Ha as [Ha Hne].
    apply negb_true_iff, bool_decide_eq_false in Hne. split; [by exists a | done].
  - intros [(a & <- & Ha) Hne]. exists a. split; [done|]. apply filter_In. split; [done|].
    apply negb_true_iff. by apply bool_decide_eq_false_2.
Qed.






(** *** The status dot *)

Lemma startsWith_spec (p s : jsstring) :
  JSText.startsWith p s = true <-> exists b, s = p ++ b.
Proof.
  revert s. induction p as [|a p IH]; intros s; simpl.
  - split; [by exists s | done].
  - destruct s as [|c s]; [split; [done | by intros [? ?]]|].
    rewrite andb_true_iff, N.eqb_eq, IH. split.
    + intros [-> [b ->]]. by exists b.
    + intros [b [= -> ->]]. split; [done | by exists b].
Qed.

Lemma includes_spec (p s : jsstring) :
  JSText.includes p s = true <-> exists a b, s = a ++ p ++ b.
Proof.
  induction s as [|c s IH]; cbn [JSText.includes]; rewrite orb_true_iff, startsWith_spec.
  - split.
    + intros [[b Hb] | ?]; [|done]. by exists [], b.
    + intros (a & b & H). left. destruct a; [by exists b|done].
  - rewrite IH. split.
    + intros [[b Hb] | (a & b & ->)]; [by exists [], b | by exists (c :: a), b].
    + intros (a & b & H). destruct a as [|d a]; [left; by exists b|].
      injection H as -> ->. right. by exists a, b.
Qed.

Lemma includes_suffix (p q s : jsstring) :
  JSText.includes (p ++ q) s = true -> JSText.includes q s = true.
Proof.
  rewrite !includes_spec. intros (a & b & ->). exists (a ++ p), b.
  by rewrite <- !app_assoc.
Qed.

(** X20. The status dot is green for every status that has "qualif" in it,
    letter case apart, whatever stands before: the test for "disqual" comes
    later and is never reached for such a status, so Disqualified and
    Unqualified get the green dot of Qualified, not the yellow one. *)
Theorem status_dot_green_for_any_qualif (before status : jsstring) :
  BarLabels.test (before ++ js "qualif") status = true ->
  BarLabels.statusDotClass status = js "bg-green-500".
Proof.
  unfold BarLabels.statusDotClass, BarLabels.test. intros H.
  assert (Hne : status <> []).
  { intros ->. apply includes_spec in H as (a & b & H). simpl in H.
    by destruct a, before. }
  rewrite (bool_decide_eq_false_2 _ Hne).
  by rewrite (includes_suffix _ _ _ H).
Qed.

(** The theorem at work on Disqualified, with two statuses for contrast. *)
Lemma status_dot_green_for_any_qualif_witness :
  BarLabels.statusDotClass (js "Disqualified") = js "bg-green-500"
  /\ BarLabels.statusDotClass (js "Junk") = js "bg-yellow-500"
  /\ BarLabels.statusDotClass (js "New") = js "bg-blue-500".
Proof.
  split; [|by vm_compute].
  apply (status_dot_green_for_any_qualif (js "dis")). by vm_compute.
Defined.

